(** * MidiExporter: the event-to-interval transcription core

    A shallow embedding of [midi_transcriber.py]: the tempo-aware time
    mapper ([transcribe_midi]), the interval pairer
    ([convert_to_midi_notes]) and the transform pipeline
    ([apply_transforms]) with the two modifiers that [main] builds.

    Python [int] is [Z].  Python [float] is an IEEE-754 binary64 value,
    represented by the Standard Library's [spec_float] with [prec = 53] and
    [emax = 1024].  The dictionary [active] is a [gmap Z Z].  [MidiNote]
    objects handled by [apply_transforms] live in a store, because the
    function copies and then updates objects in place. *)

From Stdlib Require Import ZArith NArith Ascii String List Lia Sorting.Sorted.
From Stdlib Require Import Floats.SpecFloat.
From stdpp Require Import base option list gmap strings pretty.

Open Scope Z_scope.

(** ** Exceptions and results *)

(** The exceptions the modelled code can raise. *)
Inductive exn : Type :=
| ZeroDivisionError
| OverflowError
| ValueError.

Inductive result (A : Type) : Type :=
| Ok (a : A)
| Err (e : exn).
Arguments Ok {A} a.
Arguments Err {A} e.

Definition rbind {A B} (r : result A) (f : A → result B) : result B :=
  match r with
  | Ok a => f a
  | Err e => Err e
  end.

(** Two results that are both values, or the same exception. *)
Definition same_outcome {A B} (r1 : result A) (r2 : result B) : Prop :=
  match r1, r2 with
  | Ok _, Ok _ => True
  | Err e1, Err e2 => e1 = e2
  | _, _ => False
  end.

(** ** Python floats *)

Module PyFloat.

Definition prec : Z := 53.
Definition emax : Z := 1024.

(** An integer as an exact, unrounded dyadic number. *)
Definition exact (z : Z) : spec_float :=
  match z with
  | Z0 => S754_zero false
  | Zpos p => S754_finite false p 0
  | Zneg p => S754_finite true p 0
  end.

(** [a / b] on two ints: the exact quotient rounded once to the nearest
    binary64 (ties to even); [ZeroDivisionError] for [b = 0] and
    [OverflowError] when the quotient is beyond the float range. *)
Definition truediv (a b : Z) : result spec_float :=
  if b =? 0 then Err ZeroDivisionError
  else match SFdiv prec emax (exact a) (exact b) with
       | S754_infinity _ => Err OverflowError
       | f => Ok f
       end.

(** [float(z)], the conversion applied to the int operand of
    [int * float]: nearest binary64, [OverflowError] beyond the range. *)
Definition of_int (z : Z) : result spec_float :=
  match binary_normalize prec emax z 0 false with
  | S754_infinity _ => Err OverflowError
  | f => Ok f
  end.

(** [z * x] for an int [z] and a float [x]. *)
Definition int_mul (z : Z) (x : spec_float) : result spec_float :=
  rbind (of_int z) (λ fz, Ok (SFmul prec emax fz x)).

Definition signed (s : bool) (z : Z) : Z := if s then - z else z.

(** [int(x)]: truncation towards zero. *)
Definition to_int (x : spec_float) : result Z :=
  match x with
  | S754_zero _ => Ok 0
  | S754_infinity _ => Err OverflowError
  | S754_nan => Err ValueError
  | S754_finite s m e =>
      Ok (signed s (if 0 <=? e then Z.pos m * 2 ^ e
                    else Z.pos m / 2 ^ (- e)))
  end.

(** Nearest integer to [n / d] for [d > 0] and [n >= 0], ties to even. *)
Definition nearest_even (n d : Z) : Z :=
  let q := n / d in
  let r := n mod d in
  match 2 * r ?= d with
  | Lt => q
  | Gt => q + 1
  | Eq => if Z.even q then q else q + 1
  end.

(** [round(x)] with one argument: the nearest int, ties to even. *)
Definition round (x : spec_float) : result Z :=
  match x with
  | S754_zero _ => Ok 0
  | S754_infinity _ => Err OverflowError
  | S754_nan => Err ValueError
  | S754_finite s m e =>
      Ok (signed s (if 0 <=? e then Z.pos m * 2 ^ e
                    else nearest_even (Z.pos m) (2 ^ (- e))))
  end.

(** The literal [1.0]. *)
Definition one : spec_float := S754_finite false 4503599627370496 (-52).
(** [0.5], [-1.0] and [0.0], used in examples. *)
Definition half : spec_float := S754_finite false 4503599627370496 (-53).
Definition minus_one : spec_float := S754_finite true 4503599627370496 (-52).
Definition zero : spec_float := S754_zero false.

(** [x != y] on floats. *)
Definition neqb (x y : spec_float) : bool := negb (SFeqb x y).

(** [f] is a positive float of value [M * 2 ^ E]. *)
Definition represents (f : spec_float) (M E : Z) : Prop :=
  ∃ m j, f = S754_finite false m (E + j) ∧ 0 ≤ j ∧ Z.pos m * 2 ^ j = M.

End PyFloat.

(** ** The time mapper: [transcribe_midi] *)

(** A message of a track as [mido] yields it: [time] is the delta in ticks,
    and only the attributes the code reads are kept. *)
Inductive MsgType : Type :=
| set_tempo (tempo : Z)
| note_on (note velocity : Z)
| note_off (note velocity : Z)
| other_msg.

Record Message : Type := Msg { time : Z; type : MsgType }.

Record MidiFile : Type :=
  { ticks_per_beat : Z; tracks : list (list Message) }.

(** An event [(midi_note_number, timestamp_ms, "ON"/"OFF")]. *)
Definition Event : Type := Z * Z * string.

Definition ev_time (e : Event) : Z := e.1.2.

Definition default_tempo : Z := 500000.

(** [int((cur_ticks * tempo) / (ticks_per_beat * 1000))]. *)
Definition time_ms (cur_ticks tempo tpb : Z) : result Z :=
  rbind (PyFloat.truediv (cur_ticks * tempo) (tpb * 1000)) PyFloat.to_int.

(** The events one message appends to [note_events]. *)
Definition emit (m : Message) (t_ms : Z) : list Event :=
  match type m with
  | set_tempo _ => []
  | note_on n v =>
      if 0 <? v then [(n, t_ms, "ON"%string)]
      else if v =? 0 then [(n, t_ms, "OFF"%string)] else []
  | note_off n _ => [(n, t_ms, "OFF"%string)]
  | other_msg => []
  end.

Definition next_tempo (tempo : Z) (m : Message) : Z :=
  match type m with
  | set_tempo t => t
  | _ => tempo
  end.

(** The inner loop [for msg in track], from the state
    [(cur_ticks, tempo)]; it returns the events appended, in order. *)
Fixpoint track_loop (tpb : Z) (msgs : list Message) (cur_ticks tempo : Z)
  : result (list Event) :=
  match msgs with
  | [] => Ok []
  | m :: rest =>
      let cur_ticks := cur_ticks + time m in
      rbind (time_ms cur_ticks tempo tpb) (λ t,
      rbind (track_loop tpb rest cur_ticks (next_tempo tempo m)) (λ evs,
      Ok (emit m t ++ evs)))
  end.

(** The loop state after a run of messages: the ticks they add to
    [cur_ticks], and the value of [tempo]. *)
Definition ticks (msgs : list Message) : Z :=
  foldr (λ m acc, time m + acc) 0 msgs.
Definition tempo_after (tempo : Z) (msgs : list Message) : Z :=
  foldl next_tempo tempo msgs.

(** The conversion that C1 describes, for comparison with [track_loop]:
    every delta is converted at the tempo in force while it elapsed, so the
    state carries the microseconds elapsed instead of the ticks. *)
Fixpoint piecewise_track_loop (tpb : Z) (msgs : list Message)
  (elapsed_us tempo : Z) : list Event :=
  match msgs with
  | [] => []
  | m :: rest =>
      let elapsed_us := elapsed_us + time m * tempo in
      emit m (elapsed_us / (tpb * 1000))
      ++ piecewise_track_loop tpb rest elapsed_us (next_tempo tempo m)
  end.

(** A message that is not a tempo change. *)
Definition no_tempo_change (m : Message) : Prop := ∀ t, type m ≠ set_tempo t.

(** The outer loop over [mid.tracks[:2]]: each track starts again from
    [cur_ticks = 0] and the default tempo. *)
Fixpoint tracks_loop (tpb : Z) (trs : list (list Message))
  : result (list Event) :=
  match trs with
  | [] => Ok []
  | tr :: rest =>
      rbind (track_loop tpb tr 0 default_tempo) (λ evs,
      rbind (tracks_loop tpb rest) (λ evs', Ok (evs ++ evs')))
  end.

(** [list.sort(key=lambda x: x[1])]: a stable sort on the timestamp.  The
    elements are inserted from the last to the first, each in front of the
    elements with the same key, which come after it in the input. *)
Fixpoint insert_event (e : Event) (l : list Event) : list Event :=
  match l with
  | [] => [e]
  | x :: l' =>
      if ev_time e <=? ev_time x then e :: l else x :: insert_event e l'
  end.

Definition sort_events (l : list Event) : list Event :=
  foldr insert_event [] l.

(** Sorted in non-decreasing order of timestamp. *)
Definition le_time (a b : Event) : Prop := ev_time a ≤ ev_time b.
Definition time_sorted (events : list Event) : Prop := Sorted le_time events.

(** [transcribe_midi] on a decoded file; any exception gives [[]]. *)
Definition transcribe_midi (mid : MidiFile) : list Event :=
  match tracks_loop (ticks_per_beat mid) (take 2 (tracks mid)) with
  | Ok evs => sort_events evs
  | Err _ => []
  end.

(** ** The interval pairer: [convert_to_midi_notes] *)

Record MidiNote : Type := mkNote
  { index : Z; midiNoteNumber : Z; timeMSec : Z; noteDuration : Z }.

Definition set_midiNoteNumber (n : MidiNote) (p : Z) : MidiNote :=
  mkNote (index n) p (timeMSec n) (noteDuration n).
Definition set_timeMSec (n : MidiNote) (t : Z) : MidiNote :=
  mkNote (index n) (midiNoteNumber n) t (noteDuration n).
Definition set_noteDuration (n : MidiNote) (d : Z) : MidiNote :=
  mkNote (index n) (midiNoteNumber n) (timeMSec n) d.

(** The loop state: the list [out], the dictionary [active], and [idx]. *)
Record PairState : Type := mkPair
  { out : list MidiNote; active : gmap Z Z; idx : Z }.

Definition pair_init : PairState := mkPair [] ∅ 0.

(** [limit is not None and len(out) >= limit]. *)
Definition limit_reached (limit : option Z) (o : list MidiNote) : bool :=
  match limit with
  | Some l => l <=? Z.of_nat (length o)
  | None => false
  end.

(** One iteration of [for note_num, t_ms, state in events]; the boolean
    tells whether the iteration ended in [break]. *)
Definition pair_step (limit : option Z) (st : PairState) (ev : Event)
  : PairState * bool :=
  let '(note_num, t_ms, state) := ev in
  if String.eqb state "ON" then
    (mkPair (out st) (<[note_num := t_ms]> (active st)) (idx st), false)
  else if String.eqb state "OFF" then
    match active st !! note_num with
    | Some start =>
        let out' :=
          out st ++ [mkNote (idx st) note_num start (t_ms - start)] in
        (mkPair out' (delete note_num (active st)) (idx st + 1),
         limit_reached limit out')
    | None => (st, false)
    end
  else (st, false).

Fixpoint pair_loop (limit : option Z) (events : list Event) (st : PairState)
  : PairState :=
  match events with
  | [] => st
  | ev :: rest =>
      let '(st', stop) := pair_step limit st ev in
      if stop then st' else pair_loop limit rest st'
  end.

(** [min] over a non-empty sequence, given as its head and tail. *)
Definition py_min (x : Z) (xs : list Z) : Z := foldl Z.min x xs.

(** [m] is the least element of [l]. *)
Definition is_min (m : Z) (l : list Z) : Prop := m ∈ l ∧ Forall (λ y, m ≤ y) l.

(** [if out: t0 = min(...); for n in out: n.timeMSec -= t0].  Every
    element of [out] was built by this call and occurs once, so the
    update in place is a map over the values. *)
Definition renormalize (o : list MidiNote) : list MidiNote :=
  match o with
  | [] => []
  | n :: ns =>
      let t0 := py_min (timeMSec n) (timeMSec <$> ns) in
      (λ n, set_timeMSec n (timeMSec n - t0)) <$> o
  end.

Definition convert_to_midi_notes (events : list Event) (limit : option Z)
  : list MidiNote :=
  renormalize (out (pair_loop limit events pair_init)).

(** ** The transform pipeline: [apply_transforms] *)

Record TransformOptions : Type := mkOpts
  { time_shift_ms : Z; time_scale : spec_float; min_duration_ms : Z }.

(** *** The object store *)

(** A [MidiNote] object is a location of the store, and a new object takes
    the next free location.  Two names for one object are two occurrences
    of one location.  The locations handed to the pipeline are allocated
    ones; the total lookup [h !!! l] only makes [load] a total function. *)
Abbreviation loc := nat (only parsing).
Abbreviation store := (list MidiNote) (only parsing).

Global Instance MidiNote_inhabited : Inhabited MidiNote :=
  populate (mkNote 0 0 0 0).

(** Computations on the store that may raise; what was written before an
    exception stays written. *)
Definition M (A : Type) : Type := store → store * result A.

Definition ret {A} (a : A) : M A := λ h, (h, Ok a).
Definition bind {A B} (m : M A) (f : A → M B) : M B :=
  λ h, match m h with
       | (h', Ok a) => f a h'
       | (h', Err e) => (h', Err e)
       end.
Definition lift {A} (r : result A) : M A := λ h, (h, r).

Notation "x <- m ;; k" := (bind m (λ x, k))
  (at level 100, m at next level, right associativity).
Notation "m ;;; k" := (bind m (λ _, k))
  (at level 100, right associativity).

(** [MidiNote(...)]: a new object. *)
Definition alloc (v : MidiNote) : M loc := λ h, (h ++ [v], Ok (length h)).
(** Reading the fields of an object. *)
Definition load (l : loc) : M MidiNote := λ h, (h, Ok (h !!! l)).
(** Assigning fields of an object. *)
Definition assign (l : loc) (v : MidiNote) : M unit :=
  λ h, (<[l := v]> h, Ok tt).

(** *** Modifiers *)

(** A modifier is a callable [MidiNote -> MidiNote].  The two that [main]
    builds assign a field of their argument and return the argument
    ([in_place]); a modifier written as a pure function builds and returns
    a new [MidiNote] ([rebuild]).  Any other callable is a computation on
    the store ([callable]): it may read and assign any object, build new
    ones, return any object, its argument or not, or raise. *)
Inductive Modifier : Type :=
| in_place (f : MidiNote → MidiNote)
| rebuild (f : MidiNote → MidiNote)
| callable (g : loc → M loc).

Definition call_modifier (md : Modifier) (m : loc) : M loc :=
  match md with
  | in_place f => v <- load m ;; assign m (f v) ;;; ret m
  | rebuild f => v <- load m ;; alloc (f v)
  | callable g => g m
  end.

(** [for mod in extra_modifiers: m = mod(m)]. *)
Fixpoint call_modifiers (mods : list Modifier) (m : loc) : M loc :=
  match mods with
  | [] => ret m
  | md :: rest => m' <- call_modifier md m ;; call_modifiers rest m'
  end.

(** *** The pipeline *)

(** [int(round(x * opts.time_scale))]. *)
Definition scale_int (x : Z) (s : spec_float) : result Z :=
  rbind (PyFloat.int_mul x s) PyFloat.round.

(** The three built-in steps, on the working copy [m]. *)
Definition builtin_steps (opts : TransformOptions) (m : loc) : M unit :=
  (if PyFloat.neqb (time_scale opts) PyFloat.one then
     v <- load m ;;
     t <- lift (scale_int (timeMSec v) (time_scale opts)) ;;
     assign m (set_timeMSec v t) ;;;
     v <- load m ;;
     d <- lift (scale_int (noteDuration v) (time_scale opts)) ;;
     assign m (set_noteDuration v d)
   else ret tt) ;;;
  (if negb (time_shift_ms opts =? 0) then
     v <- load m ;;
     assign m (set_timeMSec v (timeMSec v + time_shift_ms opts))
   else ret tt) ;;;
  v <- load m ;;
  if negb (min_duration_ms opts =? 0)
     && (noteDuration v <? min_duration_ms opts)
  then assign m (set_noteDuration v (min_duration_ms opts))
  else ret tt.

(** The body of [for n in notes], up to the object appended to [out]. *)
Definition transform_note (opts : TransformOptions) (mods : list Modifier)
  (n : loc) : M loc :=
  v <- load n ;;
  m <- alloc v ;;
  builtin_steps opts m ;;;
  call_modifiers mods m.

Fixpoint transform_loop (opts : TransformOptions) (mods : list Modifier)
  (notes : list loc) (o : list loc) : M (list loc) :=
  match notes with
  | [] => ret o
  | n :: rest =>
      m <- transform_note opts mods n ;;
      transform_loop opts mods rest (o ++ [m])
  end.

(** [for e in out: e.timeMSec -= t0]. *)
Fixpoint shift_all (t0 : Z) (es : list loc) : M unit :=
  match es with
  | [] => ret tt
  | e :: rest =>
      v <- load e ;;
      assign e (set_timeMSec v (timeMSec v - t0)) ;;;
      shift_all t0 rest
  end.

(** The start times of the objects of [es], as the generator yields them. *)
Definition start_times (es : list loc) : M (list Z) :=
  λ h, (h, Ok ((λ e, timeMSec (h !!! e)) <$> es)).

(** [if out: t0 = min(e.timeMSec for e in out); ...]. *)
Definition renormalize_store (o : list loc) : M unit :=
  match o with
  | [] => ret tt
  | e :: es =>
      v <- load e ;;
      ts <- start_times es ;;
      shift_all (py_min (timeMSec v) ts) o
  end.

Definition apply_transforms (notes : list loc) (opts : TransformOptions)
  (mods : list Modifier) : M (list loc) :=
  o <- transform_loop opts mods notes [] ;;
  renormalize_store o ;;;
  ret o.

(** The fields of the working copy after the three built-in steps. *)
Definition builtin_fields (opts : TransformOptions) (v : MidiNote)
  : result MidiNote :=
  rbind
    (if PyFloat.neqb (time_scale opts) PyFloat.one then
       rbind (scale_int (timeMSec v) (time_scale opts)) (λ t,
       rbind (scale_int (noteDuration v) (time_scale opts)) (λ d,
       Ok (set_noteDuration (set_timeMSec v t) d)))
     else Ok v) (λ v1,
  let v2 := if negb (time_shift_ms opts =? 0)
            then set_timeMSec v1 (timeMSec v1 + time_shift_ms opts)
            else v1 in
  Ok (if negb (min_duration_ms opts =? 0)
         && (noteDuration v2 <? min_duration_ms opts)
      then set_noteDuration v2 (min_duration_ms opts)
      else v2)).

(** The modifiers that act on the fields of the note they are given: the
    first two shapes. *)
Definition field_modifier (md : Modifier) : Prop :=
  match md with
  | in_place _ | rebuild _ => True
  | callable _ => False
  end.

(** What a field modifier does to the fields, and a list of them in
    order; a [callable] has no such function and counts for nothing
    here. *)
Definition modifier_fn (md : Modifier) : MidiNote → MidiNote :=
  match md with
  | in_place f => f
  | rebuild f => f
  | callable _ => λ v, v
  end.
Definition apply_modifiers (mods : list Modifier) (v : MidiNote) : MidiNote :=
  foldl (λ v md, modifier_fn md v) v mods.

(** [h'] extends [h] and agrees with it below [base]. *)
Definition keeps (base : nat) (h h' : store) : Prop :=
  (length h ≤ length h')%nat ∧ ∀ l, (l < base)%nat → h' !! l = h !! l.

(** A modifier is confined when, called on an object [m], it leaves every
    object older than [m] as it is and, if it returns, returns [m] or an
    object built after it: it assigns only to its argument and to notes it
    builds itself.  It may raise. *)
Definition confined (md : Modifier) : Prop :=
  ∀ m h, (m < length h)%nat →
    ∃ h' r, call_modifier md m h = (h', r) ∧ keeps m h h'
            ∧ ∀ m', r = Ok m' → (m ≤ m' < length h')%nat.

(** *** The modifiers of [main] *)

Definition NOTE_MIN : Z := 53.
Definition NOTE_MAX : Z := 79.

(** [_mod] of [make_transposer(semitones)], on the fields. *)
Definition make_transposer (semitones : Z) (n : MidiNote) : MidiNote :=
  set_midiNoteNumber n (Z.max 0 (Z.min 127 (midiNoteNumber n + semitones))).

Definition _clamp (n : MidiNote) : MidiNote :=
  set_midiNoteNumber n (Z.max NOTE_MIN (Z.min NOTE_MAX (midiNoteNumber n))).

(** The list [extra_mods] that [main] builds from [--transpose N] and
    [--clamp]. *)
Definition extra_mods (transpose : Z) (clamp : bool) : list Modifier :=
  (if negb (transpose =? 0) then [in_place (make_transposer transpose)]
   else [])
  ++ (if clamp then [in_place _clamp] else []).

(** ** Further definitions *)

(** *** The time mapper *)

(** A [note_on] with velocity 0 written as the [note_off] it stands for. *)
Definition as_note_off (m : Message) : Message :=
  match type m with
  | note_on n v => if v =? 0 then Msg (time m) (note_off n v) else m
  | _ => m
  end.

(** *** The interval pairer *)

(** The state string of an event, and an event moved in time. *)
Definition ev_state (e : Event) : string := e.2.
Definition ev_delay (c : Z) (e : Event) : Event := (e.1.1, e.1.2 + c, e.2).

(** *** The pipeline on the fields *)

(** The fields of the objects at the locations [ls]. *)
Definition values (h : store) (ls : list loc) : list MidiNote :=
  (λ l, h !!! l) <$> ls.

(** The built-in steps on the fields of every note in turn, up to the first
    exception. *)
Fixpoint builtin_all (opts : TransformOptions) (vs : list MidiNote)
  : result (list MidiNote) :=
  match vs with
  | [] => Ok []
  | v :: rest =>
      rbind (builtin_fields opts v) (λ w,
      rbind (builtin_all opts rest) (λ ws, Ok (w :: ws)))
  end.

(** The pipeline on the fields alone: built-in steps, modifiers, and the
    shift of the whole list. *)
Definition transform_values (opts : TransformOptions) (mods : list Modifier)
  (vs : list MidiNote) : result (list MidiNote) :=
  rbind (builtin_all opts vs) (λ ws,
  Ok (renormalize (apply_modifiers mods <$> ws))).

(** The pitch after the modifiers of [main]. *)
Definition pitch_after (transpose : Z) (clamp : bool) (p : Z) : Z :=
  let p1 := if transpose =? 0 then p else Z.max 0 (Z.min 127 (p + transpose)) in
  if clamp then Z.max NOTE_MIN (Z.min NOTE_MAX p1) else p1.

(** Adding [c] to the start of a note. *)
Definition delay (c : Z) (v : MidiNote) : MidiNote :=
  set_timeMSec v (timeMSec v + c).

(** [if opts.min_duration_ms and m.noteDuration < opts.min_duration_ms],
    on the fields. *)
Definition floor_duration (md : Z) (v : MidiNote) : MidiNote :=
  if negb (md =? 0) && (noteDuration v <? md) then set_noteDuration v md
  else v.

(** What [main] hands to the formatter, from the decoded file and the
    command-line values: [None] when [transcribe_midi] gives no event and
    [main] returns early, else the notes of the pipeline or its exception.
    The notes that [convert_to_midi_notes] returns are the objects of the
    store, at the locations 0, 1, ... in list order. *)
Definition main_notes (mid : MidiFile) (limit : option Z)
  (opts : TransformOptions) (transpose : Z) (clamp : bool)
  : option (result (list MidiNote)) :=
  match transcribe_midi mid with
  | [] => None
  | events =>
      let notes := convert_to_midi_notes events limit in
      let '(h, r) := apply_transforms (seq 0 (length notes)) opts
                       (extra_mods transpose clamp) notes in
      Some (rbind r (λ o, Ok (values h o)))
  end.

(** *** [filename_to_song_name] *)

(** A Python [str]: the sequence of its code points. *)
Definition str : Type := list N.
(** The code points of an ASCII literal. *)
Definition str_of (s : string) : str :=
  N_of_ascii <$> list_ascii_of_string s.

(** The class [A-Za-z0-9] of the pattern, and its complement. *)
Definition is_digit (c : N) : bool := ((48 <=? c) && (c <=? 57))%N.
Definition is_upper (c : N) : bool := ((65 <=? c) && (c <=? 90))%N.
Definition is_lower (c : N) : bool := ((97 <=? c) && (c <=? 122))%N.
Definition is_alnum (c : N) : bool := is_upper c || is_lower c || is_digit c.

(** [re.split(r'[^A-Za-z0-9]+', base)]: the pieces between the maximal runs
    of characters outside the class, the empty pieces at both ends and of
    the empty string included.  [cur] is the piece being read and [in_sep]
    tells that the previous character was in a run. *)
Fixpoint split_go (cur : str) (in_sep : bool) (s : str) : list str :=
  match s with
  | [] => [cur]
  | c :: s' =>
      if is_alnum c then split_go (cur ++ [c]) false s'
      else if in_sep then split_go [] true s'
      else cur :: split_go [] true s'
  end.
Definition re_split (base : str) : list str := split_go [] false base.

(** [str.upper] on a character of the class. *)
Definition upper (c : N) : N := if is_lower c then (c - 32)%N else c.

(** [w[:1].upper() + w[1:]]. *)
Definition capitalize (w : str) : str := (upper <$> take 1 w) ++ drop 1 w.

(** The last two lines of [filename_to_song_name], from [base]. *)
Definition song_name (base : str) : str :=
  let words := filter (λ w, w ≠ []) (re_split base) in
  match concat (capitalize <$> words) with
  | [] => str_of "Song"
  | name => name
  end.

(** [filename_to_song_name]; [path_stem p] stands for the library call
    [os.path.splitext(os.path.basename(p))[0]]. *)
Definition filename_to_song_name (path_stem : str → str) (path : str) : str :=
  song_name (path_stem path).

(** The shape of a song name. *)
Definition well_named (name : str) : Prop :=
  Forall (λ c, is_alnum c = true) name
  ∧ ∃ c rest, name = c :: rest ∧ is_lower c = false.

(** *** [duration_to_fraction] *)

(** The binary64 float of value [u / 32], for [|u| < 2 ^ 53]. *)
Definition dyadic (u : Z) : spec_float :=
  binary_normalize PyFloat.prec PyFloat.emax u (-5) false.

(** [z - x] for an int [z] and a float [x]: [z] is converted first. *)
Definition int_sub (z : Z) (x : spec_float) : result spec_float :=
  rbind (PyFloat.of_int z)
    (λ fz, Ok (SFsub PyFloat.prec PyFloat.emax fz x)).

(** The literal list [fractions]: 4.0, 2.0, 1.0, 0.5, 0.25, 0.125 and
    0.0625 with their names. *)
Definition fractions : list (spec_float * string) :=
  [ (S754_finite false 4503599627370496 (-50), "1st");
    (S754_finite false 4503599627370496 (-51), "1/2nd");
    (S754_finite false 4503599627370496 (-52), "1/4th");
    (S754_finite false 4503599627370496 (-53), "1/8th");
    (S754_finite false 4503599627370496 (-54), "1/16th");
    (S754_finite false 4503599627370496 (-55), "1/32nd");
    (S754_finite false 4503599627370496 (-56), "1/64th") ]%string.

(** The loop of [duration_to_fraction], with [best] and [mdiff] as
    arguments. *)
Fixpoint fraction_loop (duration_ms : Z) (quarter_note_ms : spec_float)
    (fr : list (spec_float * string)) (best : string) (mdiff : spec_float)
    : result string :=
  match fr with
  | [] => Ok best
  | (mult, name) :: rest =>
      rbind (int_sub duration_ms
               (SFmul PyFloat.prec PyFloat.emax quarter_note_ms mult))
        (λ x,
          let diff := SFabs x in
          if SFltb diff mdiff
          then fraction_loop duration_ms quarter_note_ms rest name diff
          else fraction_loop duration_ms quarter_note_ms rest best mdiff)
  end.

(** [quarter_note_ms = tempo / 1000] is the division of two ints; the
    only conversion that can raise in the loop is that of [duration_ms]
    in [duration_ms - quarter_note_ms * mult]. *)
Definition duration_to_fraction (duration_ms tempo : Z) : result string :=
  rbind (PyFloat.truediv tempo 1000) (λ quarter_note_ms,
    fraction_loop duration_ms quarter_note_ms fractions "1/16th"
      (S754_infinity false)).

(** *** [format_midi_notes_as_c_array] *)

(** [str(z)] on an int: its decimal numeral.  By default CPython refuses
    to convert an int of more than 4300 digits ([ValueError]); [py_str] is
    the conversion where it is made, and [str_digits_ok] tells that it
    is. *)
Definition py_str (z : Z) : str := str_of (pretty z).
Definition str_digits_ok (z : Z) : Prop :=
  (length (py_str (Z.abs z)) ≤ 4300)%nat.

(** [sep.join(lines)]. *)
Fixpoint py_join (sep : str) (lines : list str) : str :=
  match lines with
  | [] => []
  | x :: rest =>
      match rest with
      | [] => x
      | _ => x ++ sep ++ py_join sep rest
      end
  end.

(** The f-string of one note, without the comma. *)
Definition note_line (n : MidiNote) : str :=
  str_of "    {" ++ py_str (index n) ++ str_of ", "
  ++ py_str (midiNoteNumber n) ++ str_of ", "
  ++ py_str (timeMSec n) ++ str_of ", "
  ++ py_str (noteDuration n) ++ str_of "}".

(** The lines of the [enumerate] loop. *)
Definition note_lines (midi_notes : list MidiNote) : list str :=
  imap (λ i n,
          if Z.of_nat i <? Z.of_nat (length midi_notes) - 1
          then note_line n ++ str_of ","
          else note_line n)
    midi_notes.

(** The four lines before the notes; 34 is the double quote. *)
Definition header_lines : list str :=
  [ str_of "#include " ++ [34%N] ++ str_of "MidiSong.h" ++ [34%N];
    [];
    str_of "namespace songs {";
    str_of "  const MidiNote SONG[] = {" ].

(** The text is built line by line and joined with newlines (code point
    10); the closing line carries the fraction of the shortest duration,
    computed at the default tempo, when there is a note. *)
Definition format_midi_notes_as_c_array
    (midi_notes : list MidiNote) (song_name : str) : result str :=
  let lines :=
    header_lines ++ note_lines midi_notes
    ++ [ str_of "  };"; [];
         str_of "  REGISTER_SONG(" ++ song_name ++ str_of ", SONG)" ] in
  rbind
    match midi_notes with
    | [] => Ok (lines ++ [str_of "}"])
    | n :: ns =>
        let shortest := py_min (noteDuration n) (noteDuration <$> ns) in
        rbind (duration_to_fraction shortest 500000) (λ fraction,
          Ok (lines ++ [str_of "} // " ++ str_of fraction]))
    end
    (λ lines, Ok (py_join [10%N] lines)).

(** Every line followed by a newline. *)
Definition terminated (lines : list str) : str :=
  concat ((λ x, x ++ [10%N]) <$> lines).

(** The text of the note lines, every line with its newline. *)
Fixpoint notes_text (ns : list MidiNote) : str :=
  match ns with
  | [] => []
  | n :: rest =>
      note_line n ++ (match rest with [] => [] | _ => [44%N] end)
      ++ 10%N :: notes_text rest
  end.

(** A character of a decimal numeral. *)
Definition is_numeral_char (c : N) : Prop := c = 45%N ∨ (48 ≤ c ≤ 57)%N.

(** *** The text of [main] *)

(** The text [main] prints and writes, [out_txt]: [None] when [main]
    returns early, else the text of the formatter on the notes of the
    pipeline and the song name of the path, or the exception raised on the
    way. *)
Definition main_text (mid : MidiFile) (limit : option Z)
  (opts : TransformOptions) (transpose : Z) (clamp : bool)
  (path_stem : str → str) (path : str) : option (result str) :=
  match main_notes mid limit opts transpose clamp with
  | None => None
  | Some r =>
      Some (rbind r (λ notes,
        format_midi_notes_as_c_array notes
          (filename_to_song_name path_stem path)))
  end.

(** * Properties *)

(** ** The float operations on a few values *)

(** [1 / 3] is [0x1.5555555555555p-2]; [round] breaks ties to even, on
    both signs; [0 * inf] is a NaN, which [round] refuses. *)
Example truediv_third :
  PyFloat.truediv 1 3 = Ok (S754_finite false 6004799503160661 (-54)).
Proof. reflexivity. Qed.

Example scale_int_ties :
  scale_int 5 PyFloat.half = Ok 2 ∧ scale_int 7 PyFloat.half = Ok 4
  ∧ scale_int (-5) PyFloat.half = Ok (-2)
  ∧ scale_int (-7) PyFloat.half = Ok (-4).
Proof. repeat split; vm_compute; reflexivity. Qed.

Example scale_int_raises :
  scale_int 0 (S754_infinity false) = Err ValueError
  ∧ scale_int 1 (S754_infinity false) = Err OverflowError
  ∧ scale_int (2 ^ 1024) PyFloat.half = Err OverflowError.
Proof. repeat split; vm_compute; reflexivity. Qed.

(** ** Binary64 division below [2 ^ 53] *)

Section Binary64.
Import PyFloat.

Lemma digits2_pos_size p : digits2_pos p = Pos.size p.
Proof. induction p; simpl; congruence. Qed.

(** The number of binary digits brackets the number. *)
Lemma Zdigits2_bounds p :
  2 ^ (Zdigits2 (Z.pos p) - 1) ≤ Z.pos p < 2 ^ Zdigits2 (Z.pos p).
Proof.
  simpl. rewrite digits2_pos_size.
  pose proof (Pos.size_gt p) as Hgt. pose proof (Pos.size_le p) as Hle.
  apply Pos2Z.pos_lt_pos in Hgt. apply Pos2Z.pos_le_pos in Hle.
  rewrite Pos2Z.inj_pow in Hgt, Hle. change (Z.pos p~0) with (2 * Z.pos p) in Hle.
  split; [|exact Hgt].
  replace (Z.pos (Pos.size p)) with (Z.succ (Z.pos (Pos.size p) - 1)) in Hle by lia.
  rewrite Z.pow_succ_r in Hle by lia. lia.
Qed.

Lemma Zdigits2_unique m d :
  2 ^ (d - 1) ≤ m < 2 ^ d → 0 < d → Zdigits2 m = d.
Proof.
  intros [Hlo Hhi] Hd.
  assert (0 < m) by (pose proof (Z.pow_pos_nonneg 2 (d - 1)); lia).
  destruct m as [|p|p]; try lia.
  pose proof (Zdigits2_bounds p) as [Hlo' Hhi'].
  set (d' := Zdigits2 (Z.pos p)) in *.
  assert (0 < d') by (subst d'; simpl; lia).
  assert (d - 1 < d') by (apply (Z.pow_lt_mono_r_iff 2); lia).
  assert (d' - 1 < d) by (apply (Z.pow_lt_mono_r_iff 2); lia).
  lia.
Qed.

Lemma shr_1_pos m r s :
  0 < m →
  shr_1 (Build_shr_record m r s) = Build_shr_record (m / 2) (Z.odd m) (r || s).
Proof.
  intros Hm. destruct m as [|p|p]; try lia.
  destruct p as [p|p|]; simpl shr_1.
  - f_equal. rewrite Pos2Z.inj_xI.
    apply (Z.div_unique _ _ _ 1); lia.
  - f_equal. rewrite Pos2Z.inj_xO.
    apply (Z.div_unique _ _ _ 0); lia.
  - reflexivity.
Qed.

Lemma shr_m_of_loc m l : shr_m (shr_record_of_loc m l) = m.
Proof. by destruct l as [|[]]. Qed.

Lemma loc_of_shr_record_of_loc m l :
  loc_of_shr_record (shr_record_of_loc m l) = l.
Proof. by destruct l as [|[]]. Qed.

(** A mantissa of 53 digits is kept, one of 54 digits is halved. *)
Lemma shr_fexp_keep m e l :
  2 ^ 52 ≤ m < 2 ^ 53 → -1074 ≤ e →
  shr_fexp prec emax m e l = (shr_record_of_loc m l, e).
Proof.
  intros Hm He. unfold shr_fexp.
  rewrite (Zdigits2_unique m 53) by lia.
  unfold fexp, emin, prec, emax.
  replace (Z.max (53 + e - 53) (3 - 1024 - 53) - e) with 0 by lia.
  reflexivity.
Qed.

Lemma shr_fexp_halve m e l :
  2 ^ 53 ≤ m < 2 ^ 54 → -1075 ≤ e →
  shr_fexp prec emax m e l = (shr_1 (shr_record_of_loc m l), e + 1).
Proof.
  intros Hm He. unfold shr_fexp.
  rewrite (Zdigits2_unique m 54) by lia.
  unfold fexp, emin, prec, emax.
  replace (Z.max (54 + e - 53) (3 - 1024 - 53) - e) with 1 by lia.
  reflexivity.
Qed.

(** The second half of [binary_round_aux]: a rounded mantissa that reached
    [2 ^ 53] is halved once more. *)
Lemma round_finish M E :
  2 ^ 52 ≤ M ≤ 2 ^ 53 → -1074 ≤ E ≤ 970 →
  represents
    (let '(mrs, e) := shr_fexp prec emax M E loc_Exact in
     match shr_m mrs with
     | Z0 => S754_zero false
     | Zpos m =>
         if e <=? emax - prec then S754_finite false m e
         else S754_infinity false
     | Zneg _ => S754_nan
     end) M E.
Proof.
  intros HM HE.
  destruct (decide (M = 2 ^ 53)) as [->|Hne].
  - rewrite shr_fexp_halve by lia. simpl shr_record_of_loc.
    rewrite shr_1_pos by lia. simpl shr_m.
    change (2 ^ 53 / 2) with (Z.pos 4503599627370496).
    replace (E + 1 <=? emax - prec) with true
      by (symmetry; apply Z.leb_le; unfold emax, prec; lia).
    exists 4503599627370496%positive, 1. split; [done|]. split; [lia|done].
  - rewrite shr_fexp_keep by lia. simpl shr_record_of_loc. simpl shr_m.
    destruct M as [|m|m]; try lia.
    replace (E <=? emax - prec) with true
      by (symmetry; apply Z.leb_le; unfold emax, prec; lia).
    exists m, 0. rewrite Z.add_0_r. split; [done|]. split; [lia|]. lia.
Qed.

Lemma round_nearest_even_cases m l :
  round_nearest_even m l = m ∨
  round_nearest_even m l = m + 1 ∧ (l = loc_Inexact Eq ∨ l = loc_Inexact Gt).
Proof.
  destruct l as [|[]]; simpl; auto.
  destruct (Z.even m); auto.
Qed.

Lemma binary_round_aux_53 q e l :
  2 ^ 52 ≤ q < 2 ^ 53 → -1074 ≤ e ≤ 900 →
  ∃ M, represents (binary_round_aux prec emax false q e l) M e
       ∧ (M = q ∨ M = q + 1).
Proof.
  intros Hq He. unfold binary_round_aux.
  rewrite shr_fexp_keep by lia.
  rewrite shr_m_of_loc, loc_of_shr_record_of_loc.
  exists (round_nearest_even q l). split.
  - apply round_finish; [|lia].
    destruct (round_nearest_even_cases q l) as [->|[-> _]]; lia.
  - destruct (round_nearest_even_cases q l) as [->|[-> _]]; auto.
Qed.

Lemma binary_round_aux_54 q e l :
  2 ^ 53 ≤ q < 2 ^ 54 → -1075 ≤ e ≤ 900 →
  ∃ M, represents (binary_round_aux prec emax false q e l) M (e + 1)
       ∧ (M = q / 2 ∨ M = q / 2 + 1 ∧ Z.odd q = true).
Proof.
  intros Hq He. unfold binary_round_aux.
  rewrite shr_fexp_halve by lia.
  assert (Hsh : ∃ s, shr_1 (shr_record_of_loc q l)
                     = Build_shr_record (q / 2) (Z.odd q) s).
  { destruct l as [|[]]; simpl shr_record_of_loc;
      rewrite shr_1_pos by lia; eauto. }
  destruct Hsh as [s ->]. simpl shr_m.
  assert (Hh : 2 ^ 52 ≤ q / 2 < 2 ^ 53).
  { split; [apply Z.div_le_lower_bound | apply Z.div_lt_upper_bound]; lia. }
  set (l' := loc_of_shr_record _).
  exists (round_nearest_even (q / 2) l'). split.
  - apply round_finish; [|lia].
    destruct (round_nearest_even_cases (q / 2) l') as [->|[-> _]]; lia.
  - destruct (round_nearest_even_cases (q / 2) l') as [->|[-> Hl]]; auto.
    right. split; [done|]. subst l'.
    destruct (Z.odd q); [done|]. destruct s, Hl; discriminate.
Qed.

(** Truncating a float of value [M * 2 ^ E] with [E <= 0]. *)
Lemma to_int_represents f M E :
  represents f M E → E ≤ 0 → to_int f = Ok (M / 2 ^ (- E)).
Proof.
  intros (m & j & -> & Hj & <-) HE. unfold to_int, signed. f_equal.
  destruct (Z.leb_spec 0 (E + j)).
  - replace (2 ^ j) with (2 ^ (E + j) * 2 ^ (- E))
      by (rewrite <- Z.pow_add_r by lia; f_equal; lia).
    rewrite Z.mul_assoc, Z.div_mul; [done|]. apply Z.pow_nonzero; lia.
  - replace (2 ^ (- E)) with (2 ^ j * 2 ^ (- (E + j)))
      by (rewrite <- Z.pow_add_r by lia; f_equal; lia).
    rewrite (Z.mul_comm (Z.pos m)).
    rewrite Z.div_mul_cancel_l; try (apply Z.pow_nonzero; lia). done.
Qed.

(** The scaled quotient that [SFdiv] rounds, for two exact integers below
    [2 ^ 53]. *)
Lemma SFdiv_core_exact a b :
  0 < a < 2 ^ 53 → 0 < b < 2 ^ 53 →
  let s := 53 - Zdigits2 a + Zdigits2 b in
  ∃ l, SFdiv_core_binary prec emax a 0 b 0 = (a * 2 ^ s / b, - s, l).
Proof.
  intros Ha Hb s.
  destruct a as [|pa|pa], b as [|pb|pb]; try lia.
  pose proof (Zdigits2_bounds pa) as Ba. pose proof (Zdigits2_bounds pb) as Bb.
  assert (0 < Zdigits2 (Z.pos pa) ≤ 53) as Da.
  { split; [simpl; lia|].
    assert (Zdigits2 (Z.pos pa) - 1 < 53); [|lia].
    apply (Z.pow_lt_mono_r_iff 2); lia. }
  assert (0 < Zdigits2 (Z.pos pb) ≤ 53) as Db.
  { split; [simpl; lia|].
    assert (Zdigits2 (Z.pos pb) - 1 < 53); [|lia].
    apply (Z.pow_lt_mono_r_iff 2); lia. }
  unfold SFdiv_core_binary.
  fold s.
  replace (Z.min (fexp prec emax (Zdigits2 (Z.pos pa) + 0 - (Zdigits2 (Z.pos pb) + 0))) (0 - 0))
    with (- s) by (unfold fexp, emin, prec, emax; lia).
  replace (0 - 0 - - s) with s by lia.
  assert (0 < s) as Hs by lia.
  destruct s as [|ps|ps] eqn:Es; try lia.
  rewrite Z.shiftl_mul_pow2 by lia.
  unfold Z.div.
  destruct (Z.div_eucl (Z.pos pa * 2 ^ Z.pos ps) (Z.pos pb)) as [q r].
  eexists. reflexivity.
Qed.

(** No carry into the integer part: when [a * 2 ^ s = q * b + r] with
    [b < 2 ^ s], rounding [q] up by one unit does not reach the next
    multiple of [2 ^ s]. *)
Lemma succ_div_pow2 a b s :
  0 < b < 2 ^ s → 0 ≤ s → 0 ≤ a →
  (a * 2 ^ s / b + 1) / 2 ^ s = a / b.
Proof.
  intros Hb Hs Ha.
  set (P := 2 ^ s) in *. assert (0 < P) by (apply Z.pow_pos_nonneg; lia).
  pose proof (Z.div_mod (a * P) b ltac:(lia)) as Hqr.
  pose proof (Z.mod_pos_bound (a * P) b ltac:(lia)) as Hr.
  set (q := a * P / b) in *. set (r := (a * P) mod b) in *.
  pose proof (Z.div_mod a b ltac:(lia)) as Hk.
  pose proof (Z.mod_pos_bound a b ltac:(lia)) as Hkr.
  set (k := a / b) in *. set (t := a mod b) in *.
  symmetry. apply (Z.div_unique _ _ _ (q + 1 - P * k)); [|lia].
  left. split.
  - nia.
  - assert (q * b < (k + 1) * P * b - b + 1 → q + 1 - P * k < P)
      as Hcarry by nia.
    apply Hcarry. nia.
Qed.

Lemma div_pow2_pred x s : 0 < s → 0 ≤ x → x / 2 / 2 ^ (s - 1) = x / 2 ^ s.
Proof.
  intros Hs Hx. rewrite Z.div_div by (try apply Z.pow_pos_nonneg; lia).
  rewrite <- Z.pow_succ_r by lia. do 2 f_equal. lia.
Qed.

(** Below [2 ^ 53] the float quotient, truncated, is the integer
    quotient. *)
Lemma truediv_to_int a b :
  0 ≤ a < 2 ^ 53 → 0 < b < 2 ^ 53 →
  rbind (truediv a b) to_int = Ok (a / b).
Proof.
  intros Ha Hb. unfold truediv.
  replace (b =? 0) with false by (symmetry; apply Z.eqb_neq; lia).
  destruct (decide (a = 0)) as [->|Hne].
  { destruct b; try lia. reflexivity. }
  destruct (SFdiv_core_exact a b) as [l Hcore]; [lia|lia|].
  pose proof Hcore as Hcore'.
  destruct a as [|pa|pa], b as [|pb|pb]; try lia.
  pose proof (Zdigits2_bounds pa) as Ba. pose proof (Zdigits2_bounds pb) as Bb.
  set (D1 := Zdigits2 (Z.pos pa)) in *. set (D2 := Zdigits2 (Z.pos pb)) in *.
  assert (0 < D1 ≤ 53) as Da.
  { split; [subst D1; simpl; lia|].
    assert (D1 - 1 < 53); [|lia]. apply (Z.pow_lt_mono_r_iff 2); lia. }
  assert (0 < D2 ≤ 53) as Db.
  { split; [subst D2; simpl; lia|].
    assert (D2 - 1 < 53); [|lia]. apply (Z.pow_lt_mono_r_iff 2); lia. }
  set (s := 53 - D1 + D2) in *.
  set (q := Z.pos pa * 2 ^ s / Z.pos pb) in *.
  assert (Hbs : Z.pos pb < 2 ^ s).
  { eapply Z.lt_le_trans; [apply Bb|]. apply Z.pow_le_mono_r; lia. }
  assert (Hq : 2 ^ 52 ≤ q < 2 ^ 54).
  { subst q. split.
    - apply Z.div_le_lower_bound; [lia|].
      assert (2 ^ (52 + D2) ≤ Z.pos pa * 2 ^ s).
      { replace (52 + D2) with (D1 - 1 + s) by lia.
        rewrite Z.pow_add_r by lia.
        apply Z.mul_le_mono_nonneg_r; [apply Z.pow_nonneg|]; lia. }
      rewrite Z.pow_add_r in * by lia. nia.
    - apply Z.div_lt_upper_bound; [lia|].
      assert (Z.pos pa * 2 ^ s < 2 ^ (54 + (D2 - 1))).
      { replace (54 + (D2 - 1)) with (D1 + s) by lia.
        rewrite Z.pow_add_r by lia.
        apply Z.mul_lt_mono_pos_r; [apply Z.pow_pos_nonneg|]; lia. }
      rewrite Z.pow_add_r in * by lia. nia. }
  assert (Hfloor : q / 2 ^ s = Z.pos pa / Z.pos pb).
  { subst q. rewrite Z.div_div by (try apply Z.pow_pos_nonneg; lia).
    apply Z.div_mul_cancel_r; [lia|]. apply Z.pow_nonzero; lia. }
  assert (Hsucc : (q + 1) / 2 ^ s = Z.pos pa / Z.pos pb).
  { apply succ_div_pow2; lia. }
  simpl exact. unfold SFdiv. rewrite Hcore. simpl xorb.
  destruct (Z_lt_le_dec q (2 ^ 53)) as [Hlt|Hge].
  - destruct (binary_round_aux_53 q (- s) l) as (M & Hrep & HM); [lia|lia|].
    pose proof (to_int_represents _ _ _ Hrep ltac:(lia)) as Hint.
    destruct Hrep as (m & j & Heq & _). rewrite Heq in Hint |- *.
    unfold rbind. rewrite Hint, Z.opp_involutive. f_equal.
    destruct HM as [->| ->]; done.
  - destruct (binary_round_aux_54 q (- s) l) as (M & Hrep & HM); [lia|lia|].
    pose proof (to_int_represents _ _ _ Hrep ltac:(lia)) as Hint.
    destruct Hrep as (m & j & Heq & _). rewrite Heq in Hint |- *.
    unfold rbind. rewrite Hint. replace (- (- s + 1)) with (s - 1) by lia. f_equal.
    destruct HM as [->|[-> Hodd]].
    + rewrite div_pow2_pred by lia. done.
    + replace (q / 2 + 1) with ((q + 1) / 2).
      * rewrite div_pow2_pred by lia. done.
      * rewrite (Zodd_div2 q) at 1 by (by apply Zodd_bool_iff).
        rewrite Z.div2_div.
        replace (2 * (q / 2) + 1 + 1) with ((q / 2 + 1) * 2) by lia.
        apply Z.div_mul. lia.
Qed.
End Binary64.

(** ** The time mapper *)

Section Mapper.
Variable tpb : Z.

Lemma rbind_ok {A} (r : result A) : rbind r Ok = r.
Proof. by destruct r. Qed.

(** The loop over a concatenation: the second part starts from the state
    the first part leaves. *)
Lemma track_loop_app pre l c t :
  track_loop tpb (pre ++ l) c t =
  rbind (track_loop tpb pre c t) (λ e1,
  rbind (track_loop tpb l (c + ticks pre) (tempo_after t pre)) (λ e2,
  Ok (e1 ++ e2))).
Proof.
  revert c t. induction pre as [|m pre IH]; intros c t; simpl.
  - rewrite Z.add_0_r. unfold tempo_after. simpl. by rewrite rbind_ok.
  - destruct (time_ms (c + time m) t tpb) as [tm|e]; [simpl|done].
    rewrite IH.
    replace (c + time m + ticks pre) with (c + (time m + ticks pre)) by lia.
    change (tempo_after (next_tempo t m) pre) with (tempo_after t (m :: pre)).
    destruct (track_loop tpb pre (c + time m) (next_tempo t m)) as [e1|e];
      [simpl|done].
    destruct (track_loop tpb l _ _) as [e2|e]; [simpl|done].
    by rewrite app_assoc.
Qed.

Lemma tempo_after_unchanged t l :
  Forall (λ m, ∀ t', type m ≠ set_tempo t') l → tempo_after t l = t.
Proof.
  induction 1 as [|m l Hm _ IH]; [done|].
  change (tempo_after t (m :: l)) with (tempo_after (next_tempo t m) l).
  replace (next_tempo t m) with t; [done|].
  unfold next_tempo. destruct (type m); try done. by destruct (Hm tempo).
Qed.

Lemma track_loop_cons m rest c t :
  track_loop tpb (m :: rest) c t =
  rbind (time_ms (c + time m) t tpb) (λ t_m,
  rbind (track_loop tpb rest (c + time m) (next_tempo t m)) (λ e2,
  Ok (emit m t_m ++ e2))).
Proof. reflexivity. Qed.

Lemma time_ms_floor cum tempo :
  0 ≤ cum * tempo < 2 ^ 53 → 0 < tpb * 1000 < 2 ^ 53 →
  time_ms cum tempo tpb = Ok (cum * tempo / (tpb * 1000)).
Proof. intros. by apply truediv_to_int. Qed.
End Mapper.

(** C1, as the code has it: a [set_tempo] message changes the tempo used for
    the messages after it.  The events emitted before it stay as they were,
    and the message itself is still converted at the old tempo; but every
    later timestamp converts the whole cumulative tick count, the ticks
    elapsed before the change included, at the new tempo. *)
Theorem C1_new_tempo_converts_all_ticks tpb pre dt T mid m post c t0 :
  Forall no_tempo_change mid →
  track_loop tpb (pre ++ Msg dt (set_tempo T) :: mid ++ m :: post) c t0 =
  rbind (track_loop tpb pre c t0) (λ e0,
  rbind (time_ms (c + ticks pre + dt) (tempo_after t0 pre) tpb) (λ _,
  rbind (track_loop tpb mid (c + ticks pre + dt) T) (λ e1,
  rbind (time_ms (c + ticks pre + dt + ticks mid + time m) T tpb) (λ t_m,
  rbind (track_loop tpb post (c + ticks pre + dt + ticks mid + time m)
           (next_tempo T m)) (λ e2,
  Ok (e0 ++ e1 ++ emit m t_m ++ e2)))))).
Proof.
  intros Hmid. rewrite track_loop_app.
  destruct (track_loop tpb pre c t0) as [e0|e]; [cbn [rbind]|done].
  rewrite track_loop_cons. cbn [time type next_tempo].
  destruct (time_ms (c + ticks pre + dt) (tempo_after t0 pre) tpb) as [tc|e];
    [cbn [rbind]|done].
  rewrite track_loop_app, track_loop_cons.
  rewrite (tempo_after_unchanged T mid) by exact Hmid.
  destruct (track_loop tpb mid (c + ticks pre + dt) T) as [e1|e];
    [cbn [rbind]|done].
  destruct (time_ms _ T tpb) as [t_m|e]; [cbn [rbind]|done].
  destruct (track_loop tpb post _ _) as [e2|e]; [cbn [rbind]|done].
  done.
Qed.

Lemma C1_new_tempo_converts_all_ticks_witness :
  track_loop 480
    ([Msg 480 (note_on 60 64)] ++ Msg 0 (set_tempo 1000000)
       :: [Msg 240 (note_on 62 64)] ++ Msg 240 (note_off 60 0) :: []) 0
    default_tempo
  = Ok [(60, 500, "ON"%string); (62, 1500, "ON"%string);
        (60, 2000, "OFF"%string)].
Proof.
  rewrite (C1_new_tempo_converts_all_ticks 480 [Msg 480 (note_on 60 64)] 0
             1000000 [Msg 240 (note_on 62 64)] (Msg 240 (note_off 60 0)) []
             0 default_tempo).
  - reflexivity.
  - repeat constructor. intros t. simpl. discriminate.
Defined.

(** C1 as stated fails: after 480 ticks at 500000 us per beat, a change to
    1000000 and 480 more ticks, the code stamps the event at 2000 ms, all 960
    ticks at the new tempo, where the claim gives 500 + 1000 = 1500 ms. *)
Lemma C1_counterexample :
  let track := [Msg 480 (note_on 60 64); Msg 0 (set_tempo 1000000);
                Msg 480 (note_off 60 0)] in
  track_loop 480 track 0 default_tempo
  = Ok [(60, 500, "ON"%string); (60, 2000, "OFF"%string)]
  ∧ piecewise_track_loop 480 track 0 default_tempo
    = [(60, 500, "ON"%string); (60, 1500, "OFF"%string)]
  ∧ track_loop 480 track 0 default_tempo
    ≠ Ok (piecewise_track_loop 480 track 0 default_tempo).
Proof. repeat split; [reflexivity..|discriminate]. Qed.

(** C3, as the code has it: the quotient is computed in binary64 and then
    truncated, which is [floor (cumulativeTicks * currentTempo /
    (ticksPerQuarter * 1000))] as long as the product and the divisor are
    below [2 ^ 53]; so an event at 480 ticks, at tempo 500000 and 480 ticks
    per quarter note, is at exactly 500 ms. *)
Theorem C3_time_is_floor_below_2_53 tpb pre m post c t0 :
  let cum := c + ticks pre + time m in
  let tempo := tempo_after t0 pre in
  0 ≤ cum * tempo < 2 ^ 53 → 0 < tpb * 1000 < 2 ^ 53 →
  time_ms cum tempo tpb = Ok (cum * tempo / (tpb * 1000))
  ∧ track_loop tpb (pre ++ m :: post) c t0 =
    rbind (track_loop tpb pre c t0) (λ e1,
    rbind (track_loop tpb post cum (next_tempo tempo m)) (λ e2,
    Ok (e1 ++ emit m (cum * tempo / (tpb * 1000)) ++ e2)))
  ∧ time_ms 480 500000 480 = Ok 500.
Proof.
  intros cum tempo Hnum Hden.
  pose proof (time_ms_floor tpb cum tempo Hnum Hden) as Hms.
  split; [exact Hms|]. split; [|reflexivity].
  rewrite track_loop_app, track_loop_cons. fold cum tempo. rewrite Hms.
  destruct (track_loop tpb pre c t0) as [e1|e]; [cbn [rbind]|done].
  by destruct (track_loop tpb post cum (next_tempo tempo m)).
Qed.

Lemma C3_time_is_floor_below_2_53_witness :
  track_loop 480 ([Msg 240 other_msg] ++ Msg 240 (note_on 60 64) :: []) 0
    default_tempo
  = Ok [(60, 500, "ON"%string)].
Proof.
  destruct (C3_time_is_floor_below_2_53 480 [Msg 240 other_msg]
              (Msg 240 (note_on 60 64)) [] 0 default_tempo)
    as (_ & -> & _); [vm_compute; split; (discriminate || reflexivity)..|].
  reflexivity.
Defined.

(** C3 as stated fails for large tick counts, where the binary64 quotient
    is not the exact one.  With 500 ticks per quarter note and the default
    tempo the quotient is the tick count itself, and [2 ^ 53 + 1] ticks are
    stamped [2 ^ 53] ms, the nearest binary64 number.  With deltas that fit
    the four bytes of a standard file: at tempo 16777215 and one tick per
    quarter note, 4194304293 ticks give the quotient 70368744899083.995,
    which lies between the neighbouring binary64 numbers
    70368744899083.984375 and 70368744899084 and is rounded to the second,
    one more than the truncated integer quotient. *)
Lemma C3_counterexample :
  (transcribe_midi
     {| ticks_per_beat := 500;
        tracks := [[Msg 9007199254740993 (note_on 60 64)]] |}
   = [(60, 9007199254740992, "ON"%string)]
   ∧ 9007199254740993 * default_tempo / (500 * 1000) = 9007199254740993)
  ∧ (let track := Msg 0 (set_tempo 16777215)
                  :: replicate 15 (Msg 268435455 other_msg)
                  ++ [Msg 167772468 (note_on 60 64)] in
     ticks track = 4194304293
     ∧ transcribe_midi {| ticks_per_beat := 1; tracks := [track] |}
       = [(60, 70368744899084, "ON"%string)]
     ∧ 4194304293 * 16777215 / (1 * 1000) = 70368744899083).
Proof. repeat split; vm_compute; reflexivity. Qed.

(** The sort puts the events in time order and keeps them all. *)
Lemma insert_event_sorted e l :
  time_sorted l → time_sorted (insert_event e l).
Proof.
  unfold time_sorted. induction 1 as [|x l Hl IH Hhd]; simpl.
  - repeat constructor.
  - destruct (Z.leb_spec (ev_time e) (ev_time x)).
    + constructor; [by constructor|]. by constructor.
    + constructor; [done|]. destruct Hhd as [|y l' Hxy]; simpl.
      * constructor. unfold le_time. lia.
      * destruct (Z.leb_spec (ev_time e) (ev_time y)); constructor; try done.
        unfold le_time. lia.
Qed.

Lemma sort_events_sorted l : time_sorted (sort_events l).
Proof.
  induction l as [|e l IH]; [constructor|]. by apply insert_event_sorted.
Qed.

Lemma insert_event_perm e l : insert_event e l ≡ₚ e :: l.
Proof.
  induction l as [|x l IH]; simpl; [done|].
  destruct (ev_time e <=? ev_time x); [done|]. rewrite IH. apply Permutation_swap.
Qed.

Lemma sort_events_perm l : sort_events l ≡ₚ l.
Proof.
  induction l as [|e l IH]; [done|]. simpl.
  by rewrite insert_event_perm, IH.
Qed.

(** What [transcribe_midi] hands to the pairer is sorted by timestamp. *)
Lemma transcribe_midi_sorted mid : time_sorted (transcribe_midi mid).
Proof.
  unfold transcribe_midi. destruct (tracks_loop _ _); [|constructor].
  apply sort_events_sorted.
Qed.

(** ** The interval pairer *)

Section Minimum.

Lemma py_min_le x xs : py_min x xs ≤ x ∧ Forall (λ y, py_min x xs ≤ y) xs.
Proof.
  unfold py_min. revert x. induction xs as [|y xs IH]; intros x; simpl.
  - split; [lia|constructor].
  - destruct (IH (Z.min x y)) as [H1 H2]. split; [lia|].
    constructor; [lia|done].
Qed.

Lemma py_min_is_min x xs : is_min (py_min x xs) (x :: xs).
Proof.
  split.
  - unfold py_min. revert x. induction xs as [|y xs IH]; intros x; simpl.
    + apply list_elem_of_here.
    + specialize (IH (Z.min x y)).
      apply elem_of_cons in IH as [IH|IH].
      * rewrite IH. destruct (Z.min_spec x y) as [[_ ->]|[_ ->]].
        -- apply list_elem_of_here.
        -- apply list_elem_of_further, list_elem_of_here.
      * by do 2 apply list_elem_of_further.
  - destruct (py_min_le x xs). by constructor.
Qed.

Lemma py_min_shift c x xs :
  py_min (x - c) ((λ y, y - c) <$> xs) = py_min x xs - c.
Proof.
  unfold py_min. revert x. induction xs as [|y xs IH]; intros x; simpl; [done|].
  rewrite <- IH. f_equal. lia.
Qed.

Lemma renormalize_cons n ns :
  renormalize (n :: ns) =
  let t0 := py_min (timeMSec n) (timeMSec <$> ns) in
  set_timeMSec n (timeMSec n - t0)
  :: ((λ n, set_timeMSec n (timeMSec n - t0)) <$> ns).
Proof. reflexivity. Qed.

Lemma timeMSec_shifted t0 (ns : list MidiNote) :
  timeMSec <$> ((λ n, set_timeMSec n (timeMSec n - t0)) <$> ns)
  = (λ y, y - t0) <$> (timeMSec <$> ns).
Proof. induction ns as [|n ns IH]; [done|]. rewrite !fmap_cons. by f_equal. Qed.

(** After the shift the earliest start is 0. *)
Lemma renormalize_min o n ns :
  renormalize o = n :: ns → py_min (timeMSec n) (timeMSec <$> ns) = 0.
Proof.
  destruct o as [|n0 ns0]; [done|]. rewrite renormalize_cons.
  intros [= <- <-]. cbn [timeMSec set_timeMSec].
  rewrite timeMSec_shifted, py_min_shift. lia.
Qed.

Lemma renormalize_length o : length (renormalize o) = length o.
Proof. destruct o; [done|]. unfold renormalize. by rewrite length_fmap. Qed.

Lemma renormalize_index o : index <$> renormalize o = index <$> o.
Proof.
  destruct o as [|n ns]; [done|]. rewrite renormalize_cons. cbv zeta.
  generalize (py_min (timeMSec n) (timeMSec <$> ns)). intros t0.
  rewrite !fmap_cons. f_equal.
  induction ns as [|n' ns IH]; [done|]. rewrite !fmap_cons. by f_equal.
Qed.

Lemma renormalize_Forall o :
  Forall (λ n, 0 ≤ noteDuration n) o →
  Forall (λ n, 0 ≤ noteDuration n ∧ 0 ≤ timeMSec n) (renormalize o).
Proof.
  intros Hd. destruct o as [|n ns]; [constructor|].
  rewrite renormalize_cons. cbv zeta.
  destruct (py_min_le (timeMSec n) (timeMSec <$> ns)) as [H1 H2].
  set (t0 := py_min _ _) in *.
  apply Forall_cons_1 in Hd as [Hn Hns]. constructor.
  - simpl. lia.
  - clearbody t0. apply Forall_forall. intros v' Hv'.
    apply list_elem_of_fmap_1 in Hv' as (v & -> & Hv).
    rewrite Forall_forall in Hns. rewrite Forall_forall in H2.
    specialize (Hns v Hv).
    specialize (H2 (timeMSec v) (list_elem_of_fmap_2 _ _ _ Hv)).
    simpl. lia.
Qed.
End Minimum.

Section Pairer.
Variable limit : option Z.

Lemma pair_step_off_unmatched st n t :
  active st !! n = None →
  pair_step limit st (n, t, "OFF"%string) = (st, false).
Proof. intros H. unfold pair_step. simpl. by rewrite H. Qed.

(** The four ways an iteration can go. *)
Lemma pair_step_cases st n t s :
  (s = "ON"%string ∧
   pair_step limit st (n, t, s)
   = (mkPair (out st) (<[n := t]> (active st)) (idx st), false))
  ∨ (s = "OFF"%string ∧ ∃ start, active st !! n = Some start ∧
     pair_step limit st (n, t, s)
     = (mkPair (out st ++ [mkNote (idx st) n start (t - start)])
          (delete n (active st)) (idx st + 1),
        limit_reached limit (out st ++ [mkNote (idx st) n start (t - start)])))
  ∨ pair_step limit st (n, t, s) = (st, false).
Proof.
  unfold pair_step.
  destruct (String.eqb_spec s "ON") as [->|_]; [by left|].
  destruct (String.eqb_spec s "OFF") as [->|_]; [|by right; right].
  destruct (active st !! n) as [start|] eqn:Hact; [|by right; right].
  right; left. split; [done|]. by exists start.
Qed.

Lemma pair_loop_cons st ev rest :
  pair_loop limit (ev :: rest) st =
  if (pair_step limit st ev).2 then (pair_step limit st ev).1
  else pair_loop limit rest (pair_step limit st ev).1.
Proof. simpl. by destruct (pair_step limit st ev) as [st' []]. Qed.

(** An unmatched NoteOff anywhere in the input can be left out. *)
Lemma pair_loop_drop_unmatched pre n t post st :
  active (pair_loop limit pre st) !! n = None →
  pair_loop limit (pre ++ (n, t, "OFF"%string) :: post) st
  = pair_loop limit (pre ++ post) st.
Proof.
  revert st. induction pre as [|e pre IH]; intros st Hact.
  - simpl in Hact. rewrite !app_nil_l, pair_loop_cons.
    by rewrite pair_step_off_unmatched.
  - rewrite <- !app_comm_cons, !pair_loop_cons.
    rewrite pair_loop_cons in Hact.
    destruct (pair_step limit st e) as [st' []]; simpl in *; [done|].
    by apply IH.
Qed.

(** What the loop maintains on a sorted input: durations are not
    negative, [idx] counts the notes emitted and is the index given to the
    next one, and no active start is later than an event still to come. *)
Lemma pair_loop_sorted events st :
  StronglySorted le_time events →
  Forall (λ n, 0 ≤ noteDuration n) (out st) →
  index <$> out st = Z.of_nat <$> seq 0 (length (out st)) →
  idx st = Z.of_nat (length (out st)) →
  (∀ k s, active st !! k = Some s → Forall (λ e, s ≤ ev_time e) events) →
  Forall (λ n, 0 ≤ noteDuration n) (out (pair_loop limit events st))
  ∧ index <$> out (pair_loop limit events st)
    = Z.of_nat <$> seq 0 (length (out (pair_loop limit events st))).
Proof.
  intros Hsorted. revert st.
  induction Hsorted as [|[[n t] s] events Hsorted IH Hhd];
    intros st Hdur Hindex Hidx Hact; [done|].
  rewrite pair_loop_cons.
  assert (Htail : ∀ k s0, active st !! k = Some s0 →
                          Forall (λ e, s0 ≤ ev_time e) events).
  { intros k s0 Hk. by eapply Forall_cons_1, Hact. }
  destruct (pair_step_cases st n t s) as [[_ ->]|[(_ & start & Hstart & ->)| ->]];
    cbn [fst snd].
  - apply IH; cbn [out active idx]; try done.
    intros k s0 Hk. destruct (decide (k = n)) as [->|Hne].
    + rewrite lookup_insert_eq in Hk. injection Hk as <-. exact Hhd.
    + rewrite lookup_insert_ne in Hk by done. by eapply Htail.
  - assert (start ≤ t) as Hle.
    { specialize (Hact n start Hstart). by apply Forall_cons_1 in Hact as [? _]. }
    set (o' := out st ++ [mkNote (idx st) n start (t - start)]).
    assert (Forall (λ n0, 0 ≤ noteDuration n0) o') as Hdur'.
    { apply Forall_app. split; [done|]. constructor; [simpl; lia|constructor]. }
    assert (index <$> o' = Z.of_nat <$> seq 0 (length o')) as Hindex'.
    { subst o'. rewrite fmap_app, length_app, Hindex. simpl length.
      rewrite Nat.add_1_r, seq_S, fmap_app. simpl. by rewrite Hidx. }
    destruct (limit_reached limit o'); cbn [out]; [done|].
    apply IH; cbn [out active idx]; try done.
    + subst o'. rewrite length_app. simpl. lia.
    + intros k s0 Hk. apply lookup_delete_Some in Hk as [_ Hk].
      by eapply Htail.
  - by apply IH.
Qed.
End Pairer.

(** C4: a NoteOn sets the one start time kept for its pitch, overwriting an
    earlier one, and emits nothing.  For NoteOn(60,@0), NoteOn(60,@100),
    NoteOff(60,@200) the loop emits the single interval with start 100 and
    duration 100, which the final shift moves to start 0; after the two
    NoteOn events nothing has been emitted. *)
Theorem C4_last_start_wins :
  (∀ limit st n t,
     pair_step limit st (n, t, "ON"%string)
     = (mkPair (out st) (<[n := t]> (active st)) (idx st), false))
  ∧ (∀ limit st n t t',
       active (pair_step limit
                 (pair_step limit st (n, t, "ON"%string)).1
                 (n, t', "ON"%string)).1 !! n = Some t')
  ∧ (let events := [(60, 0, "ON"%string); (60, 100, "ON"%string);
                    (60, 200, "OFF"%string)] in
     out (pair_loop None (take 2 events) pair_init) = []
     ∧ out (pair_loop None events pair_init) = [mkNote 0 60 100 100]
     ∧ convert_to_midi_notes events None = [mkNote 0 60 0 100]).
Proof.
  split; [done|]. split.
  - intros limit st n t t'. cbn. apply lookup_insert_eq.
  - repeat split; vm_compute; reflexivity.
Qed.

(** C8: a NoteOff whose pitch has no active start leaves the loop state as
    it is: no interval, no change of [active] or [idx], no [break].  The
    events after it are processed as if it were not there, so leaving it out
    of the input gives the same notes. *)
Theorem C8_unmatched_note_off_is_dropped limit n t :
  (∀ st, active st !! n = None →
         pair_step limit st (n, t, "OFF"%string) = (st, false))
  ∧ (∀ st rest, active st !! n = None →
       pair_loop limit ((n, t, "OFF"%string) :: rest) st
       = pair_loop limit rest st)
  ∧ (∀ pre post, active (pair_loop limit pre pair_init) !! n = None →
       convert_to_midi_notes (pre ++ (n, t, "OFF"%string) :: post) limit
       = convert_to_midi_notes (pre ++ post) limit).
Proof.
  split; [|split].
  - intros st. apply pair_step_off_unmatched.
  - intros st rest Hact.
    by rewrite pair_loop_cons, pair_step_off_unmatched.
  - intros pre post Hact. unfold convert_to_midi_notes.
    by rewrite pair_loop_drop_unmatched.
Qed.

Lemma C8_unmatched_note_off_is_dropped_witness :
  convert_to_midi_notes
    ([(60, 0, "ON"%string); (60, 100, "OFF"%string)]
     ++ (60, 150, "OFF"%string)
     :: [(62, 200, "ON"%string); (62, 300, "OFF"%string)]) None
  = convert_to_midi_notes
      ([(60, 0, "ON"%string); (60, 100, "OFF"%string)]
       ++ [(62, 200, "ON"%string); (62, 300, "OFF"%string)]) None.
Proof.
  apply (C8_unmatched_note_off_is_dropped None 60 150).
  vm_compute. reflexivity.
Defined.

(** Without the order a duration can be negative. *)
Example unsorted_events_negative_duration :
  convert_to_midi_notes [(60, 100, "ON"%string); (60, 50, "OFF"%string)] None
  = [mkNote 0 60 0 (-50)].
Proof. vm_compute. reflexivity. Qed.

Lemma time_sorted_strongly events :
  time_sorted events → StronglySorted le_time events.
Proof.
  apply Sorted_StronglySorted. intros a b c. unfold le_time. lia.
Qed.

(** C10: on an input sorted by timestamp, every note has a duration and a
    start that are not negative, and the indices are 0, 1, ..., n - 1 in
    list order. *)
Theorem C10_sorted_events_give_well_formed_notes events limit :
  time_sorted events →
  Forall (λ n, 0 ≤ noteDuration n ∧ 0 ≤ timeMSec n)
    (convert_to_midi_notes events limit)
  ∧ index <$> convert_to_midi_notes events limit
    = Z.of_nat <$> seq 0 (length (convert_to_midi_notes events limit)).
Proof.
  intros Hsorted. apply time_sorted_strongly in Hsorted.
  destruct (pair_loop_sorted limit events pair_init Hsorted) as [Hdur Hindex];
    try done.
  unfold convert_to_midi_notes. split.
  - by apply renormalize_Forall.
  - by rewrite renormalize_index, renormalize_length.
Qed.

Lemma C10_sorted_events_give_well_formed_notes_witness :
  Forall (λ n, 0 ≤ noteDuration n ∧ 0 ≤ timeMSec n)
    (convert_to_midi_notes
       [(60, 10, "ON"%string); (62, 10, "ON"%string);
        (60, 30, "OFF"%string); (62, 50, "OFF"%string)] None)
  ∧ index <$> convert_to_midi_notes
       [(60, 10, "ON"%string); (62, 10, "ON"%string);
        (60, 30, "OFF"%string); (62, 50, "OFF"%string)] None
    = Z.of_nat <$> seq 0 (length (convert_to_midi_notes
       [(60, 10, "ON"%string); (62, 10, "ON"%string);
        (60, 30, "OFF"%string); (62, 50, "OFF"%string)] None)).
Proof.
  apply (C10_sorted_events_give_well_formed_notes
           [(60, 10, "ON"%string); (62, 10, "ON"%string);
            (60, 30, "OFF"%string); (62, 50, "OFF"%string)] None).
  unfold time_sorted, le_time, ev_time.
  repeat constructor; simpl; lia.
Defined.

(** ** The transform pipeline *)

Section Store.
Implicit Types (h : store) (v : MidiNote) (m l : loc).

Lemma load_last h v : load (length h) (h ++ [v]) = (h ++ [v], Ok v).
Proof.
  unfold load. f_equal. f_equal.
  apply list_lookup_total_correct. by rewrite list_lookup_middle.
Qed.

Lemma assign_last h v v' :
  assign (length h) v' (h ++ [v]) = (h ++ [v'], Ok tt).
Proof.
  unfold assign. f_equal.
  rewrite insert_app_r_alt by lia. by rewrite Nat.sub_diag.
Qed.

Ltac run_store :=
  repeat first
    [ rewrite load_last | rewrite assign_last
    | progress cbv beta iota delta [bind ret lift rbind] ].

(** The built-in steps act on the fresh working copy alone. *)
Lemma builtin_steps_last opts h v :
  ∃ v', builtin_steps opts (length h) (h ++ [v])
        = (h ++ [v'], rbind (builtin_fields opts v) (λ _, Ok tt))
        ∧ ∀ v1, builtin_fields opts v = Ok v1 → v' = v1.
Proof.
  unfold builtin_steps, builtin_fields.
  destruct (PyFloat.neqb (time_scale opts) PyFloat.one).
  - run_store.
    destruct (scale_int (timeMSec v) (time_scale opts)) as [t|e]; run_store.
    2:{ exists v. split; [done|]. intros ? [=]. }
    cbn [noteDuration set_timeMSec].
    destruct (scale_int (noteDuration v) (time_scale opts)) as [d|e]; run_store.
    2:{ eexists. split; [done|]. intros ? [=]. }
    destruct (negb (time_shift_ms opts =? 0)); run_store;
      destruct (_ && _); run_store;
      (eexists; split; [done|]; by intros ? [= <-]).
  - run_store.
    destruct (negb (time_shift_ms opts =? 0)); run_store;
      destruct (_ && _); run_store;
      (eexists; split; [done|]; by intros ? [= <-]).
Qed.

Lemma keeps_refl base h : keeps base h h.
Proof. by split. Qed.

Lemma keeps_trans base base' h1 h2 h3 :
  (base ≤ base')%nat → keeps base h1 h2 → keeps base' h2 h3 →
  keeps base h1 h3.
Proof.
  intros Hb [L1 K1] [L2 K2]. split; [lia|].
  intros l Hl. rewrite K2 by lia. by apply K1.
Qed.

(** A field modifier returns its argument or a new object, and touches
    nothing below the working copy. *)
Lemma call_modifier_spec md m h base :
  field_modifier md →
  (base ≤ m < length h)%nat →
  ∃ h' m', call_modifier md m h = (h', Ok m')
           ∧ (base ≤ m' < length h')%nat ∧ keeps base h h'
           ∧ h' !!! m' = modifier_fn md (h !!! m).
Proof.
  intros Hmd Hm.
  destruct md as [f|f|g]; [| |done];
    cbv [call_modifier bind load assign alloc ret].
  - eexists _, _. split; [done|]. rewrite length_insert. split; [lia|].
    split.
    + split; [by rewrite length_insert|].
      intros l Hl. apply list_lookup_insert_ne. lia.
    + apply list_lookup_total_insert_eq. lia.
  - eexists _, _. split; [done|]. rewrite length_app. simpl. split; [lia|].
    split.
    + split; [rewrite length_app; lia|].
      intros l Hl. apply lookup_app_l. lia.
    + apply list_lookup_total_correct. by rewrite list_lookup_middle.
Qed.

Lemma call_modifiers_spec mods m h base :
  Forall field_modifier mods →
  (base ≤ m < length h)%nat →
  ∃ h' m', call_modifiers mods m h = (h', Ok m')
           ∧ (base ≤ m' < length h')%nat ∧ keeps base h h'
           ∧ h' !!! m' = apply_modifiers mods (h !!! m).
Proof.
  intros Hmods. revert m h.
  induction Hmods as [|md mods Hmd _ IH]; intros m h Hm.
  - exists h, m. repeat split; try done; lia.
  - destruct (call_modifier_spec md m h base Hmd Hm)
      as (h1 & m1 & E1 & Hm1 & K1 & V1).
    destruct (IH m1 h1 Hm1) as (h2 & m2 & E2 & Hm2 & K2 & V2).
    exists h2, m2. split.
    { cbn [call_modifiers]. unfold bind. by rewrite E1. }
    split; [done|]. split; [by eapply keeps_trans|].
    rewrite V2, V1. done.
Qed.

(** One iteration: the input object is read, and everything below the end
    of the store stays as it was; the object returned is new. *)
Lemma transform_note_spec opts mods n h :
  Forall field_modifier mods →
  ∃ h' r, transform_note opts mods n h = (h', r)
        ∧ keeps (length h) h h' ∧ (length h < length h')%nat
        ∧ match builtin_fields opts (h !!! n) with
          | Ok v' => ∃ m, r = Ok m ∧ (length h ≤ m < length h')%nat
                          ∧ h' !!! m = apply_modifiers mods v'
          | Err e => r = Err e
          end.
Proof.
  intros Hmods.
  unfold transform_note. cbv beta iota delta [bind load alloc].
  destruct (builtin_steps_last opts h (h !!! n)) as (v' & Hb & Hv').
  rewrite Hb.
  destruct (builtin_fields opts (h !!! n)) as [v1|e]; cbn [rbind];
    cbv beta iota.
  - specialize (Hv' v1 eq_refl) as ->.
    destruct (call_modifiers_spec mods (length h) (h ++ [v1]) (length h)
                Hmods)
      as (h' & m' & E & Hm' & [L K] & V).
    { rewrite length_app. simpl. lia. }
    rewrite E. exists h', (Ok m'). rewrite length_app in L. simpl in L.
    split; [done|]. split; [|split; [lia|]].
    + split; [lia|]. intros l Hl. rewrite K by done. by apply lookup_app_l.
    + exists m'. split; [done|]. split; [done|]. rewrite V. f_equal.
      apply list_lookup_total_correct. by rewrite list_lookup_middle.
  - eexists _, _. split; [done|]. rewrite length_app. simpl.
    split; [|split; [lia|done]].
    split; [rewrite length_app; lia|]. intros l Hl. by apply lookup_app_l.
Qed.

(** The field modifiers are confined. *)
Lemma field_modifier_confined md : field_modifier md → confined md.
Proof.
  intros Hmd m h Hm.
  destruct (call_modifier_spec md m h m Hmd) as (h' & m' & E & Hm' & K & _);
    [lia|].
  exists h', (Ok m'). split; [done|]. split; [done|]. by intros ? [= <-].
Qed.

(** A chain of confined modifiers is confined. *)
Lemma call_modifiers_confined mods m h :
  Forall confined mods → (m < length h)%nat →
  ∃ h' r, call_modifiers mods m h = (h', r) ∧ keeps m h h'
          ∧ ∀ m', r = Ok m' → (m ≤ m' < length h')%nat.
Proof.
  intros Hmods. revert m h.
  induction Hmods as [|md mods Hmd _ IH]; intros m h Hm.
  - exists h, (Ok m). split; [done|]. split; [apply keeps_refl|].
    intros ? [= <-]. lia.
  - destruct (Hmd m h Hm) as (h1 & r1 & E1 & K1 & R1).
    cbn [call_modifiers]. unfold bind. rewrite E1.
    destruct r1 as [m1|e].
    + destruct (R1 m1 eq_refl) as [Hle Hlt].
      destruct (IH m1 h1 Hlt) as (h2 & r2 & E2 & K2 & R2).
      exists h2, r2. split; [done|].
      split; [by eapply keeps_trans|].
      intros m' Hr. destruct (R2 m' Hr). lia.
    + exists h1, (Err e). split; [done|]. split; [done|]. intros ? [=].
Qed.

(** One iteration with confined modifiers: everything below the end of the
    store stays as it was, and the object returned, if any, is new. *)
Lemma transform_note_frame opts mods n h :
  Forall confined mods →
  ∃ h' r, transform_note opts mods n h = (h', r)
        ∧ keeps (length h) h h' ∧ (length h < length h')%nat
        ∧ ∀ m, r = Ok m → (length h ≤ m < length h')%nat.
Proof.
  intros Hmods.
  unfold transform_note. cbv beta iota delta [bind load alloc].
  destruct (builtin_steps_last opts h (h !!! n)) as (v' & Hb & _).
  rewrite Hb.
  assert (Hk0 : keeps (length h) h (h ++ [v'])).
  { split; [rewrite length_app; lia|]. intros l Hl. by apply lookup_app_l. }
  destruct (builtin_fields opts (h !!! n)) as [v1|e]; cbn [rbind];
    cbv beta iota.
  - destruct (call_modifiers_confined mods (length h) (h ++ [v']) Hmods)
      as (h' & r & E & K & R).
    { rewrite length_app. simpl. lia. }
    rewrite E. exists h', r. split; [done|].
    pose proof K as [L _]. rewrite length_app in L. simpl in L.
    split; [by eapply keeps_trans|]. split; [lia|done].
  - exists (h ++ [v']), (Err e). split; [done|]. split; [done|].
    rewrite length_app. simpl. split; [lia|]. intros ? [=].
Qed.

(** The loop: the objects appended to [out] are new, distinct, and one per
    input note. *)
Lemma transform_loop_spec opts mods notes o h :
  Forall confined mods →
  ∃ h' r, transform_loop opts mods notes o h = (h', r)
        ∧ keeps (length h) h h'
        ∧ ∀ o', r = Ok o' →
            ∃ new, o' = o ++ new ∧ length new = length notes
                   ∧ Forall (λ m, (length h ≤ m < length h')%nat) new
                   ∧ NoDup new.
Proof.
  intros Hmods. revert o h. induction notes as [|n notes IH]; intros o h.
  - exists h, (Ok o). split; [done|]. split; [apply keeps_refl|].
    intros o' [= <-]. exists []. rewrite app_nil_r.
    repeat split; constructor.
  - destruct (transform_note_frame opts mods n h Hmods)
      as (h1 & r1 & E1 & K1 & L1 & R1).
    cbn [transform_loop]. unfold bind. rewrite E1.
    destruct r1 as [m|e].
    + destruct (R1 m eq_refl) as [Hm1 Hm2].
      destruct (IH (o ++ [m]) h1) as (h2 & r2 & E2 & K2 & R2).
      exists h2, r2. split; [done|].
      split; [eapply keeps_trans; [|done..]; lia|].
      intros o' Ho'. destruct (R2 o' Ho') as (new & -> & Hlen & Hnew & Hnd).
      exists (m :: new). rewrite <- app_assoc. split; [done|].
      split; [simpl; lia|]. destruct K2 as [L2 _]. split.
      * constructor; [lia|]. eapply Forall_impl; [exact Hnew|].
        simpl. lia.
      * constructor; [|done]. intros Hin.
        rewrite Forall_forall in Hnew. specialize (Hnew m Hin). lia.
    + exists h1, (Err e). split; [done|]. split; [done|].
      intros o' [=].
Qed.

(** The in-place shift writes the objects of [es] and nothing else. *)
Lemma shift_all_frame t0 es h :
  ∃ h', shift_all t0 es h = (h', Ok tt) ∧ length h' = length h
        ∧ ∀ l, l ∉ es → h' !! l = h !! l.
Proof.
  revert h. induction es as [|e es IH]; intros h.
  - exists h. by repeat split.
  - cbn [shift_all]. cbv beta iota delta [bind load assign].
    destruct (IH (<[e:=set_timeMSec (h !!! e) (timeMSec (h !!! e) - t0)]> h))
      as (h' & E & L & K).
    exists h'. split; [done|]. rewrite length_insert in L. split; [done|].
    intros l Hl. apply not_elem_of_cons in Hl as [Hne Hl].
    rewrite K by done. by apply list_lookup_insert_ne.
Qed.

Lemma shift_all_values t0 es h :
  NoDup es → Forall (λ e, (e < length h)%nat) es →
  ∀ e, e ∈ es →
    fst (shift_all t0 es h) !!! e
    = set_timeMSec (h !!! e) (timeMSec (h !!! e) - t0).
Proof.
  revert h. induction es as [|e0 es IH]; intros h Hnd Hval e He.
  { by apply elem_of_nil in He. }
  apply NoDup_cons in Hnd as [Hnotin Hnd].
  apply Forall_cons_1 in Hval as [Hv0 Hval].
  cbn [shift_all]. cbv beta iota delta [bind load assign].
  set (h1 := <[e0:=set_timeMSec (h !!! e0) (timeMSec (h !!! e0) - t0)]> h).
  apply elem_of_cons in He as [->|He].
  - destruct (shift_all_frame t0 es h1) as (h' & E & L & K).
    rewrite E. cbn [fst].
    apply list_lookup_total_correct. rewrite K by done.
    subst h1. by apply list_lookup_insert_eq.
  - rewrite IH; try done.
    + assert (e ≠ e0) by (intros ->; done).
      subst h1. by rewrite list_lookup_total_insert_ne.
    + subst h1. eapply Forall_impl; [exact Hval|].
      intros x. by rewrite length_insert.
Qed.

Lemma renormalize_store_nil h : renormalize_store [] h = (h, Ok tt).
Proof. reflexivity. Qed.

Lemma renormalize_store_cons e es h :
  renormalize_store (e :: es) h
  = shift_all (py_min (timeMSec (h !!! e)) ((λ x, timeMSec (h !!! x)) <$> es))
      (e :: es) h.
Proof. reflexivity. Qed.

(** The whole pipeline, with confined modifiers. *)
Lemma apply_transforms_spec notes opts mods h :
  Forall confined mods →
  ∃ h' r, apply_transforms notes opts mods h = (h', r)
        ∧ keeps (length h) h h'
        ∧ ∀ o, r = Ok o →
            length o = length notes
            ∧ Forall (λ m, (length h ≤ m < length h')%nat) o
            ∧ ∀ e es, o = e :: es →
                py_min (timeMSec (h' !!! e))
                  ((λ x, timeMSec (h' !!! x)) <$> es) = 0.
Proof.
  intros Hmods. unfold apply_transforms.
  destruct (transform_loop_spec opts mods notes [] h Hmods)
    as (h1 & r1 & E1 & K1 & R1).
  unfold bind at 1. rewrite E1. destruct r1 as [o|e].
  2:{ exists h1, (Err e). split; [done|]. split; [done|]. intros ? [=]. }
  destruct (R1 o eq_refl) as (new & Ho & Hlen & Hnew & Hnd).
  rewrite app_nil_l in Ho. subst new.
  destruct o as [|e es].
  { unfold bind, ret. rewrite renormalize_store_nil.
    exists h1, (Ok []). split; [done|]. split; [done|].
    intros ? [= <-]. split; [done|]. split; [constructor|]. intros ? ? [=]. }
  unfold bind, ret. rewrite renormalize_store_cons.
  set (t0 := py_min _ _).
  destruct (shift_all_frame t0 (e :: es) h1) as (h2 & E2 & L2 & K2).
  pose proof (shift_all_values t0 (e :: es) h1 Hnd) as V.
  rewrite E2 in V |- *. cbn [fst] in V.
  assert (Hval : Forall (λ x, (x < length h1)%nat) (e :: es)).
  { eapply Forall_impl; [exact Hnew|]. simpl. lia. }
  specialize (V Hval).
  exists h2, (Ok (e :: es)). split; [done|]. split.
  { destruct K1 as [L1 K1]. split; [lia|]. intros l Hl.
    rewrite K2; [by apply K1|]. intros Hin.
    rewrite Forall_forall in Hnew. specialize (Hnew l Hin). lia. }
  intros ? [= <-]. split; [done|]. split.
  { by rewrite L2. }
  intros e' es' [= <- <-].
  rewrite (V e) by apply list_elem_of_here. cbn [timeMSec set_timeMSec].
  replace ((λ x, timeMSec (h2 !!! x)) <$> es)
    with ((λ y, y - t0) <$> ((λ x, timeMSec (h1 !!! x)) <$> es)).
  - rewrite py_min_shift. subst t0. lia.
  - rewrite <- list_fmap_compose. apply list_fmap_ext.
    intros i x Hx. simpl.
    rewrite (V x); [done|]. apply list_elem_of_further.
    by eapply list_elem_of_lookup_2.
Qed.

Lemma Forall_field_confined mods :
  Forall field_modifier mods → Forall confined mods.
Proof.
  intros H. eapply Forall_impl; [exact H|]. apply field_modifier_confined.
Qed.

(** The modifiers of [main] are field modifiers. *)
Lemma extra_mods_field s c : Forall field_modifier (extra_mods s c).
Proof.
  unfold extra_mods. destruct (negb (s =? 0)), c; repeat constructor.
Qed.
End Store.

(** C2 as stated fails: with [time_scale = -1.0] the interval is processed,
    its duration scaled to -50, and the output is not empty. *)
Lemma C2_counterexample :
  SFleb PyFloat.minus_one PyFloat.zero = true
  ∧ apply_transforms [0%nat] (mkOpts 0 PyFloat.minus_one 0) []
      [mkNote 0 60 100 50]
    = ([mkNote 0 60 100 50; mkNote 0 60 0 (-50)], Ok [1%nat]).
Proof. split; vm_compute; reflexivity. Qed.

(** C5: an interval with start 1000 and duration 200, scaled by 0.5 and
    shifted by 50 with no duration floor, leaves the built-in steps with
    start 550 and duration 100, before the final shift of the whole list:
    the start is scaled and rounded first, then the shift is added
    unscaled.  This is the working copy the modifiers receive, and with no
    modifier the object the loop body appends. *)
Theorem C5_scale_then_shift h n i p :
  h !! n = Some (mkNote i p 1000 200) →
  (∀ mods,
     transform_note (mkOpts 50 PyFloat.half 0) mods n h
     = call_modifiers mods (length h) (h ++ [mkNote i p 550 100]))
  ∧ transform_note (mkOpts 50 PyFloat.half 0) [] n h
    = (h ++ [mkNote i p 550 100], Ok (length h)).
Proof.
  intros Hn.
  assert (Hmods : ∀ mods,
    transform_note (mkOpts 50 PyFloat.half 0) mods n h
    = call_modifiers mods (length h) (h ++ [mkNote i p 550 100])).
  { intros mods. unfold transform_note.
    cbv beta iota delta [bind load alloc].
    rewrite (list_lookup_total_correct _ _ _ Hn).
    destruct (builtin_steps_last (mkOpts 50 PyFloat.half 0) h
                (mkNote i p 1000 200)) as (v' & -> & Hv').
    rewrite (Hv' (mkNote i p 550 100)) by (vm_compute; reflexivity).
    replace (builtin_fields _ _) with (Ok (mkNote i p 550 100))
      by (vm_compute; reflexivity).
    reflexivity. }
  split; [exact Hmods|]. by rewrite Hmods.
Qed.

Lemma C5_scale_then_shift_witness :
  transform_note (mkOpts 50 PyFloat.half 0) [] 0%nat [mkNote 7 60 1000 200]
  = ([mkNote 7 60 1000 200; mkNote 7 60 550 100], Ok 1%nat).
Proof.
  apply (C5_scale_then_shift [mkNote 7 60 1000 200] 0%nat 7 60).
  reflexivity.
Defined.

(** C6: the transposer adds the semitones and clamps to [0,127]; the range
    clamp clamps to [53,79]; [main] puts the transposer before the clamp, so
    a working copy gets the clamp of its transposed pitch; and the two do
    not commute: pitch 78 transposed by 5 and then clamped is 79, clamped
    and then transposed is 83. *)
Theorem C6_transpose_before_clamp :
  (∀ s n, midiNoteNumber (make_transposer s n)
          = Z.max 0 (Z.min 127 (midiNoteNumber n + s))
          ∧ 0 ≤ midiNoteNumber (make_transposer s n) ≤ 127)
  ∧ (∀ n, midiNoteNumber (_clamp n)
          = Z.max 53 (Z.min 79 (midiNoteNumber n))
          ∧ 53 ≤ midiNoteNumber (_clamp n) ≤ 79)
  ∧ (∀ s, s ≠ 0 →
       extra_mods s true = [in_place (make_transposer s); in_place _clamp])
  ∧ (∀ s h m, s ≠ 0 → (m < length h)%nat →
       call_modifiers (extra_mods s true) m h
       = (<[m := _clamp (make_transposer s (h !!! m))]> h, Ok m))
  ∧ midiNoteNumber (_clamp (make_transposer 5 (mkNote 0 78 0 0))) = 79
  ∧ midiNoteNumber (make_transposer 5 (_clamp (mkNote 0 78 0 0))) = 83
  ∧ (∃ s n, _clamp (make_transposer s n) ≠ make_transposer s (_clamp n)).
Proof.
  assert (Hmods : ∀ s, s ≠ 0 →
    extra_mods s true = [in_place (make_transposer s); in_place _clamp]).
  { intros s Hs. unfold extra_mods.
    by replace (s =? 0) with false by (symmetry; by apply Z.eqb_neq). }
  split; [|split; [|split; [|split; [|split; [|split]]]]].
  - intros s n. simpl. lia.
  - intros n. unfold NOTE_MIN, NOTE_MAX. simpl. unfold NOTE_MIN, NOTE_MAX. lia.
  - exact Hmods.
  - intros s h m Hs Hm. rewrite Hmods by done.
    cbv [call_modifiers call_modifier bind load assign ret].
    rewrite list_lookup_total_insert_eq by done.
    by rewrite list_insert_insert_eq.
  - reflexivity.
  - reflexivity.
  - by exists 5, (mkNote 0 78 0 0).
Qed.

Lemma C6_transpose_before_clamp_witness :
  call_modifiers (extra_mods 5 true) 0%nat [mkNote 0 78 0 0]
  = ([mkNote 0 79 0 0], Ok 0%nat).
Proof.
  destruct C6_transpose_before_clamp as (_ & _ & _ & H & _).
  rewrite (H 5 [mkNote 0 78 0 0] 0%nat); [reflexivity|lia|simpl; lia].
Defined.




(** C9, as the code has it: whatever the options, with confined
    modifiers, as those of [main] are, and whether the call returns or
    raises, every object that existed before the call, the input notes
    among them, has the fields it had; the notes returned are new
    objects. *)
Theorem C9_input_is_not_mutated notes opts mods h :
  Forall confined mods →
  ∃ h' r, apply_transforms notes opts mods h = (h', r)
        ∧ (∀ l v, h !! l = Some v → h' !! l = Some v)
        ∧ (∀ o, r = Ok o → Forall (λ m, (length h ≤ m < length h')%nat) o).
Proof.
  intros Hmods.
  destruct (apply_transforms_spec notes opts mods h Hmods)
    as (h' & r & E & [L K] & R).
  exists h', r. split; [done|]. split.
  - intros l v Hl. rewrite K; [done|]. by eapply lookup_lt_Some.
  - intros o Ho. by destruct (R o Ho) as (_ & ? & _).
Qed.

Lemma C9_input_is_not_mutated_witness :
  ∃ h' r,
    apply_transforms [0%nat; 0%nat] (mkOpts 10 PyFloat.half 40)
      (extra_mods 5 true) [mkNote 0 78 100 50] = (h', r)
    ∧ h' !! 0%nat = Some (mkNote 0 78 100 50)
    ∧ r = Ok [1%nat; 2%nat].
Proof.
  destruct (C9_input_is_not_mutated [0%nat; 0%nat]
              (mkOpts 10 PyFloat.half 40) (extra_mods 5 true)
              [mkNote 0 78 100 50]) as (h' & r & E & Hkeep & _).
  - apply Forall_field_confined, extra_mods_field.
  - exists h', r. split; [exact E|]. split.
    + apply Hkeep. reflexivity.
    + vm_compute in E. by injection E as _ <-.
Defined.

(** C9 as stated fails: a modifier may return an object that exists
    already.  With [lambda m: notes[1]] the output is the second input note
    twice, and the final shift writes to it: its start goes from 300 to
    -300, and no returned object is new. *)
Lemma C9_counterexample :
  apply_transforms [0%nat; 1%nat] (mkOpts 0 PyFloat.one 0)
    [callable (λ _, ret 1%nat)]
    [mkNote 0 60 100 50; mkNote 1 62 300 50]
  = ([mkNote 0 60 100 50; mkNote 1 62 (-300) 50;
      mkNote 0 60 100 50; mkNote 1 62 300 50], Ok [1%nat; 1%nat])
  ∧ [mkNote 0 60 100 50; mkNote 1 62 (-300) 50;
     mkNote 0 60 100 50; mkNote 1 62 300 50] !! 1%nat
    ≠ [mkNote 0 60 100 50; mkNote 1 62 300 50] !! 1%nat.
Proof. split; [vm_compute; reflexivity|discriminate]. Qed.

(** * Further properties *)

(** ** The time mapper *)

Section MapperFacts.

Lemma insert_event_filter t e l :
  filter (λ x, ev_time x = t) (insert_event e l)
  = filter (λ x, ev_time x = t) (e :: l).
Proof.
  induction l as [|x l IH]; [done|]. cbn [insert_event].
  destruct (Z.leb_spec (ev_time e) (ev_time x)) as [Hle|Hlt]; [done|].
  rewrite (filter_cons _ x), IH, !(filter_cons _ e), (filter_cons _ x).
  repeat case_decide; try done; lia.
Qed.

(** The sort is stable: events with the same timestamp keep their order. *)
Lemma sort_events_stable t l :
  filter (λ x, ev_time x = t) (sort_events l) = filter (λ x, ev_time x = t) l.
Proof.
  induction l as [|e l IH]; [done|]. cbn [sort_events foldr].
  fold (sort_events l). rewrite insert_event_filter, !(filter_cons _ e), IH.
  done.
Qed.

Lemma sort_events_sorted_id l : time_sorted l → sort_events l = l.
Proof.
  unfold time_sorted. induction 1 as [|x l Hl IH Hhd]; [done|].
  cbn [sort_events foldr]. fold (sort_events l). rewrite IH.
  destruct Hhd as [|y l' Hxy]; [done|]. cbn [insert_event].
  unfold le_time in Hxy. by destruct (Z.leb_spec (ev_time x) (ev_time y)); [|lia].
Qed.

Lemma time_ms_zero_division cum tempo : time_ms cum tempo 0 = Err ZeroDivisionError.
Proof. reflexivity. Qed.

Lemma track_loop_zero_tpb tr c tempo evs :
  track_loop 0 tr c tempo = Ok evs → evs = [].
Proof.
  destruct tr as [|m tr]; [by intros [= <-]|].
  cbn [track_loop]. by rewrite time_ms_zero_division.
Qed.

Lemma tracks_loop_zero_tpb trs evs : tracks_loop 0 trs = Ok evs → evs = [].
Proof.
  revert evs. induction trs as [|tr trs IH]; intros evs; [by intros [= <-]|].
  cbn [tracks_loop].
  destruct (track_loop 0 tr 0 default_tempo) as [e1|] eqn:E1; [|done].
  apply track_loop_zero_tpb in E1 as ->. cbn [rbind].
  destruct (tracks_loop 0 trs) as [e2|]; [|done]. cbn [rbind].
  intros [= <-]. by apply IH.
Qed.

Lemma as_note_off_emit m t : emit (as_note_off m) t = emit m t.
Proof.
  unfold as_note_off, emit. destruct m as [d [t0 | n v | n v |]]; cbn; try done.
  destruct (Z.eqb_spec v 0) as [->|Hv]; cbn; [done|].
  apply Z.eqb_neq in Hv. by rewrite Hv.
Qed.

Lemma as_note_off_state m tempo :
  time (as_note_off m) = time m
  ∧ next_tempo tempo (as_note_off m) = next_tempo tempo m.
Proof.
  unfold as_note_off, next_tempo. destruct m as [d [t0 | n v | n v |]]; cbn; try done.
  by destruct (v =? 0).
Qed.

Lemma track_loop_as_note_off tpb tr c tempo :
  track_loop tpb (as_note_off <$> tr) c tempo = track_loop tpb tr c tempo.
Proof.
  revert c tempo. induction tr as [|m tr IH]; intros c tempo; [done|].
  rewrite fmap_cons. cbn [track_loop].
  destruct (as_note_off_state m tempo) as [-> ->].
  destruct (time_ms (c + time m) tempo tpb) as [t|]; [|done]. cbn [rbind].
  by rewrite IH, as_note_off_emit.
Qed.

Lemma tracks_loop_as_note_off tpb (trs : list (list Message)) :
  tracks_loop tpb ((λ tr : list Message, as_note_off <$> tr) <$> trs)
  = tracks_loop tpb trs.
Proof.
  induction trs as [|tr trs IH]; [done|].
  rewrite fmap_cons. cbn [tracks_loop].
  by rewrite track_loop_as_note_off, IH.
Qed.

Lemma ticks_nonneg tr : Forall (λ m, 0 ≤ time m) tr → 0 ≤ ticks tr.
Proof. unfold ticks. induction 1; simpl; lia. Qed.

Lemma emit_times m t : Forall (λ e, ev_time e = t) (emit m t).
Proof.
  unfold emit. destruct (type m) as [t0 | n v | n v |]; try by repeat constructor.
  destruct (0 <? v); [by repeat constructor|].
  destruct (v =? 0); by repeat constructor.
Qed.

Lemma time_sorted_app_bound t l1 l2 :
  Forall (λ e, ev_time e = t) l1 → time_sorted l2 →
  Forall (λ e, t ≤ ev_time e) l2 → time_sorted (l1 ++ l2).
Proof.
  unfold time_sorted. intros H1 H2 Hb.
  induction H1 as [|x l1 Hx H1 IH]; [done|]. simpl. constructor; [done|].
  destruct l1 as [|y l1]; simpl.
  - destruct Hb as [|z l2 Hz _]; constructor. unfold le_time. lia.
  - constructor. apply Forall_cons_1 in H1 as [Hy _]. unfold le_time. lia.
Qed.

(** At a constant tempo, with deltas that are not negative and products
    below [2 ^ 53], the timestamps of a track do not decrease. *)
Lemma track_loop_monotone tpb tempo tr c :
  0 < tpb * 1000 < 2 ^ 53 → 0 < tempo → 0 ≤ c →
  Forall (λ m, 0 ≤ time m ∧ no_tempo_change m) tr →
  (c + ticks tr) * tempo < 2 ^ 53 →
  ∃ evs, track_loop tpb tr c tempo = Ok evs ∧ time_sorted evs
         ∧ Forall (λ e, c * tempo / (tpb * 1000) ≤ ev_time e) evs.
Proof.
  intros Htpb Htempo. revert c.
  induction tr as [|m tr IH]; intros c Hc Htr Hbound.
  { exists []. repeat split; constructor. }
  apply Forall_cons_1 in Htr as [[Hm Hnt] Htr].
  pose proof (ticks_nonneg tr (Forall_impl _ _ _ Htr (λ _ H, proj1 H))) as Hticks.
  change (ticks (m :: tr)) with (time m + ticks tr) in Hbound.
  cbn [track_loop].
  rewrite (time_ms_floor tpb (c + time m) tempo) by first [done | split; nia].
  cbn [rbind].
  assert (Hnext : next_tempo tempo m = tempo).
  { unfold next_tempo. destruct (type m) eqn:E; try done. by destruct (Hnt tempo0). }
  rewrite Hnext.
  destruct (IH (c + time m)) as (evs & -> & Hsorted & Hlow); [lia|done| |].
  { by replace (c + time m + ticks tr) with (c + (time m + ticks tr)) by lia. }
  cbn [rbind]. eexists. split; [done|].
  assert (Hle : c * tempo / (tpb * 1000) ≤ (c + time m) * tempo / (tpb * 1000)).
  { apply Z.div_le_mono; [lia|nia]. }
  split.
  - eapply time_sorted_app_bound; [apply emit_times|done..].
  - apply Forall_app. split.
    + eapply Forall_impl; [apply emit_times|]. simpl. intros e ->. done.
    + eapply Forall_impl; [exact Hlow|]. simpl. lia.
Qed.
End MapperFacts.

(** X1: whatever the file, the events that [transcribe_midi] returns are in
    non-decreasing order of timestamp. *)
Theorem X1_transcribed_events_are_sorted mid :
  time_sorted (transcribe_midi mid).
Proof. apply transcribe_midi_sorted. Qed.

(** X2: when no conversion raises, [transcribe_midi] returns the events of
    the first two tracks, each track converted from tick 0 at the default
    tempo, reordered by a stable sort: it is a permutation of them, and
    events with equal timestamps keep the order in which they were
    emitted, the first track before the second. *)
Theorem X2_sort_is_stable mid evs :
  tracks_loop (ticks_per_beat mid) (take 2 (tracks mid)) = Ok evs →
  transcribe_midi mid ≡ₚ evs
  ∧ ∀ t, filter (λ e, ev_time e = t) (transcribe_midi mid)
         = filter (λ e, ev_time e = t) evs.
Proof.
  intros E. unfold transcribe_midi. rewrite E. split.
  - apply sort_events_perm.
  - intros t. apply sort_events_stable.
Qed.

Lemma X2_sort_is_stable_witness :
  filter (λ e, ev_time e = 100)
    (transcribe_midi
       {| ticks_per_beat := 480;
          tracks := [[Msg 96 (note_on 60 64); Msg 0 (note_on 64 64)];
                     [Msg 48 (note_on 72 64); Msg 48 (note_on 67 64)]] |})
  = [(60, 100, "ON"%string); (64, 100, "ON"%string); (67, 100, "ON"%string)].
Proof.
  destruct (X2_sort_is_stable
              {| ticks_per_beat := 480;
                 tracks := [[Msg 96 (note_on 60 64); Msg 0 (note_on 64 64)];
                            [Msg 48 (note_on 72 64); Msg 48 (note_on 67 64)]] |}
              [(60, 100, "ON"%string); (64, 100, "ON"%string);
               (72, 50, "ON"%string); (67, 100, "ON"%string)]) as [_ H].
  - vm_compute. reflexivity.
  - rewrite H. reflexivity.
Defined.

(** X3: a file whose header gives 0 ticks per beat yields no event at all:
    the division by zero at the first message is caught and the empty list
    is returned. *)
Theorem X3_zero_ticks_per_beat_gives_no_event mid :
  ticks_per_beat mid = 0 → transcribe_midi mid = [].
Proof.
  intros E. unfold transcribe_midi. rewrite E.
  destruct (tracks_loop 0 (take 2 (tracks mid))) as [evs|] eqn:Ht; [|done].
  by apply tracks_loop_zero_tpb in Ht as ->.
Qed.

Lemma X3_zero_ticks_per_beat_gives_no_event_witness :
  transcribe_midi
    {| ticks_per_beat := 0;
       tracks := [[Msg 96 (note_on 60 64); Msg 96 (note_off 60 0)]] |} = [].
Proof.
  apply (X3_zero_ticks_per_beat_gives_no_event
           {| ticks_per_beat := 0;
              tracks := [[Msg 96 (note_on 60 64); Msg 96 (note_off 60 0)]] |}).
  reflexivity.
Defined.

(** X4: a [note_on] message with velocity 0 is transcribed as the
    [note_off] of its note: writing every such message as a [note_off]
    leaves the result of [transcribe_midi] unchanged. *)
Theorem X4_note_on_with_velocity_zero_is_note_off tpb trs :
  transcribe_midi
    {| ticks_per_beat := tpb;
       tracks := (λ tr : list Message, as_note_off <$> tr) <$> trs |}
  = transcribe_midi {| ticks_per_beat := tpb; tracks := trs |}.
Proof.
  unfold transcribe_midi. cbn [ticks_per_beat tracks].
  by rewrite <- fmap_take, tracks_loop_as_note_off.
Qed.

(** X5: for a file with one track, no tempo change, deltas that are not
    negative and a tick count whose product with the default tempo is below
    [2 ^ 53], no conversion raises, the timestamps do not decrease along
    the track, and [transcribe_midi] returns the events in the order of
    their messages: the sort moves nothing. *)
Theorem X5_single_track_keeps_message_order tpb tr :
  0 < tpb * 1000 < 2 ^ 53 →
  Forall (λ m, 0 ≤ time m ∧ no_tempo_change m) tr →
  ticks tr * default_tempo < 2 ^ 53 →
  ∃ evs, track_loop tpb tr 0 default_tempo = Ok evs
         ∧ time_sorted evs
         ∧ transcribe_midi {| ticks_per_beat := tpb; tracks := [tr] |} = evs.
Proof.
  intros Htpb Htr Hbound.
  destruct (track_loop_monotone tpb default_tempo tr 0)
    as (evs & E & Hsorted & _); try done.
  exists evs. split; [done|]. split; [done|].
  unfold transcribe_midi. cbn [ticks_per_beat tracks take tracks_loop].
  rewrite E. cbn [rbind]. rewrite app_nil_r.
  by apply sort_events_sorted_id.
Qed.

Lemma X5_single_track_keeps_message_order_witness :
  ∃ evs,
    track_loop 480 [Msg 96 (note_on 60 64); Msg 96 (note_off 60 0)] 0
      default_tempo = Ok evs
    ∧ time_sorted evs
    ∧ transcribe_midi
        {| ticks_per_beat := 480;
           tracks := [[Msg 96 (note_on 60 64); Msg 96 (note_off 60 0)]] |}
      = evs.
Proof.
  apply (X5_single_track_keeps_message_order 480
           [Msg 96 (note_on 60 64); Msg 96 (note_off 60 0)]).
  - vm_compute. split; reflexivity.
  - repeat constructor; simpl; try lia; intros t; discriminate.
  - vm_compute. reflexivity.
Defined.

(** ** The pipeline on the fields *)

Section Values.
Implicit Types (h : store) (v : MidiNote) (m l : loc).

Lemma lookup_total_keeps base h h' l :
  keeps base h h' → (l < base)%nat → h' !!! l = h !!! l.
Proof.
  intros [_ K] Hl. rewrite !list_lookup_total_alt. by rewrite K.
Qed.

Lemma values_keeps base h h' ls :
  keeps base h h' → Forall (λ l, (l < base)%nat) ls →
  values h' ls = values h ls.
Proof.
  intros K Hls. unfold values. apply list_fmap_ext.
  intros i l Hl. eapply lookup_total_keeps; [done|].
  rewrite Forall_forall in Hls. apply Hls. by eapply list_elem_of_lookup_2.
Qed.

(** The loop with the fields it leaves in the new objects. *)
Lemma transform_loop_values opts mods notes o h :
  Forall field_modifier mods →
  Forall (λ n, (n < length h)%nat) notes →
  ∃ h' r, transform_loop opts mods notes o h = (h', r)
        ∧ keeps (length h) h h'
        ∧ match builtin_all opts (values h notes) with
          | Ok ws =>
              ∃ new, r = Ok (o ++ new)
                     ∧ Forall (λ m, (length h ≤ m < length h')%nat) new
                     ∧ NoDup new
                     ∧ values h' new = apply_modifiers mods <$> ws
          | Err e => r = Err e
          end.
Proof.
  intros Hmods. revert o h. induction notes as [|n notes IH]; intros o h Hval.
  - exists h, (Ok o). split; [done|]. split; [apply keeps_refl|].
    exists []. rewrite app_nil_r. repeat split; constructor.
  - apply Forall_cons_1 in Hval as [Hn Hval].
    destruct (transform_note_spec opts mods n h Hmods)
      as (h1 & r1 & E1 & K1 & L1 & R1).
    cbn [transform_loop]. unfold bind. rewrite E1.
    unfold values. rewrite fmap_cons. fold (values h notes). cbn [builtin_all].
    destruct (builtin_fields opts (h !!! n)) as [w|e]; cbn [rbind].
    2:{ subst r1. by exists h1, (Err e). }
    destruct R1 as (m & -> & Hm & Vm).
    assert (Hval1 : Forall (λ n, (n < length h1)%nat) notes).
    { eapply Forall_impl; [exact Hval|]. simpl. lia. }
    destruct (IH (o ++ [m]) h1 Hval1) as (h2 & r2 & E2 & K2 & R2).
    rewrite (values_keeps (length h) h h1) in R2 by done.
    exists h2, r2. split; [done|].
    split; [eapply keeps_trans; [|done..]; lia|].
    destruct (builtin_all opts (values h notes)) as [ws|e]; cbn [rbind]; [|done].
    destruct R2 as (new & -> & Hnew & Hnd & Vnew).
    exists (m :: new). rewrite <- app_assoc. split; [done|].
    destruct K2 as [L2 K2']. split; [|split].
    + constructor; [lia|]. eapply Forall_impl; [exact Hnew|]. simpl. lia.
    + constructor; [|done]. intros Hin.
      rewrite Forall_forall in Hnew. specialize (Hnew m Hin). lia.
    + unfold values in *. rewrite !fmap_cons. f_equal; [|done].
      rewrite <- Vm. rewrite !list_lookup_total_alt. rewrite K2' by lia. done.
Qed.

Lemma values_renormalize_store o h :
  NoDup o → Forall (λ e, (e < length h)%nat) o →
  ∃ h', renormalize_store o h = (h', Ok tt)
        ∧ length h' = length h
        ∧ (∀ l, l ∉ o → h' !! l = h !! l)
        ∧ values h' o = renormalize (values h o).
Proof.
  intros Hnd Hval. destruct o as [|e es].
  { exists h. by repeat split. }
  rewrite renormalize_store_cons.
  set (t0 := py_min _ _).
  destruct (shift_all_frame t0 (e :: es) h) as (h' & E & L & K).
  pose proof (shift_all_values t0 (e :: es) h Hnd Hval) as V.
  rewrite E in V |- *. cbn [fst] in V.
  exists h'. split; [done|]. split; [done|]. split; [done|].
  unfold values. rewrite !fmap_cons, renormalize_cons. cbv zeta.
  rewrite <- !list_fmap_compose. fold t0.
  rewrite (V e) by apply list_elem_of_here. f_equal.
  apply list_fmap_ext. intros i x Hx. simpl.
  apply V. apply list_elem_of_further. by eapply list_elem_of_lookup_2.
Qed.

(** The pipeline on the store computes what [transform_values] computes on
    the fields. *)
Lemma apply_transforms_values notes opts mods h :
  Forall field_modifier mods →
  Forall (λ n, (n < length h)%nat) notes →
  ∃ h' r, apply_transforms notes opts mods h = (h', r)
        ∧ match transform_values opts mods (values h notes) with
          | Ok ws => ∃ o, r = Ok o ∧ values h' o = ws
          | Err e => r = Err e
          end.
Proof.
  intros Hmods Hval. unfold apply_transforms, transform_values.
  destruct (transform_loop_values opts mods notes [] h Hmods Hval)
    as (h1 & r1 & E1 & K1 & R1).
  unfold bind at 1. rewrite E1.
  destruct (builtin_all opts (values h notes)) as [ws|e]; cbn [rbind].
  2:{ subst r1. by exists h1, (Err e). }
  destruct R1 as (new & -> & Hnew & Hnd & Vnew). rewrite app_nil_l.
  destruct (values_renormalize_store new h1 Hnd) as (h2 & E2 & L2 & K2 & V2).
  { eapply Forall_impl; [exact Hnew|]. simpl. lia. }
  unfold bind, ret. rewrite E2.
  exists h2, (Ok new). split; [done|]. exists new. split; [done|].
  by rewrite V2, Vnew.
Qed.
End Values.

Section ValueFacts.

Lemma set_timeMSec_id v : set_timeMSec v (timeMSec v) = v.
Proof. by destruct v. Qed.

Lemma delay_0 v : delay 0 v = v.
Proof. unfold delay. rewrite Z.add_0_r. apply set_timeMSec_id. Qed.

Lemma apply_extra_mods s c v :
  apply_modifiers (extra_mods s c) v
  = set_midiNoteNumber v (pitch_after s c (midiNoteNumber v)).
Proof.
  unfold extra_mods, pitch_after, apply_modifiers.
  destruct (s =? 0), c, v; reflexivity.
Qed.

Lemma apply_extra_mods_delay s c k v :
  apply_modifiers (extra_mods s c) (delay k v)
  = delay k (apply_modifiers (extra_mods s c) v).
Proof. rewrite !apply_extra_mods. by destruct v. Qed.

(** The shift of the configuration is an addition to the start that the
    other built-in steps do not see. *)
Lemma builtin_fields_shift sh sc md v :
  builtin_fields (mkOpts sh sc md) v
  = rbind (builtin_fields (mkOpts 0 sc md) v) (λ w, Ok (delay sh w)).
Proof.
  unfold builtin_fields. cbn [time_shift_ms time_scale min_duration_ms].
  destruct (if PyFloat.neqb sc PyFloat.one then _ else _) as [v1|e];
    cbn [rbind]; [|done].
  change (0 =? 0) with true. cbn [negb].
  destruct (Z.eqb_spec sh 0) as [->|Hsh]; cbn [negb].
  - by rewrite delay_0.
  - unfold delay. destruct v1 as [i p t d].
    cbn [noteDuration set_timeMSec timeMSec].
    by destruct (negb (md =? 0) && (d <? md)).
Qed.

Lemma builtin_all_shift sh sc md vs :
  builtin_all (mkOpts sh sc md) vs
  = rbind (builtin_all (mkOpts 0 sc md) vs) (λ ws, Ok (delay sh <$> ws)).
Proof.
  induction vs as [|v vs IH]; [done|]. cbn [builtin_all].
  rewrite builtin_fields_shift, IH.
  destruct (builtin_fields (mkOpts 0 sc md) v) as [w|e]; cbn [rbind]; [|done].
  by destruct (builtin_all (mkOpts 0 sc md) vs).
Qed.

Lemma py_min_delay c x xs :
  py_min (x + c) ((λ y, y + c) <$> xs) = py_min x xs + c.
Proof.
  unfold py_min. revert x. induction xs as [|y xs IH]; intros x; simpl; [done|].
  rewrite <- IH. f_equal. lia.
Qed.

(** The final shift absorbs a common delay. *)
Lemma renormalize_delay c vs : renormalize (delay c <$> vs) = renormalize vs.
Proof.
  destruct vs as [|v vs]; [done|].
  rewrite fmap_cons, !renormalize_cons. cbv zeta.
  assert (Ht : timeMSec <$> (delay c <$> vs) = (λ y, y + c) <$> (timeMSec <$> vs)).
  { rewrite <- !list_fmap_compose. by apply list_fmap_ext. }
  rewrite Ht. cbn [delay timeMSec set_timeMSec]. rewrite py_min_delay.
  set (t0 := py_min _ _). f_equal.
  - destruct v. unfold set_timeMSec. simpl. f_equal. lia.
  - rewrite <- list_fmap_compose. apply list_fmap_ext.
    intros i [] _. unfold delay, set_timeMSec. simpl. f_equal. lia.
Qed.

Lemma transform_values_shift sh sc md s c vs :
  transform_values (mkOpts sh sc md) (extra_mods s c) vs
  = transform_values (mkOpts 0 sc md) (extra_mods s c) vs.
Proof.
  unfold transform_values. rewrite builtin_all_shift.
  destruct (builtin_all (mkOpts 0 sc md) vs) as [ws|e]; cbn [rbind]; [|done].
  f_equal. rewrite <- (renormalize_delay sh (_ <$> ws)). f_equal.
  rewrite <- !list_fmap_compose. apply list_fmap_ext.
  intros i v _. apply apply_extra_mods_delay.
Qed.
End ValueFacts.

(** ** The interval pairer *)

Section PairerFacts.

(** An iteration changes the state in the same way whatever the limit; the
    limit only decides on the [break], and only after a note is appended. *)
Lemma pair_step_limit limit st ev :
  (out (pair_step None st ev).1 = out st
   ∧ pair_step limit st ev = ((pair_step None st ev).1, false))
  ∨ (∃ x, out (pair_step None st ev).1 = out st ++ [x]
          ∧ ev_state ev = "OFF"%string
          ∧ pair_step limit st ev
            = ((pair_step None st ev).1, limit_reached limit (out st ++ [x]))).
Proof.
  destruct ev as [[n t] s]. unfold pair_step, ev_state. cbn [snd].
  destruct (String.eqb_spec s "ON"); [by left|].
  destruct (String.eqb_spec s "OFF"); [|by left].
  destruct (active st !! n); [|by left].
  right. by eexists.
Qed.

Lemma pair_step_cases_on limit st n t :
  pair_step limit st (n, t, "ON"%string)
  = (mkPair (out st) (<[n := t]> (active st)) (idx st), false).
Proof. reflexivity. Qed.

Lemma pair_step_cases_off limit st n t start :
  active st !! n = Some start →
  pair_step limit st (n, t, "OFF"%string)
  = (mkPair (out st ++ [mkNote (idx st) n start (t - start)])
       (delete n (active st)) (idx st + 1),
     limit_reached limit (out st ++ [mkNote (idx st) n start (t - start)])).
Proof. intros H. unfold pair_step. simpl. by rewrite H. Qed.

Lemma pair_step_None st ev :
  pair_step None st ev = ((pair_step None st ev).1, false).
Proof.
  destruct (pair_step_limit None st ev) as [[_ E]|(x & _ & _ & E)]; exact E.
Qed.

Lemma pair_loop_out_prefix limit events st :
  ∃ more, out (pair_loop limit events st) = out st ++ more.
Proof.
  revert st. induction events as [|ev events IH]; intros st.
  - exists []. by rewrite app_nil_r.
  - rewrite pair_loop_cons.
    destruct (pair_step_limit limit st ev) as [[Ho ->]|(x & Ho & _ & ->)];
      cbn [fst snd].
    + destruct (IH (pair_step None st ev).1) as [more ->].
      exists more. by rewrite Ho.
    + destruct (limit_reached _ _).
      * exists [x]. by rewrite Ho.
      * destruct (IH (pair_step None st ev).1) as [more ->].
        exists (x :: more). by rewrite Ho, <- app_assoc.
Qed.

Lemma pair_loop_limit l events st :
  (length (out st) < Z.to_nat (Z.max 1 l))%nat →
  out (pair_loop (Some l) events st)
  = take (Z.to_nat (Z.max 1 l)) (out (pair_loop None events st)).
Proof.
  set (k := Z.to_nat (Z.max 1 l)). revert st.
  induction events as [|ev events IH]; intros st Hlen.
  - simpl. rewrite take_ge; [done|lia].
  - rewrite !pair_loop_cons. rewrite (pair_step_None st ev). cbn [fst snd].
    destruct (pair_step_limit (Some l) st ev) as [[Ho ->]|(x & Ho & _ & ->)];
      cbn [fst snd].
    + apply IH. by rewrite Ho.
    + assert (Hlen' : length (out st ++ [x]) = S (length (out st))).
      { rewrite length_app. simpl. lia. }
      unfold limit_reached. destruct (Z.leb_spec l (Z.of_nat (length (out st ++ [x])))).
      * destruct (pair_loop_out_prefix None events (pair_step None st ev).1)
          as [more ->].
        rewrite Ho. symmetry. apply take_app_length'. subst k. lia.
      * apply IH. rewrite Ho. subst k. lia.
Qed.

(** Counting: a note needs an ON event that is still active and an OFF
    event. *)
Lemma pair_loop_count limit events st :
  (length (out (pair_loop limit events st))
   + size (active (pair_loop limit events st))
   ≤ length (out st) + size (active st)
     + length (filter (λ e, ev_state e = "ON"%string) events))%nat
  ∧ (length (out (pair_loop limit events st))
     ≤ length (out st)
       + length (filter (λ e, ev_state e = "OFF"%string) events))%nat.
Proof.
  revert st. induction events as [|[[n t] s] events IH]; intros st.
  - simpl. lia.
  - rewrite pair_loop_cons.
    destruct (pair_step_cases limit st n t s)
      as [[-> ->]|[(-> & start & Hstart & ->)| ->]]; cbn [fst snd].
    + destruct (IH (mkPair (out st) (<[n:=t]> (active st)) (idx st)))
        as [H1 H2]. cbn [out active] in H1, H2.
      rewrite filter_cons_True by done.
      rewrite filter_cons_False by done. simpl length.
      pose proof (map_size_insert n t (active st)) as Hsz.
      destruct (active st !! n); simpl in Hsz; lia.
    + rewrite filter_cons_False by done.
      rewrite filter_cons_True by done. simpl length.
      pose proof (map_size_delete_Some n (active st) (mk_is_Some _ _ Hstart))
        as Hsz.
      assert (size (active st) ≠ 0%nat).
      { intros H0. apply map_size_empty_inv in H0. rewrite H0 in Hstart.
        by rewrite lookup_empty in Hstart. }
      destruct (limit_reached _ _); cbn [out active].
      * rewrite length_app. simpl. lia.
      * destruct (IH (mkPair (out st ++ [mkNote (idx st) n start (t - start)])
                        (delete n (active st)) (idx st + 1))) as [H1 H2].
        cbn [out active] in H1, H2. rewrite length_app in H1, H2.
        simpl in H1, H2. lia.
    + destruct (IH st) as [H1 H2].
      pose proof (length_filter (λ e : Event, ev_state e = "ON"%string)
                    [(n, t, s)]).
      rewrite (filter_cons (λ e : Event, ev_state e = "ON"%string)).
      rewrite (filter_cons (λ e : Event, ev_state e = "OFF"%string)).
      repeat case_decide; simpl length; lia.
Qed.

Lemma pair_step_unknown limit st n t s :
  s ≠ "ON"%string → s ≠ "OFF"%string →
  pair_step limit st (n, t, s) = (st, false).
Proof.
  intros Hon Hoff. unfold pair_step.
  destruct (String.eqb_spec s "ON"); [done|].
  by destruct (String.eqb_spec s "OFF").
Qed.

(** Moving every event by [c] moves the starts in the state by [c]. *)
Lemma pair_loop_delay limit c events st st' :
  out st' = delay c <$> out st →
  active st' = (λ s, s + c) <$> active st →
  idx st' = idx st →
  out (pair_loop limit (ev_delay c <$> events) st')
  = delay c <$> out (pair_loop limit events st).
Proof.
  revert st st'. induction events as [|[[n t] s] events IH];
    intros st st' Ho Ha Hi; [done|].
  rewrite fmap_cons, !pair_loop_cons.
  change (ev_delay c (n, t, s)) with (n, t + c, s).
  destruct (String.eqb_spec s "ON") as [->|Hon];
    [|destruct (String.eqb_spec s "OFF") as [->|Hoff]].
  - rewrite !pair_step_cases_on. cbn [fst snd].
    apply IH; cbn [out active idx]; [done| |done].
    by rewrite Ha, fmap_insert.
  - destruct (active st !! n) as [start|] eqn:Hstart.
    + assert (Hstart' : active st' !! n = Some (start + c)).
      { by rewrite Ha, lookup_fmap, Hstart. }
      rewrite (pair_step_cases_off limit st' n (t + c) (start + c) Hstart').
      rewrite (pair_step_cases_off limit st n t start Hstart).
      cbn [fst snd].
      assert (Hout :
        out st' ++ [mkNote (idx st') n (start + c) (t + c - (start + c))]
        = delay c <$> (out st ++ [mkNote (idx st) n start (t - start)])).
      { rewrite fmap_app, Ho, Hi. f_equal. cbn.
        replace (t + c - (start + c)) with (t - start) by lia. done. }
      rewrite Hout.
      replace (limit_reached limit (delay c <$> _))
        with (limit_reached limit
                (out st ++ [mkNote (idx st) n start (t - start)]))
        by (unfold limit_reached; by rewrite length_fmap).
      destruct (limit_reached _ _); cbn [out]; [done|].
      apply IH; cbn [out active idx]; [done| |by rewrite Hi].
      by rewrite Ha, fmap_delete.
    + assert (Hnone : active st' !! n = None).
      { by rewrite Ha, lookup_fmap, Hstart. }
      rewrite !pair_step_off_unmatched by done. cbn [fst snd]. by apply IH.
  - rewrite !pair_step_unknown by done. cbn [fst snd]. by apply IH.
Qed.

(** Every note starts at an ON event and ends at an OFF event of its
    pitch. *)
Lemma pair_loop_provenance limit (all : list Event) events st :
  (∀ e, e ∈ events → e ∈ all) →
  (∀ k s, active st !! k = Some s → (k, s, "ON"%string) ∈ all) →
  Forall (λ v, (midiNoteNumber v, timeMSec v, "ON"%string) ∈ all
               ∧ (midiNoteNumber v, timeMSec v + noteDuration v, "OFF"%string)
                 ∈ all) (out st) →
  Forall (λ v, (midiNoteNumber v, timeMSec v, "ON"%string) ∈ all
               ∧ (midiNoteNumber v, timeMSec v + noteDuration v, "OFF"%string)
                 ∈ all) (out (pair_loop limit events st)).
Proof.
  revert st. induction events as [|[[n t] s] events IH];
    intros st Hall Hact Hout; [done|].
  assert (Hall' : ∀ e, e ∈ events → e ∈ all).
  { intros e He. apply Hall. by apply list_elem_of_further. }
  rewrite pair_loop_cons.
  destruct (pair_step_cases limit st n t s)
    as [[-> ->]|[(-> & start & Hstart & ->)| ->]]; cbn [fst snd].
  - apply IH; cbn [out active]; [done| |done].
    intros k s Hk. destruct (decide (k = n)) as [->|Hne].
    + rewrite lookup_insert_eq in Hk. injection Hk as <-.
      apply Hall, list_elem_of_here.
    + rewrite lookup_insert_ne in Hk by done. by apply Hact.
  - assert (Hout' : Forall (λ v,
        (midiNoteNumber v, timeMSec v, "ON"%string) ∈ all
        ∧ (midiNoteNumber v, timeMSec v + noteDuration v, "OFF"%string) ∈ all)
        (out st ++ [mkNote (idx st) n start (t - start)])).
    { apply Forall_app. split; [done|]. constructor; [|constructor].
      cbn. split; [by apply Hact|].
      replace (start + (t - start)) with t by lia.
      apply Hall, list_elem_of_here. }
    destruct (limit_reached _ _); cbn [out]; [done|].
    apply IH; cbn [out active]; [done| |done].
    intros k s Hk. apply lookup_delete_Some in Hk as [_ Hk]. by apply Hact.
  - by apply IH.
Qed.

(** Events whose state is neither "ON" nor "OFF" are passed over. *)
Lemma pair_loop_known limit events st :
  pair_loop limit
    (filter (λ e, ev_state e = "ON"%string ∨ ev_state e = "OFF"%string) events)
    st
  = pair_loop limit events st.
Proof.
  revert st. induction events as [|[[n t] s] events IH]; intros st; [done|].
  rewrite filter_cons. unfold ev_state at 1 2. cbn [snd].
  case_decide as Hs.
  - rewrite !pair_loop_cons. destruct (pair_step limit st (n, t, s)) as [st' []];
      cbn [fst snd]; [done|]. apply IH.
  - rewrite pair_loop_cons.
    assert (pair_step limit st (n, t, s) = (st, false)) as ->.
    { unfold pair_step.
      destruct (String.eqb_spec s "ON"); [by destruct Hs; left|].
      destruct (String.eqb_spec s "OFF"); [by destruct Hs; right|]. done. }
    cbn [fst snd]. apply IH.
Qed.
End PairerFacts.

(** X6: with a limit the pairer returns the first [max 1 limit] notes of
    the unlimited pairing, shifted to start at 0 on their own; so a limit of
    0 or less still lets one note through, and the result is a prefix of the
    unlimited result only up to that shift. *)
Theorem X6_limit_keeps_a_prefix events l :
  convert_to_midi_notes events (Some l)
  = renormalize (take (Z.to_nat (Z.max 1 l))
                   (out (pair_loop None events pair_init)))
  ∧ (length (convert_to_midi_notes events (Some l))
     ≤ Z.to_nat (Z.max 1 l))%nat.
Proof.
  assert (E : convert_to_midi_notes events (Some l)
              = renormalize (take (Z.to_nat (Z.max 1 l))
                               (out (pair_loop None events pair_init)))).
  { unfold convert_to_midi_notes. rewrite pair_loop_limit; [done|].
    simpl. lia. }
  split; [exact E|]. rewrite E, renormalize_length, length_take. lia.
Qed.

(** X7: the pairer returns at most as many notes as the input has "ON"
    events and at most as many as it has "OFF" events; in particular an
    input without an "OFF" event, or without an "ON" event, gives the empty
    list. *)
Theorem X7_notes_are_bounded_by_the_events events limit :
  (length (convert_to_midi_notes events limit)
   ≤ length (filter (λ e, ev_state e = "ON"%string) events))%nat
  ∧ (length (convert_to_midi_notes events limit)
     ≤ length (filter (λ e, ev_state e = "OFF"%string) events))%nat.
Proof.
  unfold convert_to_midi_notes. rewrite renormalize_length.
  destruct (pair_loop_count limit events pair_init) as [H1 H2].
  cbn [out active pair_init] in H1, H2. rewrite map_size_empty in H1.
  simpl in H1, H2. lia.
Qed.

(** X8: the pairer does not depend on where the time axis starts: moving
    every event by the same amount gives the same notes. *)
Theorem X8_pairer_ignores_a_common_delay events limit c :
  convert_to_midi_notes (ev_delay c <$> events) limit
  = convert_to_midi_notes events limit.
Proof.
  unfold convert_to_midi_notes.
  rewrite (pair_loop_delay limit c events pair_init pair_init);
    [apply renormalize_delay|done| |done].
  cbn [active pair_init]. by rewrite fmap_empty.
Qed.

(** X9: every note the pairer returns comes from the input: up to the
    common shift [t0] of the final step, it starts at an "ON" event of its
    pitch and ends at an "OFF" event of its pitch. *)
Theorem X9_notes_come_from_events events limit :
  ∃ t0,
    Forall (λ v,
      (midiNoteNumber v, timeMSec v + t0, "ON"%string) ∈ events
      ∧ (midiNoteNumber v, timeMSec v + t0 + noteDuration v, "OFF"%string)
        ∈ events)
      (convert_to_midi_notes events limit).
Proof.
  unfold convert_to_midi_notes.
  pose proof (pair_loop_provenance limit events events pair_init) as H.
  specialize (H (λ e He, He)).
  assert (Hact : ∀ k s, active pair_init !! k = Some s →
                        (k, s, "ON"%string) ∈ events).
  { intros k s Hk. cbn in Hk. by rewrite lookup_empty in Hk. }
  specialize (H Hact (Forall_nil_2 _)).
  destruct (out (pair_loop limit events pair_init)) as [|n ns] eqn:E.
  { exists 0. constructor. }
  exists (py_min (timeMSec n) (timeMSec <$> ns)). unfold renormalize.
  apply Forall_fmap. eapply Forall_impl; [exact H|].
  intros v [Hon Hoff]. cbn.
  replace (timeMSec v - py_min (timeMSec n) (timeMSec <$> ns)
           + py_min (timeMSec n) (timeMSec <$> ns)) with (timeMSec v) by lia.
  by destruct v.
Qed.

(** X10: events whose state is neither "ON" nor "OFF" are ignored:
    removing them from the input gives the same notes. *)
Theorem X10_other_states_are_ignored events limit :
  convert_to_midi_notes
    (filter (λ e, ev_state e = "ON"%string ∨ ev_state e = "OFF"%string) events)
    limit
  = convert_to_midi_notes events limit.
Proof. unfold convert_to_midi_notes. by rewrite pair_loop_known. Qed.

(** ** The transform pipeline and [main] *)

Section PipelineFacts.

Lemma fmap_renormalize {B} (f : MidiNote → B) o :
  (∀ v t, f (set_timeMSec v t) = f v) → f <$> renormalize o = f <$> o.
Proof.
  intros Hf. destruct o as [|n ns]; [done|]. unfold renormalize.
  rewrite <- list_fmap_compose. apply list_fmap_ext. intros i v _. apply Hf.
Qed.

Lemma builtin_fields_scale_one sh md v :
  builtin_fields (mkOpts sh PyFloat.one md) v
  = Ok (floor_duration md (delay sh v)).
Proof.
  rewrite builtin_fields_shift. unfold builtin_fields, floor_duration.
  cbn [time_scale time_shift_ms min_duration_ms rbind]. cbn [negb].
  change (PyFloat.neqb PyFloat.one PyFloat.one) with false.
  change (0 =? 0) with true. cbn [negb rbind].
  destruct v as [i p t d]. unfold delay. cbn.
  by destruct (negb (md =? 0) && (d <? md)).
Qed.

Lemma builtin_all_scale_one sh md vs :
  builtin_all (mkOpts sh PyFloat.one md) vs
  = Ok ((λ v, floor_duration md (delay sh v)) <$> vs).
Proof.
  induction vs as [|v vs IH]; [done|]. cbn [builtin_all].
  by rewrite builtin_fields_scale_one, IH.
Qed.

(** The built-in steps keep the index and the pitch, and leave no duration
    below a positive floor. *)
Lemma builtin_fields_frame opts v w :
  builtin_fields opts v = Ok w →
  index w = index v ∧ midiNoteNumber w = midiNoteNumber v
  ∧ (0 < min_duration_ms opts → min_duration_ms opts ≤ noteDuration w).
Proof.
  unfold builtin_fields.
  destruct (if PyFloat.neqb _ _ then _ else _) as [v1|e] eqn:E1; [|done].
  cbn [rbind]. intros [= <-].
  assert (index v1 = index v ∧ midiNoteNumber v1 = midiNoteNumber v) as [Hi Hp].
  { destruct (PyFloat.neqb _ _); [|by injection E1 as <-].
    destruct (scale_int (timeMSec v) _); [|done].
    destruct (scale_int (noteDuration v) _); [|done].
    cbn [rbind] in E1. by injection E1 as <-. }
  destruct v1 as [i p t d]. cbn in Hi, Hp. subst i p.
  destruct (negb (time_shift_ms opts =? 0)); cbn;
    destruct (Z.eqb_spec (min_duration_ms opts) 0);
    destruct (Z.ltb_spec d (min_duration_ms opts)); cbn; repeat split; lia.
Qed.

Lemma builtin_all_frame opts vs ws :
  builtin_all opts vs = Ok ws →
  index <$> ws = index <$> vs
  ∧ midiNoteNumber <$> ws = midiNoteNumber <$> vs
  ∧ (0 < min_duration_ms opts →
     Forall (λ w, min_duration_ms opts ≤ noteDuration w) ws).
Proof.
  revert ws. induction vs as [|v vs IH]; intros ws.
  - intros [= <-]. by repeat split.
  - cbn [builtin_all].
    destruct (builtin_fields opts v) as [w|e] eqn:Ew; [|done]. cbn [rbind].
    destruct (builtin_all opts vs) as [ws'|e]; [|done]. cbn [rbind].
    intros [= <-].
    destruct (builtin_fields_frame _ _ _ Ew) as (Hi & Hp & Hd).
    destruct (IH ws' eq_refl) as (Hi' & Hp' & Hd').
    rewrite !fmap_cons, Hi, Hp, Hi', Hp'. repeat split.
    intros Hmd. constructor; auto.
Qed.

(** The pipeline of [main] on the fields: what comes out of it. *)
Lemma transform_values_frame opts s c vs ws :
  transform_values opts (extra_mods s c) vs = Ok ws →
  index <$> ws = index <$> vs
  ∧ midiNoteNumber <$> ws = pitch_after s c ∘ midiNoteNumber <$> vs
  ∧ (0 < min_duration_ms opts →
     Forall (λ w, min_duration_ms opts ≤ noteDuration w) ws).
Proof.
  unfold transform_values.
  destruct (builtin_all opts vs) as [ws0|e] eqn:E0; [|done]. cbn [rbind].
  intros [= <-].
  destruct (builtin_all_frame _ _ _ E0) as (Hi & Hp & Hd).
  rewrite !fmap_renormalize by done.
  rewrite <- !list_fmap_compose. split; [|split].
  - rewrite <- Hi. apply list_fmap_ext. intros i v _. simpl.
    rewrite apply_extra_mods. by destruct v.
  - rewrite (list_fmap_compose midiNoteNumber (pitch_after s c) vs).
    rewrite <- Hp, <- list_fmap_compose.
    apply list_fmap_ext. intros i v _. simpl.
    rewrite apply_extra_mods. by destruct v.
  - intros Hmd. specialize (Hd Hmd).
    apply Forall_forall. intros w Hw.
    assert (noteDuration w ∈ noteDuration <$> renormalize
              (apply_modifiers (extra_mods s c) <$> ws0)) as Hin
      by (by apply list_elem_of_fmap_2).
    rewrite fmap_renormalize in Hin by done.
    rewrite <- list_fmap_compose in Hin.
    apply list_elem_of_fmap_1 in Hin as (w0 & -> & Hw0).
    rewrite Forall_forall in Hd. specialize (Hd w0 Hw0).
    simpl. rewrite apply_extra_mods. by destruct w0.
Qed.

Lemma pitch_after_range s c p :
  (c = true → NOTE_MIN ≤ pitch_after s c p ≤ NOTE_MAX)
  ∧ (s ≠ 0 → 0 ≤ pitch_after s c p ≤ 127).
Proof.
  unfold pitch_after, NOTE_MIN, NOTE_MAX. split.
  - intros ->. lia.
  - intros Hs. destruct (Z.eqb_spec s 0); [done|]. destruct c; lia.
Qed.

Lemma values_seq (vs : list MidiNote) : values vs (seq 0 (length vs)) = vs.
Proof.
  unfold values. apply list_eq. intros i.
  rewrite list_lookup_fmap.
  destruct (vs !! i) as [v|] eqn:Hv.
  - rewrite (lookup_seq_lt _ _ i) by (by eapply lookup_lt_Some). simpl.
    f_equal. by apply list_lookup_total_correct.
  - rewrite lookup_seq_ge; [done|]. by apply lookup_ge_None.
Qed.

Lemma seq_valid (vs : list MidiNote) :
  Forall (λ n, (n < length vs)%nat) (seq 0 (length vs)).
Proof. apply Forall_forall. intros n Hn. apply elem_of_seq in Hn. lia. Qed.

(** [main] computes the pipeline on the fields of the paired notes. *)
Lemma main_notes_values mid limit opts s c :
  main_notes mid limit opts s c =
  match transcribe_midi mid with
  | [] => None
  | events =>
      Some (transform_values opts (extra_mods s c)
              (convert_to_midi_notes events limit))
  end.
Proof.
  unfold main_notes. destruct (transcribe_midi mid) as [|ev evs]; [done|].
  cbv zeta. set (notes := convert_to_midi_notes _ _).
  destruct (apply_transforms_values (seq 0 (length notes)) opts
              (extra_mods s c) notes (extra_mods_field s c)
              (seq_valid notes))
    as (h' & r & -> & R).
  rewrite values_seq in R. f_equal.
  destruct (transform_values _ _ notes) as [ws|e].
  - by destruct R as (o & -> & <-).
  - by subst r.
Qed.
End PipelineFacts.

Lemma apply_transforms_fields notes opts mods h :
  Forall field_modifier mods →
  Forall (λ n, (n < length h)%nat) notes →
  ∃ h' r, apply_transforms notes opts mods h = (h', r)
        ∧ rbind r (λ o, Ok (values h' o))
          = transform_values opts mods (values h notes).
Proof.
  intros Hmods Hval.
  destruct (apply_transforms_values notes opts mods h Hmods Hval)
    as (h' & r & E & R).
  exists h', r. split; [done|].
  destruct (transform_values _ _ _) as [ws|e].
  - by destruct R as (o & -> & <-).
  - by subst r.
Qed.

(** X11: on allocated input notes and with field modifiers, those that
    update the fields of the note they are given and return it or return a
    newly built note, [apply_transforms] returns objects whose fields are
    those of the pure pipeline on the input fields: built-in steps on each
    note, the modifiers in order, then the shift of the whole list; it
    raises exactly the first exception of the built-in steps. *)
Theorem X11_pipeline_on_fields notes opts mods h :
  Forall field_modifier mods →
  Forall (λ n, (n < length h)%nat) notes →
  ∃ h' r, apply_transforms notes opts mods h = (h', r)
        ∧ rbind r (λ o, Ok (values h' o))
          = rbind (builtin_all opts (values h notes)) (λ ws,
            Ok (renormalize (apply_modifiers mods <$> ws))).
Proof. apply apply_transforms_fields. Qed.

Lemma X11_pipeline_on_fields_witness :
  ∃ h' r,
    apply_transforms [1%nat; 0%nat] (mkOpts 5 PyFloat.half 30)
      [rebuild (make_transposer 2)]
      [mkNote 0 60 100 50; mkNote 1 62 40 80] = (h', r)
    ∧ rbind r (λ o, Ok (values h' o))
      = Ok [mkNote 1 64 0 40; mkNote 0 62 30 30].
Proof.
  destruct (X11_pipeline_on_fields [1%nat; 0%nat] (mkOpts 5 PyFloat.half 30)
              [rebuild (make_transposer 2)]
              [mkNote 0 60 100 50; mkNote 1 62 40 80])
    as (h' & r & E & V).
  - repeat constructor.
  - repeat constructor.
  - exists h', r. split; [exact E|]. rewrite V. vm_compute. reflexivity.
Defined.

(** X12: with [time_scale = 1.0] and field modifiers the pipeline never
    raises: every note is delayed by [time_shift_ms], its duration is
    raised to a non-zero [min_duration_ms] it is below, the modifiers are
    applied, and the list is shifted to start at 0. *)
Theorem X12_scale_one_never_raises notes sh md mods h :
  Forall field_modifier mods →
  Forall (λ n, (n < length h)%nat) notes →
  ∃ h' o,
    apply_transforms notes (mkOpts sh PyFloat.one md) mods h = (h', Ok o)
    ∧ values h' o
      = renormalize (apply_modifiers mods
                       <$> ((λ v, floor_duration md (delay sh v))
                              <$> values h notes)).
Proof.
  intros Hmods Hval.
  destruct (apply_transforms_values notes (mkOpts sh PyFloat.one md) mods h
              Hmods Hval)
    as (h' & r & E & R).
  unfold transform_values in R. rewrite builtin_all_scale_one in R.
  cbn [rbind] in R. destruct R as (o & -> & V). by exists h', o.
Qed.

Lemma X12_scale_one_never_raises_witness :
  ∃ h' o,
    apply_transforms [0%nat; 1%nat] (mkOpts (-7) PyFloat.one 60)
      [in_place (make_transposer 12); rebuild _clamp]
      [mkNote 0 60 100 50; mkNote 1 70 40 80] = (h', Ok o)
    ∧ values h' o = [mkNote 0 72 60 60; mkNote 1 79 0 80].
Proof.
  destruct (X12_scale_one_never_raises [0%nat; 1%nat] (-7) 60
              [in_place (make_transposer 12); rebuild _clamp]
              [mkNote 0 60 100 50; mkNote 1 70 40 80])
    as (h' & o & E & V).
  - repeat constructor.
  - repeat constructor.
  - exists h', o. split; [exact E|]. rewrite V. vm_compute. reflexivity.
Defined.

(** X13: with the modifiers of [main], [time_shift_ms] has no effect on
    what the pipeline returns: the same call with a shift of 0 raises the
    same exception or returns notes with the same fields, because the final
    shift of the list to start 0 undoes the common delay. *)
Theorem X13_time_shift_is_undone notes sh sc md s c h :
  Forall (λ n, (n < length h)%nat) notes →
  ∃ h1 r1 h0 r0,
    apply_transforms notes (mkOpts sh sc md) (extra_mods s c) h = (h1, r1)
    ∧ apply_transforms notes (mkOpts 0 sc md) (extra_mods s c) h = (h0, r0)
    ∧ rbind r1 (λ o, Ok (values h1 o)) = rbind r0 (λ o, Ok (values h0 o)).
Proof.
  intros Hval.
  destruct (apply_transforms_fields notes (mkOpts sh sc md) (extra_mods s c)
              h (extra_mods_field s c) Hval) as (h1 & r1 & E1 & V1).
  destruct (apply_transforms_fields notes (mkOpts 0 sc md) (extra_mods s c)
              h (extra_mods_field s c) Hval) as (h0 & r0 & E0 & V0).
  exists h1, r1, h0, r0. split; [done|]. split; [done|].
  by rewrite V1, V0, transform_values_shift.
Qed.

Lemma X13_time_shift_is_undone_witness :
  ∃ h1 r1 h0 r0,
    apply_transforms [0%nat; 1%nat] (mkOpts 250 PyFloat.half 0)
      (extra_mods 3 true) [mkNote 0 60 100 50; mkNote 1 62 40 80] = (h1, r1)
    ∧ apply_transforms [0%nat; 1%nat] (mkOpts 0 PyFloat.half 0)
        (extra_mods 3 true) [mkNote 0 60 100 50; mkNote 1 62 40 80] = (h0, r0)
    ∧ rbind r1 (λ o, Ok (values h1 o)) = rbind r0 (λ o, Ok (values h0 o)).
Proof.
  apply (X13_time_shift_is_undone [0%nat; 1%nat] 250 PyFloat.half 0 3 true
           [mkNote 0 60 100 50; mkNote 1 62 40 80]).
  repeat constructor.
Defined.

(** X14: with the modifiers of [main] the pipeline keeps every index and
    changes a pitch only as [--transpose] and [--clamp] say, whatever the
    other options: with [--clamp] every returned pitch is in [53,79], and
    with a non-zero [--transpose] in [0,127]. *)
Theorem X14_main_modifiers_touch_pitch_only notes opts s c h h' o :
  Forall (λ n, (n < length h)%nat) notes →
  apply_transforms notes opts (extra_mods s c) h = (h', Ok o) →
  index <$> values h' o = index <$> values h notes
  ∧ midiNoteNumber <$> values h' o
    = pitch_after s c ∘ midiNoteNumber <$> values h notes
  ∧ (c = true →
     Forall (λ v, NOTE_MIN ≤ midiNoteNumber v ≤ NOTE_MAX) (values h' o))
  ∧ (s ≠ 0 → Forall (λ v, 0 ≤ midiNoteNumber v ≤ 127) (values h' o)).
Proof.
  intros Hval E.
  destruct (apply_transforms_fields notes opts (extra_mods s c) h
              (extra_mods_field s c) Hval)
    as (h2 & r & E' & V).
  rewrite E in E'. injection E' as <- <-. cbn [rbind] in V. symmetry in V.
  destruct (transform_values_frame _ _ _ _ _ V) as (Hi & Hp & _).
  split; [done|]. split; [done|].
  assert (Hrange : ∀ P : Z → Prop, (∀ p, P (pitch_after s c p)) →
            Forall (λ v, P (midiNoteNumber v)) (values h' o)).
  { intros P HP. apply Forall_forall. intros v Hv.
    apply (list_elem_of_fmap_2 midiNoteNumber) in Hv. rewrite Hp in Hv.
    apply list_elem_of_fmap_1 in Hv as (v0 & -> & _). apply HP. }
  split; intros H0;
    apply (Hrange (λ p, _ ≤ p ≤ _)); intros p; by apply pitch_after_range.
Qed.

Lemma X14_main_modifiers_touch_pitch_only_witness :
  index <$> values [mkNote 4 20 10 5; mkNote 4 53 0 2] [1%nat] = [4]
  ∧ Forall (λ v, NOTE_MIN ≤ midiNoteNumber v ≤ NOTE_MAX)
      (values [mkNote 4 20 10 5; mkNote 4 53 0 2] [1%nat]).
Proof.
  destruct (X14_main_modifiers_touch_pitch_only [0%nat]
              (mkOpts 0 PyFloat.half 0) 0 true [mkNote 4 20 10 5]
              [mkNote 4 20 10 5; mkNote 4 53 0 2] [1%nat])
    as (Hi & _ & Hc & _).
  - repeat constructor.
  - vm_compute. reflexivity.
  - split; [exact Hi|]. by apply Hc.
Defined.

(** X15: with a positive [min_duration_ms] and the modifiers of [main], no
    note that the pipeline returns is shorter than [min_duration_ms]. *)
Theorem X15_duration_floor notes opts s c h h' o :
  Forall (λ n, (n < length h)%nat) notes →
  0 < min_duration_ms opts →
  apply_transforms notes opts (extra_mods s c) h = (h', Ok o) →
  Forall (λ v, min_duration_ms opts ≤ noteDuration v) (values h' o).
Proof.
  intros Hval Hmd E.
  destruct (apply_transforms_fields notes opts (extra_mods s c) h
              (extra_mods_field s c) Hval)
    as (h2 & r & E' & V).
  rewrite E in E'. injection E' as <- <-. cbn [rbind] in V. symmetry in V.
  destruct (transform_values_frame _ _ _ _ _ V) as (_ & _ & Hd). by apply Hd.
Qed.

Lemma X15_duration_floor_witness :
  Forall (λ v, 40 ≤ noteDuration v)
    (values [mkNote 0 60 0 10; mkNote 1 60 100 60;
             mkNote 0 60 0 40; mkNote 1 60 100 60] [2%nat; 3%nat]).
Proof.
  apply (X15_duration_floor [0%nat; 1%nat] (mkOpts 0 PyFloat.one 40) 0 false
           [mkNote 0 60 0 10; mkNote 1 60 100 60]).
  - repeat constructor.
  - reflexivity.
  - vm_compute. reflexivity.
Defined.

Lemma convert_sorted_index events limit :
  time_sorted events →
  index <$> convert_to_midi_notes events limit
  = Z.of_nat <$> seq 0 (length (convert_to_midi_notes events limit)).
Proof.
  intros Hsorted. apply time_sorted_strongly in Hsorted.
  destruct (pair_loop_sorted limit events pair_init Hsorted) as [_ Hindex];
    try done.
  unfold convert_to_midi_notes.
  by rewrite renormalize_index, renormalize_length.
Qed.

Lemma transform_values_min opts mods vs ws :
  transform_values opts mods vs = Ok ws → ws ≠ [] →
  is_min 0 (timeMSec <$> ws).
Proof.
  unfold transform_values. destruct (builtin_all opts vs); [|done].
  cbn [rbind]. intros [= <-] Hne.
  destruct (renormalize _) as [|n ns] eqn:E; [done|].
  rewrite fmap_cons, <- (renormalize_min _ _ _ E). apply py_min_is_min.
Qed.

(** X16: what [main] hands to the formatter is the pure pipeline on the
    notes paired from the transcribed events, with the transposer and the
    clamp as modifiers; [main] stops before pairing exactly when
    [transcribe_midi] returns no event. *)
Theorem X16_main_is_the_composition mid limit opts s c :
  main_notes mid limit opts s c =
  match transcribe_midi mid with
  | [] => None
  | events =>
      Some (transform_values opts (extra_mods s c)
              (convert_to_midi_notes events limit))
  end.
Proof. apply main_notes_values. Qed.

(** X17: the notes that [main] hands to the formatter have the indices
    0, 1, ..., n - 1 in list order and, when there are any, earliest start
    0; with [--clamp] every pitch is in [53,79], and with a positive
    [--min-duration-ms] no duration is below it. *)
Theorem X17_main_output_is_well_formed mid limit opts s c notes :
  main_notes mid limit opts s c = Some (Ok notes) →
  index <$> notes = Z.of_nat <$> seq 0 (length notes)
  ∧ (notes ≠ [] → is_min 0 (timeMSec <$> notes))
  ∧ (c = true → Forall (λ v, NOTE_MIN ≤ midiNoteNumber v ≤ NOTE_MAX) notes)
  ∧ (0 < min_duration_ms opts →
     Forall (λ v, min_duration_ms opts ≤ noteDuration v) notes).
Proof.
  rewrite main_notes_values.
  pose proof (transcribe_midi_sorted mid) as Hsorted.
  destruct (transcribe_midi mid) as [|ev evs]; [done|]. intros [= V].
  set (paired := convert_to_midi_notes (ev :: evs) limit) in *.
  destruct (transform_values_frame _ _ _ _ _ V) as (Hi & Hp & Hd).
  assert (Hlen : length notes = length paired).
  { by rewrite <- (length_fmap index notes), Hi, length_fmap. }
  split; [|split; [|split]].
  - rewrite Hi, Hlen. by apply convert_sorted_index.
  - by eapply transform_values_min.
  - intros ->. apply Forall_forall. intros v Hv.
    apply (list_elem_of_fmap_2 midiNoteNumber) in Hv. rewrite Hp in Hv.
    apply list_elem_of_fmap_1 in Hv as (v0 & -> & _).
    by apply pitch_after_range.
  - exact Hd.
Qed.

Lemma X17_main_output_is_well_formed_witness :
  index <$> [mkNote 0 65 0 50; mkNote 1 79 25 50]
  = Z.of_nat <$> seq 0 (length [mkNote 0 65 0 50; mkNote 1 79 25 50])
  ∧ Forall (λ v, NOTE_MIN ≤ midiNoteNumber v ≤ NOTE_MAX)
      [mkNote 0 65 0 50; mkNote 1 79 25 50].
Proof.
  destruct (X17_main_output_is_well_formed
              {| ticks_per_beat := 480;
                 tracks := [[Msg 96 (note_on 60 64); Msg 48 (note_on 90 64);
                             Msg 48 (note_off 60 0); Msg 48 (note_on 90 0)]] |}
              None (mkOpts 0 PyFloat.half 50) 5 true
              [mkNote 0 65 0 50; mkNote 1 79 25 50]) as (Hi & _ & Hc & _).
  - vm_compute. reflexivity.
  - split; [exact Hi|]. by apply Hc.
Defined.

(** ** [filename_to_song_name] *)

Section SongName.

Lemma split_go_alnum cur b s :
  Forall (λ c, is_alnum c = true) cur →
  Forall (Forall (λ c, is_alnum c = true)) (split_go cur b s).
Proof.
  revert cur b. induction s as [|c s IH]; intros cur b Hcur; simpl.
  - by constructor.
  - destruct (is_alnum c) eqn:Hc.
    + apply IH. apply Forall_app. split; [done|]. by constructor.
    + destruct b; [by apply IH|]. constructor; [done|]. by apply IH.
Qed.

(** A string of the class is one piece. *)
Lemma split_go_word cur s :
  Forall (λ c, is_alnum c = true) s → split_go cur false s = [cur ++ s].
Proof.
  revert cur. induction s as [|c s IH]; intros cur Hs; simpl.
  - by rewrite app_nil_r.
  - apply Forall_cons_1 in Hs as [-> Hs]. rewrite IH by done.
    by rewrite <- app_assoc.
Qed.

Ltac case_leb :=
  repeat match goal with
    | H : context [(?a <=? ?b)%N] |- _ => destruct (N.leb_spec a b)
    | |- context [(?a <=? ?b)%N] => destruct (N.leb_spec a b)
    end; simpl in *; try done; try lia.

Lemma upper_alnum c : is_alnum c = true → is_alnum (upper c) = true.
Proof.
  unfold upper, is_alnum, is_upper, is_lower, is_digit. intros H. case_leb.
Qed.

Lemma upper_not_lower c : is_alnum c = true → is_lower (upper c) = false.
Proof.
  unfold upper, is_alnum, is_upper, is_lower, is_digit. intros H. case_leb.
Qed.

Lemma capitalize_alnum w :
  Forall (λ c, is_alnum c = true) w →
  Forall (λ c, is_alnum c = true) (capitalize w).
Proof.
  intros Hw. destruct w as [|c w]; [done|].
  apply Forall_cons_1 in Hw as [Hc Hw]. unfold capitalize. simpl.
  constructor; [by apply upper_alnum|done].
Qed.

Lemma Forall_concat_alnum (ws : list str) :
  Forall (Forall (λ c, is_alnum c = true)) ws →
  Forall (λ c, is_alnum c = true) (concat ws).
Proof.
  induction 1 as [|w ws Hw _ IH]; [done|]. simpl. apply Forall_app. by split.
Qed.

Lemma capitalize_fixed c w :
  is_lower c = false → capitalize (c :: w) = c :: w.
Proof. intros Hc. unfold capitalize, upper. simpl. by rewrite Hc. Qed.

Lemma song_literal_well_named : well_named (str_of "Song").
Proof. split; [by repeat constructor|]. by eexists _, _. Qed.

Lemma song_name_well_named base : well_named (song_name base).
Proof.
  unfold song_name. cbv zeta.
  pose proof (split_go_alnum [] false base (Forall_nil_2 _)) as Hp.
  fold (re_split base) in Hp.
  induction (re_split base) as [|w ws IH].
  { apply song_literal_well_named. }
  apply Forall_cons_1 in Hp as [Hw Hws]. rewrite filter_cons.
  case_decide as Hne; [|by apply IH].
  rewrite fmap_cons. cbn [concat].
  destruct w as [|c w]; [done|].
  apply Forall_cons_1 in Hw as [Hc Hw].
  assert (Hrest : Forall (λ c, is_alnum c = true)
                    (concat (capitalize <$> filter (λ w, w ≠ []) ws))).
  { apply Forall_concat_alnum. apply Forall_forall. intros w' Hw'.
    apply list_elem_of_fmap_1 in Hw' as (w0 & -> & Hw0).
    apply list_elem_of_filter in Hw0 as [_ Hw0].
    rewrite Forall_forall in Hws. by apply capitalize_alnum, Hws. }
  unfold capitalize at 1. simpl. split.
  - constructor; [by apply upper_alnum|]. apply Forall_app. by split.
  - eexists _, _. split; [done|]. by apply upper_not_lower.
Qed.

Lemma song_name_fixed name : well_named name → song_name name = name.
Proof.
  intros [Halnum (c & rest & -> & Hc)]. unfold song_name, re_split.
  rewrite split_go_word by done. rewrite app_nil_l.
  rewrite filter_cons_True by done. rewrite filter_nil.
  cbn [fmap list_fmap concat]. rewrite app_nil_r.
  by rewrite capitalize_fixed.
Qed.
End SongName.

(** X18: whatever the path, the song name is not empty, consists of ASCII
    letters and digits only, and does not start with a lowercase letter. *)
Theorem X18_song_name_is_alphanumeric path_stem path :
  filename_to_song_name path_stem path ≠ []
  ∧ Forall (λ c, is_alnum c = true) (filename_to_song_name path_stem path)
  ∧ is_lower <$> head (filename_to_song_name path_stem path) = Some false.
Proof.
  unfold filename_to_song_name.
  destruct (song_name_well_named (path_stem path)) as [Ha (c & rest & E & Hc)].
  rewrite E in Ha |- *.
  split; [done|]. split; [done|]. simpl. by rewrite Hc.
Qed.

(** X19: a song name is its own song name: the function leaves every
    string unchanged that is not empty, consists of ASCII letters and
    digits and does not start with a lowercase letter, in particular every
    name it returns. *)
Theorem X19_song_name_is_idempotent :
  (∀ name, well_named name → song_name name = name)
  ∧ ∀ base, song_name (song_name base) = song_name base.
Proof.
  split; [apply song_name_fixed|].
  intros base. apply song_name_fixed, song_name_well_named.
Qed.

Lemma X19_song_name_is_idempotent_witness :
  song_name (str_of "FurElise2") = str_of "FurElise2"
  ∧ song_name (str_of "_fur-elise (2).final") = str_of "FurElise2Final".
Proof.
  destruct X19_song_name_is_idempotent as [H _]. split.
  - apply H. split; [by repeat constructor|]. by eexists _, _.
  - vm_compute. reflexivity.
Defined.

(** ** [duration_to_fraction] *)

Section Dyadic.
Import PyFloat.

Lemma iter_pos_iter {A} (f : A → A) n x : SpecFloat.iter_pos f n x = Pos.iter f x n.
Proof.
  revert x. induction n as [n IH|n IH|]; intros x; simpl.
  - rewrite !IH. by rewrite !Pos.iter_swap.
  - by rewrite !IH.
  - done.
Qed.

Lemma iter_xO p d : Z.pos (Pos.iter xO p d) = Z.pos p * 2 ^ Z.pos d.
Proof.
  induction d as [|d IH] using Pos.peano_ind.
  - simpl. lia.
  - rewrite Pos.iter_succ, Pos2Z.inj_xO, IH, Pos2Z.inj_succ, Z.pow_succ_r by lia.
    lia.
Qed.

(** Shifting out zero bits is exact. *)
Lemma iter_shr_1_exact n x :
  0 < x →
  SpecFloat.iter_pos shr_1 n (Build_shr_record (x * 2 ^ Z.pos n) false false)
  = Build_shr_record x false false.
Proof.
  intros Hx. rewrite iter_pos_iter.
  induction n as [|n IH] using Pos.peano_ind.
  - cbn [Pos.iter]. rewrite shr_1_pos by lia.
    change (2 ^ 1) with 2. rewrite Z.odd_mul, Z_div_mult by lia.
    by rewrite andb_false_r.
  - rewrite Pos.iter_succ_r.
    rewrite shr_1_pos by (pose proof (Z.pow_pos_nonneg 2 (Z.pos (Pos.succ n))); nia).
    rewrite Pos2Z.inj_succ, Z.pow_succ_r by lia.
    replace (x * (2 * 2 ^ Z.pos n)) with (x * 2 ^ Z.pos n * 2) by lia.
    rewrite Z.odd_mul, Z_div_mult by lia.
    rewrite andb_false_r. exact IH.
Qed.

Lemma Zdigits2_shift x j :
  0 < x → 0 ≤ j → Zdigits2 (x * 2 ^ j) = Zdigits2 x + j.
Proof.
  intros Hx Hj. destruct x as [|p|p]; try lia.
  pose proof (Zdigits2_bounds p) as [Hlo Hhi].
  assert (0 < Zdigits2 (Z.pos p)) by (simpl; lia).
  apply Zdigits2_unique; [|lia].
  replace (Zdigits2 (Z.pos p) + j - 1) with (Zdigits2 (Z.pos p) - 1 + j) by lia.
  rewrite !Z.pow_add_r by lia.
  pose proof (Z.pow_pos_nonneg 2 j). nia.
Qed.

Lemma Zdigits2_le_53 x : 0 < x < 2 ^ 53 → 0 < Zdigits2 x ≤ 53.
Proof.
  intros Hx. destruct x as [|p|p]; try lia.
  pose proof (Zdigits2_bounds p) as [Hlo Hhi].
  split; [simpl; lia|].
  destruct (Z.le_gt_cases (Zdigits2 (Z.pos p)) 53) as [|Hgt]; [done|].
  assert (2 ^ 53 ≤ 2 ^ (Zdigits2 (Z.pos p) - 1))
    by (apply Z.pow_le_mono_r; lia).
  lia.
Qed.

(** A mantissa of exactly 53 digits is not rounded. *)
Lemma binary_round_aux_exact s q e :
  2 ^ 52 ≤ q < 2 ^ 53 → -1074 ≤ e ≤ 971 →
  binary_round_aux prec emax s q e loc_Exact = S754_finite s (Z.to_pos q) e.
Proof.
  intros Hq He. unfold binary_round_aux.
  rewrite shr_fexp_keep by lia. cbn [shr_record_of_loc shr_m loc_of_shr_record].
  cbn [round_nearest_even]. rewrite shr_fexp_keep by lia.
  cbn [shr_record_of_loc shr_m].
  destruct q as [|p|p]; try lia. simpl Z.to_pos.
  unfold emax, prec. by replace (e <=? 1024 - 53) with true by lia.
Qed.

(** The normal form of [x * 2 ^ j * 2 ^ (E - j)]: the mantissa is [x]
    shifted to 53 digits. *)
Lemma binary_round_shift s x j E :
  0 < x < 2 ^ 53 → 0 ≤ j → -1021 ≤ E ≤ 971 →
  binary_round prec emax s (Z.to_pos (x * 2 ^ j)) (E - j)
  = S754_finite s (Z.to_pos (x * 2 ^ (53 - Zdigits2 x)))
      (E - (53 - Zdigits2 x)).
Proof.
  intros Hx Hj HE.
  pose proof (Zdigits2_le_53 x Hx) as Hk.
  assert (Hx2 : 2 ^ (Zdigits2 x - 1) ≤ x < 2 ^ Zdigits2 x).
  { destruct x as [|p|p]; try lia. apply Zdigits2_bounds. }
  set (k := Zdigits2 x) in *.
  assert (Hp : 0 < x * 2 ^ j) by (pose proof (Z.pow_pos_nonneg 2 j); nia).
  assert (Hnorm : 2 ^ 52 ≤ x * 2 ^ (53 - k) < 2 ^ 53).
  { assert (H52 : 2 ^ 52 = 2 ^ (k - 1) * 2 ^ (53 - k))
      by (rewrite <- Z.pow_add_r by lia; f_equal; lia).
    assert (H53 : 2 ^ 53 = 2 ^ k * 2 ^ (53 - k))
      by (rewrite <- Z.pow_add_r by lia; f_equal; lia).
    rewrite H52, H53.
    pose proof (Z.pow_pos_nonneg 2 (53 - k)). nia. }
  unfold binary_round.
  change (Z.pos (digits2_pos (Z.to_pos (x * 2 ^ j))))
    with (Zdigits2 (Z.pos (Z.to_pos (x * 2 ^ j)))).
  rewrite Z2Pos.id by done. rewrite Zdigits2_shift by lia. fold k.
  replace (fexp prec emax (k + j + (E - j))) with (E - (53 - k))
    by (unfold fexp, emin, prec, emax; lia).
  unfold shl_align.
  destruct (E - (53 - k) - (E - j)) as [|n|n] eqn:Hn.
  - (* already 53 digits *)
    assert (j = 53 - k) by lia. subst j.
    rewrite Z2Pos.id by done.
    by rewrite binary_round_aux_exact by lia.
  - (* more than 53 digits: the low bits are zero *)
    rewrite Z2Pos.id by done.
    unfold binary_round_aux. unfold shr_fexp at 1.
    rewrite Zdigits2_shift by lia. fold k.
    replace (fexp prec emax (k + j + (E - j))) with (E - (53 - k))
      by (unfold fexp, emin, prec, emax; lia).
    rewrite Hn. cbn [shr_record_of_loc shr].
    replace (x * 2 ^ j) with (x * 2 ^ (53 - k) * 2 ^ Z.pos n).
    2:{ rewrite <- Z.mul_assoc, <- Z.pow_add_r by lia. do 2 f_equal. lia. }
    rewrite iter_shr_1_exact by lia.
    cbn [shr_m loc_of_shr_record round_nearest_even].
    replace (E - j + Z.pos n) with (E - (53 - k)) by lia.
    rewrite shr_fexp_keep by lia. cbn [shr_record_of_loc shr_m].
    destruct (x * 2 ^ (53 - k)) as [|p|p] eqn:Hxp; try lia. simpl Z.to_pos.
    unfold emax, prec. by replace (E - (53 - k) <=? 1024 - 53) with true by lia.
  - (* fewer than 53 digits: shift left *)
    assert (Hm : Z.pos (Pos.iter xO (Z.to_pos (x * 2 ^ j)) n)
                 = x * 2 ^ (53 - k)).
    { rewrite iter_xO, Z2Pos.id by done.
      rewrite <- Z.mul_assoc, <- Z.pow_add_r by lia. do 2 f_equal. lia. }
    rewrite Hm, binary_round_aux_exact by lia. done.
Qed.

(** The normal form of a non-zero [u / 32]. *)
Lemma dyadic_nz u :
  u ≠ 0 → Z.abs u < 2 ^ 53 →
  dyadic u
  = S754_finite (u <? 0)
      (Z.to_pos (Z.abs u * 2 ^ (53 - Zdigits2 (Z.abs u))))
      (-5 - (53 - Zdigits2 (Z.abs u))).
Proof.
  intros Hu Hlt. unfold dyadic, binary_normalize.
  destruct u as [|p|p]; try done.
  - pose proof (binary_round_shift false (Z.pos p) 0 (-5)) as H.
    rewrite Z.mul_1_r, Z.sub_0_r in H. apply H; simpl in *; lia.
  - pose proof (binary_round_shift true (Z.pos p) 0 (-5)) as H.
    rewrite Z.mul_1_r, Z.sub_0_r in H. apply H; simpl in *; lia.
Qed.

(** Trailing zero bits of the mantissa do not matter. *)
Lemma normalize_shift w j :
  Z.abs w < 2 ^ 53 → 0 ≤ j →
  binary_normalize prec emax (w * 2 ^ j) (-5 - j) false = dyadic w.
Proof.
  intros Hw Hj. destruct (decide (w = 0)) as [->|Hnz]; [done|].
  rewrite dyadic_nz by done.
  pose proof (Z.pow_pos_nonneg 2 j ltac:(lia) Hj) as HP.
  destruct w as [|p|p]; try done.
  - destruct (Z.pos p * 2 ^ j) as [|q|q] eqn:Hq; try lia.
    unfold binary_normalize.
    replace q with (Z.to_pos (Z.pos p * 2 ^ j)) by (rewrite Hq; done).
    apply binary_round_shift; simpl in *; lia.
  - destruct (Z.neg p * 2 ^ j) as [|q|q] eqn:Hq; try lia.
    unfold binary_normalize.
    replace q with (Z.to_pos (Z.pos p * 2 ^ j))
      by (replace (Z.pos p * 2 ^ j) with (Z.pos q) by lia; done).
    apply binary_round_shift; simpl in *; lia.
Qed.

(** [float(d)] is exact below [2 ^ 48]. *)
Lemma of_int_dyadic d : Z.abs d < 2 ^ 48 → of_int d = Ok (dyadic (32 * d)).
Proof.
  intros Hd. unfold of_int.
  replace (binary_normalize prec emax d 0 false) with (dyadic (32 * d)).
  - destruct (decide (d = 0)) as [->|Hnz]; [done|].
    by rewrite dyadic_nz by lia.
  - destruct (decide (d = 0)) as [->|Hnz]; [done|].
    rewrite dyadic_nz by lia.
    assert (Hk : Zdigits2 (Z.abs (32 * d)) = Zdigits2 (Z.abs d) + 5).
    { replace (Z.abs (32 * d)) with (Z.abs d * 2 ^ 5) by lia.
      apply Zdigits2_shift; lia. }
    assert (Hk48 : 0 < Zdigits2 (Z.abs d) ≤ 48).
    { assert (0 < Z.abs d) as Hpos by lia.
      destruct (Z.abs d) as [|p|p] eqn:E; try lia.
      pose proof (Zdigits2_bounds p) as [Hlo Hhi].
      split; [simpl; lia|].
      destruct (Z.le_gt_cases (Zdigits2 (Z.pos p)) 48) as [|Hgt]; [done|].
      assert (2 ^ 48 ≤ 2 ^ (Zdigits2 (Z.pos p) - 1))
        by (apply Z.pow_le_mono_r; lia).
      lia. }
    rewrite Hk.
    assert (Hm : Z.abs (32 * d) * 2 ^ (53 - (Zdigits2 (Z.abs d) + 5))
                 = Z.abs d * 2 ^ (53 - Zdigits2 (Z.abs d))).
    { replace (Z.abs (32 * d)) with (Z.abs d * 2 ^ 5) by lia.
      rewrite <- Z.mul_assoc, <- Z.pow_add_r by lia. do 2 f_equal. lia. }
    rewrite Hm.
    replace (-5 - (53 - (Zdigits2 (Z.abs d) + 5)))
      with (0 - (53 - Zdigits2 (Z.abs d))) by lia.
    replace (32 * d <? 0) with (d <? 0) by lia.
    unfold binary_normalize. destruct d as [|p|p]; try done.
    + pose proof (binary_round_shift false (Z.pos p) 0 0) as H.
      rewrite Z.mul_1_r, Z.sub_0_r in H. symmetry. apply H; simpl in *; lia.
    + pose proof (binary_round_shift true (Z.pos p) 0 0) as H.
      rewrite Z.mul_1_r, Z.sub_0_r in H. symmetry. apply H; simpl in *; lia.
Qed.

Lemma dyadic_abs u : Z.abs u < 2 ^ 53 → SFabs (dyadic u) = dyadic (Z.abs u).
Proof.
  intros Hu. destruct (decide (u = 0)) as [->|Hnz]; [done|].
  rewrite !dyadic_nz by lia. cbn [SFabs]. rewrite Z.abs_idemp.
  by replace (Z.abs u <? 0) with false by lia.
Qed.

(** The aligned mantissa of a normal form. *)
Lemma shl_align_dyadic x ez :
  0 < x < 2 ^ 53 → ez ≤ -5 - (53 - Zdigits2 x) →
  Z.pos (fst (shl_align (Z.to_pos (x * 2 ^ (53 - Zdigits2 x)))
                (-5 - (53 - Zdigits2 x)) ez))
  = x * 2 ^ (-5 - ez).
Proof.
  intros Hx Hez. pose proof (Zdigits2_le_53 x Hx) as Hk.
  set (k := Zdigits2 x) in *.
  assert (0 < x * 2 ^ (53 - k)) by (pose proof (Z.pow_pos_nonneg 2 (53 - k)); nia).
  unfold shl_align.
  destruct (ez - (-5 - (53 - k))) as [|n|n] eqn:Hn; try lia; cbn [fst].
  - rewrite Z2Pos.id by done. do 2 f_equal. lia.
  - rewrite iter_xO, Z2Pos.id by done.
    rewrite <- Z.mul_assoc, <- Z.pow_add_r by lia. do 2 f_equal. lia.
Qed.

(** Subtraction is exact as long as the difference fits. *)
Lemma dyadic_sub u v :
  Z.abs u < 2 ^ 53 → Z.abs v < 2 ^ 53 → Z.abs (u - v) < 2 ^ 53 →
  SFsub prec emax (dyadic u) (dyadic v) = dyadic (u - v).
Proof.
  intros Hu Hv Huv.
  destruct (decide (u = 0)) as [->|Hnu]; destruct (decide (v = 0)) as [->|Hnv].
  - done.
  - change (dyadic 0) with (S754_zero false). rewrite !dyadic_nz by lia.
    cbn [SFsub]. replace (Z.abs (0 - v)) with (Z.abs v) by lia.
    f_equal. destruct (Z.ltb_spec v 0), (Z.ltb_spec (0 - v) 0); simpl; lia.
  - change (dyadic 0) with (S754_zero false). rewrite Z.sub_0_r.
    rewrite dyadic_nz by lia. done.
  - rewrite (dyadic_nz u), (dyadic_nz v) by lia. cbn [SFsub].
    pose proof (Zdigits2_le_53 (Z.abs u) ltac:(lia)) as Hku.
    pose proof (Zdigits2_le_53 (Z.abs v) ltac:(lia)) as Hkv.
    set (eu := -5 - (53 - Zdigits2 (Z.abs u))).
    set (ev := -5 - (53 - Zdigits2 (Z.abs v))).
    rewrite !shl_align_dyadic by (unfold eu, ev; lia).
    set (j := -5 - Z.min eu ev).
    replace (Z.min eu ev) with (-5 - j) by (unfold j; lia).
    replace (cond_Zopp (u <? 0) (Z.abs u * 2 ^ j)
             - cond_Zopp (v <? 0) (Z.abs v * 2 ^ j))
      with ((u - v) * 2 ^ j).
    + apply normalize_shift; unfold j, eu, ev; lia.
    + unfold cond_Zopp.
      destruct (Z.ltb_spec u 0), (Z.ltb_spec v 0); lia.
Qed.

(** Comparison of non-negative normal forms is comparison of values. *)
Lemma dyadic_ltb u v :
  0 ≤ u < 2 ^ 53 → 0 ≤ v < 2 ^ 53 →
  SFltb (dyadic u) (dyadic v) = (u <? v).
Proof.
  intros Hu Hv.
  destruct (decide (u = 0)) as [->|Hnu]; destruct (decide (v = 0)) as [->|Hnv].
  - done.
  - rewrite (dyadic_nz v) by lia. change (dyadic 0) with (S754_zero false).
    unfold SFltb, SFcompare.
    replace (v <? 0) with false by lia. symmetry. apply Z.ltb_lt. lia.
  - rewrite (dyadic_nz u) by lia. change (dyadic 0) with (S754_zero false).
    unfold SFltb, SFcompare.
    by replace (u <? 0) with false by lia.
  - rewrite (dyadic_nz u), (dyadic_nz v) by lia.
    rewrite !Z.abs_eq by lia.
    replace (u <? 0) with false by lia. replace (v <? 0) with false by lia.
    pose proof (Zdigits2_le_53 u ltac:(lia)) as Hku.
    pose proof (Zdigits2_le_53 v ltac:(lia)) as Hkv.
    assert (Hbu : 2 ^ (Zdigits2 u - 1) ≤ u < 2 ^ Zdigits2 u).
    { destruct u as [|p|p]; try lia. apply Zdigits2_bounds. }
    assert (Hbv : 2 ^ (Zdigits2 v - 1) ≤ v < 2 ^ Zdigits2 v).
    { destruct v as [|p|p]; try lia. apply Zdigits2_bounds. }
    set (ku := Zdigits2 u) in *. set (kv := Zdigits2 v) in *.
    unfold SFltb, SFcompare.
    destruct (Z.compare_spec (-5 - (53 - ku)) (-5 - (53 - kv))) as [He|He|He].
    + assert (ku = kv) as Hk by lia. rewrite Hk.
      pose proof (Z.pow_pos_nonneg 2 (53 - kv) ltac:(lia) ltac:(lia)) as HP.
      change (Pos.compare_cont Eq ?a ?b) with (Pos.compare a b).
      rewrite Pos2Z.inj_compare, !Z2Pos.id by nia.
      destruct (Z.compare_spec (u * 2 ^ (53 - kv)) (v * 2 ^ (53 - kv)));
        symmetry; [apply Z.ltb_ge|apply Z.ltb_lt|apply Z.ltb_ge]; nia.
    + symmetry. apply Z.ltb_lt.
      assert (2 ^ ku ≤ 2 ^ (kv - 1)) by (apply Z.pow_le_mono_r; lia). lia.
    + symmetry. apply Z.ltb_ge.
      assert (2 ^ kv ≤ 2 ^ (ku - 1)) by (apply Z.pow_le_mono_r; lia). lia.
Qed.

Lemma dyadic_ltb_inf u :
  0 ≤ u < 2 ^ 53 → SFltb (dyadic u) (S754_infinity false) = true.
Proof.
  intros Hu. destruct (decide (u = 0)) as [->|Hnu]; [done|].
  by rewrite dyadic_nz by lia.
Qed.

End Dyadic.

Section Fractions.
Import PyFloat.

Lemma int_sub_dyadic d c :
  Z.abs d < 2 ^ 47 → 0 ≤ c < 2 ^ 20 →
  int_sub d (dyadic c) = Ok (dyadic (32 * d - c)).
Proof.
  intros Hd Hc. unfold int_sub. rewrite of_int_dyadic by lia. cbn [rbind].
  by rewrite dyadic_sub by lia.
Qed.

Lemma fraction_loop_first d q mult name rest best c :
  SFmul prec emax q mult = dyadic c → 0 ≤ c < 2 ^ 20 → Z.abs d < 2 ^ 47 →
  fraction_loop d q ((mult, name) :: rest) best (S754_infinity false)
  = fraction_loop d q rest name (dyadic (Z.abs (32 * d - c))).
Proof.
  intros Hq Hc Hd. cbn [fraction_loop]. rewrite Hq, int_sub_dyadic by done.
  cbn [rbind]. cbv zeta. rewrite dyadic_abs by lia.
  by rewrite dyadic_ltb_inf by lia.
Qed.

Lemma fraction_loop_cons d q mult name rest best m c :
  SFmul prec emax q mult = dyadic c → 0 ≤ c < 2 ^ 20 → Z.abs d < 2 ^ 47 →
  0 ≤ m < 2 ^ 53 →
  fraction_loop d q ((mult, name) :: rest) best (dyadic m)
  = if Z.abs (32 * d - c) <? m
    then fraction_loop d q rest name (dyadic (Z.abs (32 * d - c)))
    else fraction_loop d q rest best (dyadic m).
Proof.
  intros Hq Hc Hd Hm. cbn [fraction_loop]. rewrite Hq, int_sub_dyadic by done.
  cbn [rbind]. cbv zeta. rewrite dyadic_abs by lia.
  by rewrite dyadic_ltb by lia.
Qed.

End Fractions.

(** At the default tempo the nearest fraction is found by thresholds. *)
Lemma duration_to_fraction_default d :
  - 2 ^ 47 < d < 2 ^ 47 →
  duration_to_fraction d 500000
  = Ok (if 1500 <=? d then "1st"%string
        else if 750 <=? d then "1/2nd"%string
        else if 375 <=? d then "1/4th"%string
        else if 188 <=? d then "1/8th"%string
        else if 94 <=? d then "1/16th"%string
        else if 47 <=? d then "1/32nd"%string
        else "1/64th"%string).
Proof.
  intros Hd. unfold duration_to_fraction.
  change (PyFloat.truediv 500000 1000) with (Ok (dyadic 16000)).
  cbn [rbind]. unfold fractions.
  rewrite (fraction_loop_first d _ _ _ _ _ 64000)
    by first [reflexivity | lia].
  repeat rewrite (fraction_loop_cons d _ (S754_finite false _ (-51)) _ _ _ _ 32000)
    by first [reflexivity | lia].
  repeat rewrite (fraction_loop_cons d _ (S754_finite false _ (-52)) _ _ _ _ 16000)
    by first [reflexivity | lia].
  repeat rewrite (fraction_loop_cons d _ (S754_finite false _ (-53)) _ _ _ _ 8000)
    by first [reflexivity | lia].
  repeat rewrite (fraction_loop_cons d _ (S754_finite false _ (-54)) _ _ _ _ 4000)
    by first [reflexivity | lia].
  repeat rewrite (fraction_loop_cons d _ (S754_finite false _ (-55)) _ _ _ _ 2000)
    by first [reflexivity | lia].
  repeat rewrite (fraction_loop_cons d _ (S754_finite false _ (-56)) _ _ _ _ 1000)
    by first [reflexivity | lia].
  cbn [fraction_loop].
  repeat (match goal with
          | |- context [Z.ltb ?a ?b] => destruct (Z.ltb_spec a b)
          | |- context [Z.leb ?a ?b] => destruct (Z.leb_spec a b)
          end; try lia);
    reflexivity.
Qed.

(** ** [format_midi_notes_as_c_array] *)

Section Format.

Lemma py_join_snoc sep lines x :
  py_join sep (lines ++ [x]) = concat ((λ y, y ++ sep) <$> lines) ++ x.
Proof.
  induction lines as [|y lines IH]; [done|].
  change ((y :: lines) ++ [x]) with (y :: (lines ++ [x])).
  cbn [py_join]. destruct (lines ++ [x]) as [|z l] eqn:E.
  { by destruct lines. }
  rewrite IH. rewrite fmap_cons. cbn [concat]. by rewrite <- !app_assoc.
Qed.

Lemma terminated_app l1 l2 : terminated (l1 ++ l2) = terminated l1 ++ terminated l2.
Proof. unfold terminated. by rewrite fmap_app, concat_app. Qed.

Lemma note_lines_text_go k ns :
  terminated
    (imap (λ i n,
             if Z.of_nat (k + i) <? Z.of_nat (k + length ns) - 1
             then note_line n ++ str_of ","
             else note_line n) ns)
  = notes_text ns.
Proof.
  revert k. induction ns as [|n ns IH]; intros k; [done|].
  rewrite imap_cons. unfold terminated. rewrite fmap_cons. cbn [concat].
  fold (terminated
          (imap ((λ i n0,
                    if Z.of_nat (k + i) <? Z.of_nat (k + length (n :: ns)) - 1
                    then note_line n0 ++ str_of ","
                    else note_line n0) ∘ S) ns)).
  rewrite (imap_ext _ (λ i n0,
             if Z.of_nat (S k + i) <? Z.of_nat (S k + length ns) - 1
             then note_line n0 ++ str_of ","
             else note_line n0)).
  2:{ intros i x _. simpl.
      replace (Z.of_nat (k + S i)) with (Z.of_nat (S (k + i))) by lia.
      replace (Z.of_nat (k + S (length ns))) with (Z.of_nat (S (k + length ns)))
        by lia.
      done. }
  rewrite IH. cbn [notes_text].
  destruct ns as [|n' ns].
  - replace (Z.of_nat (k + 0) <? Z.of_nat (k + length [n]) - 1) with false
      by (symmetry; apply Z.ltb_ge; simpl; lia).
    by rewrite <- !app_assoc.
  - replace (Z.of_nat (k + 0) <? Z.of_nat (k + length (n :: n' :: ns)) - 1)
      with true by (symmetry; apply Z.ltb_lt; simpl; lia).
    by rewrite <- !app_assoc.
Qed.

Lemma note_lines_text ns : terminated (note_lines ns) = notes_text ns.
Proof. apply (note_lines_text_go 0). Qed.

(** The shape of every text the formatter returns. *)
Lemma format_text notes name t :
  format_midi_notes_as_c_array notes name = Ok t →
  ∃ rest, t = terminated header_lines ++ notes_text notes
              ++ 32%N :: 32%N :: 125%N :: rest.
Proof.
  unfold format_midi_notes_as_c_array. intros H.
  assert (∃ last,
    t = py_join [10%N]
          ((header_lines ++ note_lines notes
            ++ [str_of "  };"; [];
                str_of "  REGISTER_SONG(" ++ name ++ str_of ", SONG)"])
           ++ [last])) as [last ->].
  { destruct notes as [|n ns].
    - cbn [rbind] in H. injection H as <-. by eexists.
    - cbv zeta in H.
      destruct (duration_to_fraction _ _) as [b|e]; [|done].
      cbn [rbind] in H. injection H as <-. by eexists. }
  rewrite py_join_snoc. fold (terminated
    (header_lines ++ note_lines notes
     ++ [str_of "  };"; [];
         str_of "  REGISTER_SONG(" ++ name ++ str_of ", SONG)"])).
  rewrite !terminated_app, note_lines_text. rewrite <- !app_assoc.
  eexists. do 2 f_equal.
Qed.

Lemma split_unique {A} (c : A) l1 r1 l2 r2 :
  c ∉ l1 → c ∉ l2 → l1 ++ c :: r1 = l2 ++ c :: r2 → l1 = l2 ∧ r1 = r2.
Proof.
  revert l2. induction l1 as [|x l1 IH]; intros [|y l2] H1 H2 E.
  - by injection E as ->.
  - injection E as -> _. destruct H2. left.
  - injection E as -> _. destruct H1. left.
  - injection E as -> E. destruct (IH l2) as [-> ->]; try done.
    + intros ?. apply H1. by right.
    + intros ?. apply H2. by right.
Qed.

Lemma pretty_N_go_chars x s :
  Forall is_numeral_char (str_of s) →
  Forall is_numeral_char (str_of (pretty_N_go x s)).
Proof.
  revert s. induction (N.lt_wf_0 x) as [x _ IH]; intros s Hs.
  assert (x = 0 ∨ 0 < x)%N as [->|Hx] by lia.
  - by rewrite pretty_N_go_0.
  - rewrite pretty_N_go_step by done. apply IH.
    { by apply N.div_lt. }
    unfold str_of. cbn [list_ascii_of_string fmap list_fmap].
    constructor; [|done]. right.
    assert (x `mod` 10 < 10)%N as Hm by (apply N.mod_lt; lia).
    destruct (x `mod` 10)%N as [|p]; [simpl; lia|].
    do 4 (destruct p as [p|p|]; try (simpl in *; lia)).
Qed.

Lemma py_str_chars z : Forall is_numeral_char (py_str z).
Proof.
  unfold py_str, pretty, pretty_Z.
  assert (Hn : ∀ p, Forall is_numeral_char (str_of (pretty (N.pos p)))).
  { intros p. unfold pretty, pretty_N.
    destruct (decide (N.pos p = 0%N)); [done|].
    apply pretty_N_go_chars. constructor. }
  destruct z as [|p|p].
  - change (str_of "0") with [48%N].
    constructor; [right; lia|constructor].
  - apply Hn.
  - unfold str_of. cbn [String.append list_ascii_of_string fmap list_fmap].
    constructor; [by left|]. apply Hn.
Qed.

Lemma py_str_no c z : ¬ is_numeral_char c → c ∉ py_str z.
Proof.
  intros Hc Hin. pose proof (py_str_chars z) as H.
  rewrite Forall_forall in H. by apply Hc, H.
Qed.

Lemma str_of_inj s1 s2 : str_of s1 = str_of s2 → s1 = s2.
Proof.
  unfold str_of. intros H.
  rewrite <- (string_of_list_ascii_of_string s1).
  rewrite <- (string_of_list_ascii_of_string s2). f_equal.
  revert H. generalize (list_ascii_of_string s1) (list_ascii_of_string s2).
  induction l as [|a l IH]; intros [|b l'] H; try done.
  injection H as Hab H. f_equal; [|by apply IH].
  rewrite <- (ascii_N_embedding a), <- (ascii_N_embedding b). by f_equal.
Qed.

Lemma py_str_inj z1 z2 : py_str z1 = py_str z2 → z1 = z2.
Proof. intros H. by apply (inj pretty), str_of_inj. Qed.

(** Two note lines with what follows them: the fields are the same and so
    is what follows the closing brace. *)
Lemma note_line_unique n1 n2 r1 r2 :
  note_line n1 ++ r1 = note_line n2 ++ r2 → n1 = n2 ∧ r1 = r2.
Proof.
  unfold note_line.
  change (str_of "    {") with [32%N; 32%N; 32%N; 32%N; 123%N].
  change (str_of ", ") with [44%N; 32%N].
  change (str_of "}") with [125%N].
  rewrite <- !app_assoc. cbn [app]. intros E.
  injection E as E.
  assert (Hcomma : ∀ z, 44%N ∉ py_str z).
  { intros z. apply py_str_no. unfold is_numeral_char. lia. }
  assert (Hbrace : ∀ z, 125%N ∉ py_str z).
  { intros z. apply py_str_no. unfold is_numeral_char. lia. }
  apply split_unique in E as [E1 E]; [|done..]. injection E as E.
  apply split_unique in E as [E2 E]; [|done..]. injection E as E.
  apply split_unique in E as [E3 E]; [|done..]. injection E as E.
  apply split_unique in E as [E4 E]; [|done..].
  apply py_str_inj in E1, E2, E3, E4.
  split; [|done]. destruct n1, n2. simpl in *. by subst.
Qed.

(** The text of the notes, with the closing line after it, gives the
    notes back. *)
Lemma notes_text_unique ns1 ns2 r1 r2 :
  notes_text ns1 ++ 32%N :: 32%N :: 125%N :: r1
  = notes_text ns2 ++ 32%N :: 32%N :: 125%N :: r2 →
  ns1 = ns2.
Proof.
  revert ns2. induction ns1 as [|n1 ns1 IH]; intros [|n2 ns2] E.
  - done.
  - exfalso. revert E. cbn [notes_text]. unfold note_line.
    change (str_of "    {") with [32%N; 32%N; 32%N; 32%N; 123%N].
    rewrite <- !app_assoc. cbn [app]. discriminate.
  - exfalso. revert E. cbn [notes_text]. unfold note_line.
    change (str_of "    {") with [32%N; 32%N; 32%N; 32%N; 123%N].
    rewrite <- !app_assoc. cbn [app]. discriminate.
  - cbn [notes_text] in E. rewrite <- !app_assoc in E.
    apply note_line_unique in E as [-> E]. f_equal.
    assert (E' : ∀ (s1 s2 : str) x1 x2,
      (s1 = [] ∨ s1 = [44%N]) → (s2 = [] ∨ s2 = [44%N]) →
      s1 ++ 10%N :: x1 = s2 ++ 10%N :: x2 → x1 = x2).
    { intros s1 s2 x1 x2 H1 H2 Ex.
      apply split_unique in Ex as [_ Ex]; [done|..].
      - destruct H1 as [->| ->]; [apply not_elem_of_nil|].
        rewrite list_elem_of_singleton. done.
      - destruct H2 as [->| ->]; [apply not_elem_of_nil|].
        rewrite list_elem_of_singleton. done. }
    cbn [app] in E. apply (IH ns2). eapply E'; [| |exact E].
    + destruct ns1; auto.
    + destruct ns2; auto.
Qed.

Lemma format_injective notes1 notes2 name1 name2 t :
  format_midi_notes_as_c_array notes1 name1 = Ok t →
  format_midi_notes_as_c_array notes2 name2 = Ok t →
  notes1 = notes2.
Proof.
  intros H1 H2.
  apply format_text in H1 as [r1 E1]. apply format_text in H2 as [r2 E2].
  rewrite E1 in E2. apply app_inv_head in E2.
  by apply notes_text_unique in E2.
Qed.

End Format.

Lemma format_returns notes name :
  notes ≠ [] →
  Forall (λ n, - 2 ^ 47 < noteDuration n < 2 ^ 47) notes →
  ∃ shortest fraction body,
    is_min shortest (noteDuration <$> notes)
    ∧ duration_to_fraction shortest 500000 = Ok fraction
    ∧ format_midi_notes_as_c_array notes name
      = Ok (body ++ str_of "} // " ++ str_of fraction).
Proof.
  intros Hne Hall. destruct notes as [|n ns]; [done|].
  pose proof (py_min_is_min (noteDuration n) (noteDuration <$> ns)) as Hmin.
  assert (Hr : - 2 ^ 47 < py_min (noteDuration n) (noteDuration <$> ns) < 2 ^ 47).
  { destruct Hmin as [Hin _]. change (noteDuration n :: (noteDuration <$> ns))
      with (noteDuration <$> n :: ns) in Hin.
    apply list_elem_of_fmap in Hin as (v & -> & Hv).
    rewrite Forall_forall in Hall. by apply Hall. }
  pose proof (duration_to_fraction_default _ Hr) as Hf.
  eexists _, _, _. split; [exact Hmin|]. split; [exact Hf|].
  unfold format_midi_notes_as_c_array. cbv zeta. rewrite Hf. cbn [rbind].
  by rewrite py_join_snoc.
Qed.

(** X20: at the default tempo and for durations below [2 ^ 47] in absolute
    value, [duration_to_fraction] returns the name of the fraction of a
    500 ms quarter note nearest to the duration, the longer one at equal
    distance: the thresholds are 1500, 750, 375, 188, 94 and 47 ms. *)
Theorem X20_fraction_thresholds d :
  - 2 ^ 47 < d < 2 ^ 47 →
  duration_to_fraction d 500000
  = Ok (if 1500 <=? d then "1st"%string
        else if 750 <=? d then "1/2nd"%string
        else if 375 <=? d then "1/4th"%string
        else if 188 <=? d then "1/8th"%string
        else if 94 <=? d then "1/16th"%string
        else if 47 <=? d then "1/32nd"%string
        else "1/64th"%string).
Proof. apply duration_to_fraction_default. Qed.

Lemma X20_fraction_thresholds_witness :
  - 2 ^ 47 < 187 < 2 ^ 47
  ∧ duration_to_fraction 187 500000 = Ok "1/16th"%string.
Proof.
  split; [lia|]. apply (X20_fraction_thresholds 187). lia.
Defined.

(** X21: the text the formatter returns determines the notes: two calls
    that return the same text were given the same list of notes, whatever
    the song names. *)
Theorem X21_text_determines_the_notes notes1 notes2 name1 name2 t :
  format_midi_notes_as_c_array notes1 name1 = Ok t →
  format_midi_notes_as_c_array notes2 name2 = Ok t →
  notes1 = notes2.
Proof. apply format_injective. Qed.

Lemma X21_text_determines_the_notes_witness :
  format_midi_notes_as_c_array [mkNote 0 60 0 500] (str_of "Song")
  = Ok (py_join [10%N]
          (header_lines
           ++ [ str_of "    {0, 60, 0, 500}"; str_of "  };"; [];
                str_of "  REGISTER_SONG(Song, SONG)"; str_of "} // 1/4th" ]))
  ∧ [mkNote 0 60 0 500] = [mkNote 0 60 0 500].
Proof.
  split; [vm_compute; reflexivity|].
  apply (X21_text_determines_the_notes [mkNote 0 60 0 500] [mkNote 0 60 0 500]
           (str_of "Song") (str_of "Song")
           (py_join [10%N]
              (header_lines
               ++ [ str_of "    {0, 60, 0, 500}"; str_of "  };"; [];
                    str_of "  REGISTER_SONG(Song, SONG)";
                    str_of "} // 1/4th" ])));
    vm_compute; reflexivity.
Defined.

(** X22: for a non-empty list of notes whose durations are below [2 ^ 47]
    in absolute value and whose other fields have at most 4300 digits, so
    that every field is converted to a string, the formatter returns, and
    its text ends with the comment that names the fraction of the shortest
    duration. *)
Theorem X22_comment_names_the_shortest_note notes name :
  notes ≠ [] →
  Forall (λ n, - 2 ^ 47 < noteDuration n < 2 ^ 47) notes →
  Forall (λ n, str_digits_ok (index n) ∧ str_digits_ok (midiNoteNumber n)
               ∧ str_digits_ok (timeMSec n)) notes →
  ∃ shortest fraction body,
    is_min shortest (noteDuration <$> notes)
    ∧ duration_to_fraction shortest 500000 = Ok fraction
    ∧ format_midi_notes_as_c_array notes name
      = Ok (body ++ str_of "} // " ++ str_of fraction).
Proof. intros Hne Hd _. by apply format_returns. Qed.

Lemma X22_comment_names_the_shortest_note_witness :
  ∃ body,
    format_midi_notes_as_c_array
      [mkNote 0 60 0 400; mkNote 1 62 400 187] (str_of "Song")
    = Ok (body ++ str_of "} // " ++ str_of "1/16th").
Proof.
  destruct (X22_comment_names_the_shortest_note
              [mkNote 0 60 0 400; mkNote 1 62 400 187] (str_of "Song"))
    as (m & f & body & [Hin Hle] & Hf & E).
  - discriminate.
  - repeat constructor.
  - repeat constructor; vm_compute; lia.
  - exists body. rewrite E. do 4 f_equal.
    assert (m = 187) as ->.
    { apply Forall_cons in Hle as [_ Hle]. apply Forall_cons in Hle as [Hle _].
      apply elem_of_cons in Hin as [->|Hin]; [simpl in Hle; lia|].
      by apply list_elem_of_singleton in Hin. }
    vm_compute in Hf. by injection Hf as <-.
Defined.

(** ** The text of [main] *)

Section MainText.

Lemma format_nil name : ∃ t, format_midi_notes_as_c_array [] name = Ok t.
Proof. by eexists. Qed.

Lemma Forall_duration (Q : Z → Prop) l :
  Forall (λ v, Q (noteDuration v)) l ↔ Forall Q (noteDuration <$> l).
Proof. by rewrite Forall_fmap. Qed.

(** The durations of the paired notes are differences of two timestamps. *)
Lemma convert_durations events limit B :
  Forall (λ e, - B < ev_time e < B) events →
  Forall (λ v, - (2 * B) < noteDuration v < 2 * B)
    (convert_to_midi_notes events limit).
Proof.
  intros Hev. unfold convert_to_midi_notes.
  pose proof (pair_loop_provenance limit events events pair_init) as H.
  specialize (H (λ e He, He)).
  assert (Hact : ∀ k s, active pair_init !! k = Some s →
                        (k, s, "ON"%string) ∈ events).
  { intros k s Hk. cbn in Hk. by rewrite lookup_empty in Hk. }
  specialize (H Hact (Forall_nil_2 _)).
  rewrite Forall_forall in Hev.
  assert (Hd : Forall (λ v, - (2 * B) < noteDuration v < 2 * B)
                 (out (pair_loop limit events pair_init))).
  { eapply Forall_impl; [exact H|]. intros v [Hon Hoff].
    apply Hev in Hon, Hoff. unfold ev_time in *. simpl in *. lia. }
  apply (Forall_duration (λ d, - (2 * B) < d < 2 * B)).
  rewrite (fmap_renormalize noteDuration) by (by intros []).
  by apply (Forall_duration (λ d, - (2 * B) < d < 2 * B)).
Qed.

Lemma main_text_returns mid limit sh md s c path_stem path :
  Forall (λ e, - 2 ^ 46 < ev_time e < 2 ^ 46) (transcribe_midi mid) →
  - 2 ^ 47 < md < 2 ^ 47 →
  main_text mid limit (mkOpts sh PyFloat.one md) s c path_stem path = None
  ∨ ∃ t, main_text mid limit (mkOpts sh PyFloat.one md) s c path_stem path
         = Some (Ok t).
Proof.
  intros Hev Hmd. unfold main_text. rewrite main_notes_values.
  destruct (transcribe_midi mid) as [|e evs] eqn:E; [by left|]. right.
  unfold transform_values. rewrite builtin_all_scale_one. cbn [rbind].
  set (notes := convert_to_midi_notes (e :: evs) limit).
  set (out := renormalize _).
  assert (Hout : Forall (λ n, - 2 ^ 47 < noteDuration n < 2 ^ 47) out).
  { apply (Forall_duration (λ d, - 2 ^ 47 < d < 2 ^ 47)). unfold out.
    rewrite (fmap_renormalize noteDuration) by (by intros []).
    rewrite <- !list_fmap_compose. apply Forall_fmap.
    pose proof (convert_durations (e :: evs) limit (2 ^ 46) Hev) as Hd.
    eapply Forall_impl; [exact Hd|]. intros v Hv. cbn.
    rewrite apply_extra_mods. unfold floor_duration, delay.
    destruct v as [i p t d]; simpl in *.
    destruct (negb (md =? 0) && (d <? md)); simpl; lia. }
  destruct out as [|n ns] eqn:Eo.
  - destruct (format_nil (filename_to_song_name path_stem path)) as [t Ht].
    exists t. by rewrite Ht.
  - destruct (format_returns (n :: ns) (filename_to_song_name path_stem path))
      as (m & f & body & _ & _ & Ht); [done|done|].
    eexists. by rewrite Ht.
Qed.

End MainText.

(** X23: with the default [--time-scale] of 1.0, timestamps of the
    transcribed events below [2 ^ 46] ms in absolute value and a
    [--min-duration-ms] below [2 ^ 47], nothing [main] computes after the
    events are read can raise: it returns early, or it gets its text. *)
Theorem X23_main_gets_its_text mid limit sh md s c path_stem path :
  Forall (λ e, - 2 ^ 46 < ev_time e < 2 ^ 46) (transcribe_midi mid) →
  - 2 ^ 47 < md < 2 ^ 47 →
  main_text mid limit (mkOpts sh PyFloat.one md) s c path_stem path = None
  ∨ ∃ t, main_text mid limit (mkOpts sh PyFloat.one md) s c path_stem path
         = Some (Ok t).
Proof. apply main_text_returns. Qed.

Lemma X23_main_gets_its_text_witness :
  ∃ t,
    main_text
      {| ticks_per_beat := 480;
         tracks := [[Msg 0 (note_on 60 64); Msg 480 (note_off 60 0)]] |}
      None (mkOpts 0 PyFloat.one 0) 0 false (λ p, p) (str_of "song")
    = Some (Ok t)
    ∧ t = py_join [10%N]
            (header_lines
             ++ [ str_of "    {0, 60, 0, 500}"; str_of "  };"; [];
                  str_of "  REGISTER_SONG(Song, SONG)";
                  str_of "} // 1/4th" ]).
Proof.
  assert (Hc :
    main_text
      {| ticks_per_beat := 480;
         tracks := [[Msg 0 (note_on 60 64); Msg 480 (note_off 60 0)]] |}
      None (mkOpts 0 PyFloat.one 0) 0 false (λ p, p) (str_of "song")
    = Some (Ok (py_join [10%N]
                  (header_lines
                   ++ [ str_of "    {0, 60, 0, 500}"; str_of "  };"; [];
                        str_of "  REGISTER_SONG(Song, SONG)";
                        str_of "} // 1/4th" ]))))
    by (vm_compute; reflexivity).
  destruct (X23_main_gets_its_text
              {| ticks_per_beat := 480;
                 tracks := [[Msg 0 (note_on 60 64); Msg 480 (note_off 60 0)]] |}
              None 0 0 0 false (λ p, p) (str_of "song")) as [Hn|[t Ht]].
  - replace (transcribe_midi _)
      with [(60, 0, "ON"%string); (60, 500, "OFF"%string)]
      by (vm_compute; reflexivity).
    repeat constructor.
  - lia.
  - rewrite Hc in Hn. discriminate.
  - exists t. split; [exact Ht|]. rewrite Hc in Ht. by injection Ht as <-.
Defined.

(** ** The default options *)

Section Defaults.

(** A list that starts at 0 is not shifted again. *)
Lemma renormalize_idem o : renormalize (renormalize o) = renormalize o.
Proof.
  destruct (renormalize o) as [|n ns] eqn:E; [done|].
  rewrite renormalize_cons. cbv zeta. rewrite (renormalize_min _ _ _ E).
  rewrite Z.sub_0_r, set_timeMSec_id. f_equal.
  rewrite <- (list_fmap_id ns) at 2. apply list_fmap_ext.
  intros i v _. by rewrite Z.sub_0_r, set_timeMSec_id.
Qed.

Lemma floor_duration_0 v : floor_duration 0 v = v.
Proof. done. Qed.

Lemma transform_values_default vs :
  transform_values (mkOpts 0 PyFloat.one 0) (extra_mods 0 false) vs
  = Ok (renormalize vs).
Proof.
  unfold transform_values. rewrite builtin_all_scale_one. cbn [rbind].
  do 2 f_equal. rewrite <- list_fmap_compose.
  rewrite <- (list_fmap_id vs) at 2. apply list_fmap_ext.
  intros i v _. unfold compose. cbv beta.
  by rewrite delay_0, floor_duration_0.
Qed.

End Defaults.

(** X24: with every option at its default ([--time-shift-ms 0],
    [--time-scale 1.0], [--min-duration-ms 0], no [--transpose], no
    [--clamp]) the pipeline changes nothing: the formatter gets the notes
    of [convert_to_midi_notes] with the same fields, because they already
    start at 0. *)
Theorem X24_default_options_change_nothing mid limit :
  main_notes mid limit (mkOpts 0 PyFloat.one 0) 0 false =
  match transcribe_midi mid with
  | [] => None
  | events => Some (Ok (convert_to_midi_notes events limit))
  end.
Proof.
  rewrite main_notes_values. destruct (transcribe_midi mid) as [|e evs]; [done|].
  rewrite transform_values_default. unfold convert_to_midi_notes.
  by rewrite renormalize_idem.
Qed.

(** ** The sign of [time_scale] *)

Section ScaleSign.
Import PyFloat.

(** The sign of a product is the only place where the sign of a factor is
    looked at. *)
Lemma binary_round_aux_opp s m e l :
  binary_round_aux prec emax (negb s) m e l
  = SFopp (binary_round_aux prec emax s m e l).
Proof.
  unfold binary_round_aux.
  destruct (shr_fexp prec emax m e l) as [mrs e'].
  destruct (shr_fexp prec emax _ e' loc_Exact) as [mrs' e''].
  destruct (shr_m mrs') as [|q|q]; [done| |done].
  by destruct (e'' <=? emax - prec).
Qed.

Lemma SFmul_opp x y :
  SFmul prec emax x (SFopp y) = SFopp (SFmul prec emax x y).
Proof.
  destruct x as [sx|sx| |sx mx ex], y as [sy|sy| |sy my ey]; cbn [SFmul SFopp];
    try done; try (by destruct sx, sy).
  rewrite <- binary_round_aux_opp. by destruct sx, sy.
Qed.

Lemma round_opp x :
  round (SFopp x) = rbind (round x) (λ y, Ok (- y)).
Proof.
  destruct x as [s|s| |s m e]; cbn [round SFopp rbind]; try done.
  f_equal. unfold signed. destruct s; cbn [negb]; lia.
Qed.

(** Scaling by [-s] gives the negated result of scaling by [s], and raises
    when scaling by [s] does. *)
Lemma scale_int_opp x s :
  scale_int x (SFopp s) = rbind (scale_int x s) (λ y, Ok (- y)).
Proof.
  unfold scale_int, int_mul. destruct (of_int x) as [fx|e]; [|done].
  cbn [rbind]. by rewrite SFmul_opp, round_opp.
Qed.

Lemma builtin_fields_opp sh s md v :
  neqb s one = true → neqb (SFopp s) one = true →
  same_outcome (builtin_fields (mkOpts sh s md) v)
               (builtin_fields (mkOpts sh (SFopp s) md) v).
Proof.
  intros H1 H2. unfold builtin_fields. cbn [time_scale]. rewrite H1, H2.
  rewrite !scale_int_opp.
  destruct (scale_int (timeMSec v) s) as [t|e]; [|done]. cbn [rbind].
  destruct (scale_int (noteDuration v) s) as [d|e]; [|done]. done.
Qed.

Lemma builtin_all_opp sh s md vs :
  neqb s one = true → neqb (SFopp s) one = true →
  same_outcome (builtin_all (mkOpts sh s md) vs)
               (builtin_all (mkOpts sh (SFopp s) md) vs).
Proof.
  intros H1 H2. induction vs as [|v vs IH]; [done|]. cbn [builtin_all].
  pose proof (builtin_fields_opp sh s md v H1 H2) as Hv.
  destruct (builtin_fields (mkOpts sh s md) v) as [w1|e1],
           (builtin_fields (mkOpts sh (SFopp s) md) v) as [w2|e2];
    try done. cbn [rbind].
  destruct (builtin_all (mkOpts sh s md) vs) as [ws1|e1],
           (builtin_all (mkOpts sh (SFopp s) md) vs) as [ws2|e2]; done.
Qed.

(** Scaling by zero gives zero, whenever the int converts. *)
Lemma scale_int_zero x s0 :
  Z.abs x < 2 ^ 48 → scale_int x (S754_zero s0) = Ok 0.
Proof.
  intros Hx. unfold scale_int, int_mul. rewrite of_int_dyadic by done.
  cbn [rbind]. destruct (decide (x = 0)) as [->|Hnz]; [done|].
  by rewrite dyadic_nz by lia.
Qed.

Lemma builtin_all_zero sh s0 md vs :
  Forall (λ v, Z.abs (timeMSec v) < 2 ^ 48 ∧ Z.abs (noteDuration v) < 2 ^ 48)
    vs →
  builtin_all (mkOpts sh (S754_zero s0) md) vs
  = Ok ((λ v, floor_duration md
                (delay sh (set_noteDuration (set_timeMSec v 0) 0))) <$> vs).
Proof.
  induction 1 as [|v vs [Ht Hd] _ IH]; [done|]. cbn [builtin_all].
  rewrite IH. unfold builtin_fields. cbn [time_scale time_shift_ms min_duration_ms].
  replace (neqb (S754_zero s0) one) with true by (by destruct s0).
  rewrite !scale_int_zero by done. cbn [rbind]. cbv zeta.
  rewrite fmap_cons. do 2 f_equal.
  unfold floor_duration, delay.
  destruct (Z.eqb_spec sh 0) as [->|Hsh]; cbn [negb].
  - destruct v; cbn. by rewrite Z.add_0_r.
  - done.
Qed.

(** A mantissa of 53 digits or more is not shifted to the left. *)
Lemma binary_round_long s p e :
  53 ≤ Zdigits2 (Z.pos p) → -1074 ≤ e →
  binary_round prec emax s p e
  = binary_round_aux prec emax s (Z.pos p) e loc_Exact.
Proof.
  intros Hd He. unfold binary_round.
  change (Z.pos (digits2_pos p)) with (Zdigits2 (Z.pos p)).
  unfold shl_align.
  destruct (fexp prec emax (Zdigits2 (Z.pos p) + e) - e) as [|n|n] eqn:E;
    [done|done|].
  unfold fexp, emin, prec, emax in E. lia.
Qed.

(** Multiplying by 1.0 is exact. *)
Lemma SFmul_one u :
  Z.abs u < 2 ^ 53 → SFmul prec emax (dyadic u) one = dyadic u.
Proof.
  intros Hu. destruct (decide (u = 0)) as [->|Hnz]; [done|].
  rewrite dyadic_nz by done.
  pose proof (Zdigits2_le_53 (Z.abs u) ltac:(lia)) as Hk.
  assert (Hb : 2 ^ (Zdigits2 (Z.abs u) - 1) ≤ Z.abs u
               < 2 ^ Zdigits2 (Z.abs u)).
  { destruct (Z.abs u) as [|p|p] eqn:E; try lia. apply Zdigits2_bounds. }
  set (k := Zdigits2 (Z.abs u)) in *.
  set (x := Z.abs u * 2 ^ (53 - k)).
  assert (Hx : 2 ^ 52 ≤ x < 2 ^ 53).
  { unfold x.
    assert (H52 : 2 ^ 52 = 2 ^ (k - 1) * 2 ^ (53 - k))
      by (rewrite <- Z.pow_add_r by lia; f_equal; lia).
    assert (H53 : 2 ^ 53 = 2 ^ k * 2 ^ (53 - k))
      by (rewrite <- Z.pow_add_r by lia; f_equal; lia).
    rewrite H52, H53.
    pose proof (Z.pow_pos_nonneg 2 (53 - k)). nia. }
  unfold one. cbn [SFmul]. rewrite xorb_false_r.
  assert (Hdx : Zdigits2 x = 53) by (apply Zdigits2_unique; lia).
  replace (Z.pos (Z.to_pos x * 4503599627370496))
    with (Z.pos (Z.to_pos (x * 2 ^ 52))).
  2:{ rewrite Pos2Z.inj_mul, !Z2Pos.id by lia. done. }
  rewrite <- binary_round_long.
  - replace (-5 - (53 - k) + -52) with (-5 - (53 - k) - 52) by lia.
    rewrite (binary_round_shift (u <? 0) x 52 (-5 - (53 - k))) by lia.
    rewrite Hdx. replace (53 - 53) with 0 by lia.
    rewrite Z.mul_1_r, Z.sub_0_r. done.
  - rewrite Z2Pos.id by lia. rewrite Zdigits2_shift by lia. lia.
  - lia.
Qed.

(** Rounding an integer gives the integer. *)
Lemma round_dyadic x :
  Z.abs x < 2 ^ 48 → round (dyadic (32 * x)) = Ok x.
Proof.
  intros Hx. destruct (decide (x = 0)) as [->|Hnz]; [done|].
  rewrite dyadic_nz by lia.
  assert (Hk : Zdigits2 (Z.abs (32 * x)) = Zdigits2 (Z.abs x) + 5).
  { replace (Z.abs (32 * x)) with (Z.abs x * 2 ^ 5) by lia.
    apply Zdigits2_shift; lia. }
  pose proof (Zdigits2_le_53 (Z.abs (32 * x)) ltac:(lia)) as Hk53.
  rewrite Hk in *. set (k := Zdigits2 (Z.abs x)) in *.
  assert (0 < k) by (subst k; destruct x; simpl; lia).
  cbn [round].
  replace (0 <=? -5 - (53 - (k + 5))) with false by lia.
  replace (- (-5 - (53 - (k + 5)))) with (53 - k) by lia.
  assert (HP : 0 < 2 ^ (53 - k)) by (apply Z.pow_pos_nonneg; lia).
  assert (Hm : Z.abs (32 * x) * 2 ^ (53 - (k + 5)) = Z.abs x * 2 ^ (53 - k)).
  { replace (Z.abs (32 * x)) with (Z.abs x * 2 ^ 5) by lia.
    rewrite <- Z.mul_assoc, <- Z.pow_add_r by lia. do 2 f_equal. lia. }
  rewrite Hm, Z2Pos.id by lia.
  unfold nearest_even. rewrite Z_div_mult, Z_mod_mult by lia.
  replace (2 * 0 ?= 2 ^ (53 - k)) with Lt by (symmetry; apply Z.compare_lt_iff; lia).
  f_equal. unfold signed. destruct (Z.ltb_spec (32 * x) 0); lia.
Qed.

Lemma scale_int_one x : Z.abs x < 2 ^ 48 → scale_int x one = Ok x.
Proof.
  intros Hx. unfold scale_int, int_mul. rewrite of_int_dyadic by done.
  cbn [rbind]. rewrite SFmul_one by lia. by apply round_dyadic.
Qed.

(** Scaling by -1.0 negates. *)
Lemma scale_int_minus_one x :
  Z.abs x < 2 ^ 48 → scale_int x minus_one = Ok (- x).
Proof.
  intros Hx. change minus_one with (SFopp one).
  by rewrite scale_int_opp, scale_int_one.
Qed.

Lemma builtin_all_minus_one sh md vs :
  Forall (λ v, Z.abs (timeMSec v) < 2 ^ 48 ∧ Z.abs (noteDuration v) < 2 ^ 48)
    vs →
  builtin_all (mkOpts sh minus_one md) vs
  = Ok ((λ v, floor_duration md
                (delay sh (set_noteDuration (set_timeMSec v (- timeMSec v))
                             (- noteDuration v)))) <$> vs).
Proof.
  induction 1 as [|v vs [Ht Hd] _ IH]; [done|]. cbn [builtin_all].
  rewrite IH. unfold builtin_fields. cbn [time_scale time_shift_ms min_duration_ms].
  change (neqb minus_one one) with true. cbv iota.
  rewrite !scale_int_minus_one by done. cbn [rbind]. cbv zeta.
  rewrite fmap_cons. do 2 f_equal.
  unfold floor_duration, delay.
  destruct (Z.eqb_spec sh 0) as [->|Hsh]; cbn [negb].
  - destruct v; cbn. by rewrite Z.add_0_r.
  - done.
Qed.

Lemma builtin_all_length opts vs ws :
  builtin_all opts vs = Ok ws → length ws = length vs.
Proof.
  revert ws. induction vs as [|v vs IH]; intros ws; cbn [builtin_all].
  - by intros [= <-].
  - destruct (builtin_fields opts v) as [w|e]; [|done]. cbn [rbind].
    destruct (builtin_all opts vs) as [ws'|e]; [|done]. cbn [rbind].
    intros [= <-]. simpl. f_equal. by apply IH.
Qed.

End ScaleSign.

Lemma apply_transforms_outcome notes opts mods h :
  Forall field_modifier mods →
  Forall (λ n, (n < length h)%nat) notes →
  ∃ h' r, apply_transforms notes opts mods h = (h', r)
        ∧ same_outcome r (builtin_all opts (values h notes))
        ∧ rbind r (λ o, Ok (values h' o))
          = transform_values opts mods (values h notes)
        ∧ ∀ o, r = Ok o → length o = length notes.
Proof.
  intros Hmods Hval.
  destruct (apply_transforms_fields notes opts mods h Hmods Hval)
    as (h' & r & E & V).
  destruct (apply_transforms_spec notes opts mods h
              (Forall_field_confined mods Hmods)) as (h2 & r2 & E2 & _ & R).
  rewrite E in E2. injection E2 as <- <-.
  exists h', r. split; [done|]. split; [|split; [done|]].
  - unfold transform_values in V.
    destruct r as [o|e], (builtin_all opts (values h notes)) as [ws|e'];
      cbn [rbind] in V; try done. by injection V.
  - intros o Ho. by destruct (R o Ho).
Qed.

(** C2, as the code has it: [apply_transforms] does not validate
    [time_scale] and never looks at its sign.  Scaling by [-s] gives the
    negated result of scaling by [s], so the call with a negative scale
    raises exactly when the call with the positive scale raises, with the
    same exception, and otherwise processes every interval: it returns the
    notes of the pure pipeline at that scale, one per input interval.  With
    a scale of zero and starts and durations below [2 ^ 48] it returns too,
    every start and duration scaled to 0, and with a scale of -1.0 every
    start and duration negated.  The modifiers are field modifiers, as
    those of [main] are. *)
Theorem C2_time_scale_is_not_validated notes sh sc md mods h :
  Forall field_modifier mods →
  Forall (λ n, (n < length h)%nat) notes →
  PyFloat.neqb sc PyFloat.one = true →
  PyFloat.neqb (SFopp sc) PyFloat.one = true →
  (∀ x, scale_int x (SFopp sc) = rbind (scale_int x sc) (λ y, Ok (- y)))
  ∧ (∃ h1 r1 h2 r2,
       apply_transforms notes (mkOpts sh sc md) mods h = (h1, r1)
       ∧ apply_transforms notes (mkOpts sh (SFopp sc) md) mods h = (h2, r2)
       ∧ (∀ e, r1 = Err e ↔ r2 = Err e)
       ∧ rbind r2 (λ o, Ok (values h2 o))
         = transform_values (mkOpts sh (SFopp sc) md) mods (values h notes)
       ∧ ∀ o, r2 = Ok o → length o = length notes ∧ (o = [] ↔ notes = []))
  ∧ (Forall (λ n, Z.abs (timeMSec (h !!! n)) < 2 ^ 48
                  ∧ Z.abs (noteDuration (h !!! n)) < 2 ^ 48) notes →
     (∀ s0, ∃ h0 o0,
        apply_transforms notes (mkOpts sh (S754_zero s0) md) mods h
        = (h0, Ok o0)
        ∧ length o0 = length notes
        ∧ values h0 o0
          = renormalize
              (apply_modifiers mods
                 <$> ((λ v, floor_duration md
                              (delay sh
                                 (set_noteDuration (set_timeMSec v 0) 0)))
                        <$> values h notes)))
     ∧ ∃ h0 o0,
         apply_transforms notes (mkOpts sh PyFloat.minus_one md) mods h
         = (h0, Ok o0)
         ∧ length o0 = length notes
         ∧ values h0 o0
           = renormalize
               (apply_modifiers mods
                  <$> ((λ v, floor_duration md
                               (delay sh
                                  (set_noteDuration
                                     (set_timeMSec v (- timeMSec v))
                                     (- noteDuration v))))
                         <$> values h notes))).
Proof.
  intros Hmods Hval H1 H2. split; [intros x; apply scale_int_opp|]. split.
  - destruct (apply_transforms_outcome notes (mkOpts sh sc md) mods h
                Hmods Hval) as (h1 & r1 & E1 & S1 & _ & _).
    destruct (apply_transforms_outcome notes (mkOpts sh (SFopp sc) md) mods h
                Hmods Hval) as (h2 & r2 & E2 & S2 & V2 & L2).
    exists h1, r1, h2, r2. split; [done|]. split; [done|].
    pose proof (builtin_all_opp sh sc md (values h notes) H1 H2) as S.
    split; [|split; [done|]].
    + intros e.
      destruct r1 as [o1|e1], r2 as [o2|e2],
        (builtin_all (mkOpts sh sc md) (values h notes)) as [w1|x1],
        (builtin_all (mkOpts sh (SFopp sc) md) (values h notes)) as [w2|x2];
        cbn in S1, S2, S; try done.
      subst. done.
    + intros o Ho. specialize (L2 o Ho). split; [done|].
      destruct o, notes; simpl in L2; done.
  - intros Hb.
    assert (Hb' : Forall (λ v, Z.abs (timeMSec v) < 2 ^ 48
                               ∧ Z.abs (noteDuration v) < 2 ^ 48)
                    (values h notes)).
    { unfold values. apply Forall_fmap. eapply Forall_impl; [exact Hb|].
      done. }
    split.
    + intros s0.
      destruct (apply_transforms_outcome notes (mkOpts sh (S754_zero s0) md)
                  mods h Hmods Hval) as (h0 & r0 & E0 & _ & V0 & L0).
      unfold transform_values in V0.
      rewrite builtin_all_zero in V0 by done.
      cbn [rbind] in V0. destruct r0 as [o0|e]; [|done].
      cbn [rbind] in V0. injection V0 as V0.
      exists h0, o0. split; [done|]. split; [by apply L0|done].
    + destruct (apply_transforms_outcome notes (mkOpts sh PyFloat.minus_one md)
                  mods h Hmods Hval) as (h0 & r0 & E0 & _ & V0 & L0).
      unfold transform_values in V0.
      rewrite builtin_all_minus_one in V0 by done.
      cbn [rbind] in V0. destruct r0 as [o0|e]; [|done].
      cbn [rbind] in V0. injection V0 as V0.
      exists h0, o0. split; [done|]. split; [by apply L0|done].
Qed.

Lemma C2_time_scale_is_not_validated_witness :
  apply_transforms [0%nat; 1%nat] (mkOpts 0 (SFopp PyFloat.half) 0)
    [in_place _clamp] [mkNote 0 60 100 50; mkNote 1 99 300 40]
  = ([mkNote 0 60 100 50; mkNote 1 99 300 40;
      mkNote 0 60 100 (-25); mkNote 1 79 0 (-20)], Ok [2%nat; 3%nat])
  ∧ ∃ h0 o0,
      apply_transforms [0%nat; 1%nat] (mkOpts 0 (S754_zero true) 0)
        [in_place _clamp] [mkNote 0 60 100 50; mkNote 1 99 300 40]
      = (h0, Ok o0)
      ∧ values h0 o0 = [mkNote 0 60 0 0; mkNote 1 79 0 0].
Proof.
  destruct (C2_time_scale_is_not_validated [0%nat; 1%nat] 0 PyFloat.half 0
              [in_place _clamp] [mkNote 0 60 100 50; mkNote 1 99 300 40])
    as (_ & _ & Hzero).
  - repeat constructor.
  - repeat constructor.
  - reflexivity.
  - reflexivity.
  - split; [vm_compute; reflexivity|].
    destruct Hzero as [Hzero _]; [repeat constructor; cbn; lia|].
    destruct (Hzero true) as (h0 & o0 & E & _ & V).
    exists h0, o0. split; [exact E|]. rewrite V. vm_compute. reflexivity.
Defined.
